(** * DIAFold scripts: a shallow embedding and its verified properties

    The development follows the layout of the repository:

    - [Py]         the fragment of Python's built-in behaviour the scripts rely on
                   (exceptions, characters, indexing, slicing);
    - [Dia2a3m]    [scripts/dia2a3m.py]: CIGAR decoder, A3M writer, conversion loop;
    - [Star]       [scripts/star_alighnment_DIAMOND.py]: the slice-based decoder;
    - [Clean]      [scripts/PDB file prep/clean.py]: coverage / gap scorer and filter;
    - [A3mQuality] [scripts/a3m_quality.py]: entropy and greedy redundancy count.

    The definitions come first; the modules [PyFacts], [Dia2a3mFacts],
    [StarFacts], [CleanFacts] and [A3mQualityFacts] hold the proofs.

    Python strings are lists of characters; characters are code points below
    256 (type [ascii]), with [isdigit], [lower] and [isspace] as Python defines
    them on that range.  Python integers are [Z].  The quotient of two
    integers is an exact rational: Python rounds it to the nearest double,
    and a comparison of such a quotient with 0.8 or 0.62 gives the same
    answer on the rationals and on the doubles for any denominator below
    10^14.  The entropies, which need a logarithm, are real numbers. *)

From Stdlib Require Import ZArith List Ascii String DecimalString QArith Reals
  Lra Lia.
From stdpp Require Import base list strings gmap sorting.

Close Scope Q_scope.
Close Scope R_scope.
Open Scope Z_scope.

(* ===================================================================== *)
(** * Python built-ins                                                     *)
(* ===================================================================== *)

Module Py.

(** Exceptions the scripts can raise.  [ValueError] carries the message
    when the script builds it, and the offending literal when the built-in
    [int] raises.  [OSError] stands for the class and its subclasses
    ([FileNotFoundError], [PermissionError], ...) and carries the file
    name.  [Diverged] marks a [while] loop whose iteration budget was
    exhausted with its condition still true. *)
Inductive exn : Type :=
| ValueError (msg : list ascii)
| IndexError
| OSError (filename : list ascii)
| Diverged.

Inductive res (A : Type) : Type :=
| Ok (a : A)
| Raise (e : exn).
Arguments Ok {A} a.
Arguments Raise {A} e.

Definition bind {A B} (m : res A) (k : A -> res B) : res B :=
  match m with
  | Ok a => k a
  | Raise e => Raise e
  end.

Definition is_ok {A} (m : res A) : Prop := exists a, m = Ok a.

Abbreviation str := (list ascii).

(** A string literal as a Python [str]. *)
Definition s (lit : string) : str := list_ascii_of_string lit.

Definition len {A} (l : list A) : Z := Z.of_nat (length l).

Definition ord (c : ascii) : Z := Z.of_N (N_of_ascii c).
Definition chr (z : Z) : ascii := ascii_of_N (Z.to_N z).

Definition is_ascii_digit (c : ascii) : bool :=
  (48 <=? ord c) && (ord c <=? 57).

(** [str.isdigit]: the decimal digits and, below 256, the superscripts
    two, three and one. *)
Definition isdigit (c : ascii) : bool :=
  is_ascii_digit c || (ord c =? 178) || (ord c =? 179) || (ord c =? 185).

(** [int(char)] on a one-character string: only decimal digits parse. *)
Definition int_of_char (c : ascii) : res Z :=
  if is_ascii_digit c then Ok (ord c - 48) else Raise (ValueError [c]).

(** [str.lower] of one character. *)
Definition lower (c : ascii) : ascii :=
  let n := ord c in
  if ((65 <=? n) && (n <=? 90))
     || ((192 <=? n) && (n <=? 222) && negb (n =? 215))
  then chr (n + 32) else c.

(** [str.isspace] of one character. *)
Definition isspace (c : ascii) : bool :=
  let n := ord c in
  ((9 <=? n) && (n <=? 13)) || ((28 <=? n) && (n <=? 32))
  || (n =? 133) || (n =? 160).

Fixpoint lstrip (x : str) : str :=
  match x with
  | c :: rest => if isspace c then lstrip rest else x
  | [] => []
  end.

Definition strip (x : str) : str := rev (lstrip (rev (lstrip x))).

(** Index normalisation of [l[i]]: a negative index counts from the end. *)
Definition norm_index (n i : Z) : Z := if i <? 0 then i + n else i.

Definition getitem {A} (l : list A) (i : Z) : res A :=
  let j := norm_index (len l) i in
  if (0 <=? j) && (j <? len l) then
    match l !! Z.to_nat j with
    | Some x => Ok x
    | None => Raise IndexError
    end
  else Raise IndexError.

Definition setitem {A} (l : list A) (i : Z) (x : A) : res (list A) :=
  let j := norm_index (len l) i in
  if (0 <=? j) && (j <? len l) then Ok (<[Z.to_nat j := x]> l)
  else Raise IndexError.

(** Slice bounds are clamped, never an error. *)
Definition clamp (n i : Z) : Z :=
  if i <? 0 then Z.max 0 (i + n) else Z.min i n.

(** [l[lo:hi]], [l[lo:]] and [l[:hi]]. *)
Definition slice {A} (l : list A) (lo hi : Z) : list A :=
  let a := clamp (len l) lo in
  let b := clamp (len l) hi in
  take (Z.to_nat (b - a)) (drop (Z.to_nat a) l).

Definition slice_from {A} (l : list A) (lo : Z) : list A :=
  drop (Z.to_nat (clamp (len l) lo)) l.

Definition slice_to {A} (l : list A) (hi : Z) : list A :=
  take (Z.to_nat (clamp (len l) hi)) l.

(** [x * k] for a sequence [x] of one element. *)
Definition times {A} (x : A) (k : Z) : list A := replicate (Z.to_nat k) x.

(** The characters built-in [int] skips around a literal: the ASCII white
    space (9 to 13 and 32) and, above 127, the two characters [str.isspace]
    accepts.  The separators 28 to 31, which [str.strip] removes, are not
    skipped: [int] raises on them. *)
Definition int_space (c : ascii) : bool :=
  let n := ord c in
  ((9 <=? n) && (n <=? 13)) || (n =? 32) || (n =? 133) || (n =? 160).

Fixpoint int_lstrip (x : str) : str :=
  match x with
  | c :: rest => if int_space c then int_lstrip rest else x
  | [] => []
  end.

Definition int_strip (x : str) : str :=
  rev (int_lstrip (rev (int_lstrip x))).

(** The number of digits above which [int] refuses a literal: the default
    of [sys.set_int_max_str_digits] (interpreters from 3.11 on). *)
Definition int_max_str_digits : Z := 4300.

(** Built-in [int] on a string, base ten: surrounding white space, an
    optional sign, then decimal digits, single underscores allowed between
    digits, and no more digits than [int_max_str_digits]. *)
Fixpoint digits_value (acc : Z) (after_digit : bool) (x : str) : option Z :=
  match x with
  | [] => if after_digit then Some acc else None
  | c :: rest =>
      if is_ascii_digit c then
        digits_value (acc * 10 + (ord c - 48)) true rest
      else if Ascii.eqb c "_" && after_digit then digits_value acc false rest
      else None
  end.

Definition int (x : str) : res Z :=
  let body_sign :=
    match int_strip x with
    | "-"%char :: rest => (rest, -1)
    | "+"%char :: rest => (rest, 1)
    | body => (body, 1)
    end in
  match digits_value 0 false (fst body_sign) with
  | Some v =>
      if len (List.filter is_ascii_digit (fst body_sign))
         <=? int_max_str_digits
      then Ok (snd body_sign * v)
      else Raise (ValueError x)
  | None => Raise (ValueError x)
  end.

(** What the file system answers when a script creates a file for
    writing, by the path it asks for: the file is opened ([None]), or an
    exception is raised ([Some e]): [FileNotFoundError] for a path through
    a directory that does not exist, [PermissionError], [ValueError] for a
    path with a NUL character, and so on.  The answer is an input of the
    model, as the contents of the files read are.  The writes to a file
    that was opened are taken to succeed. *)
Abbreviation file_system := (str -> option exn).

(** [sorted] applied to a set of integers. *)
Definition sorted (X : gset Z) : list Z := merge_sort Z.le (elements X).

(** True division [a / b] of two integers, as an exact rational.  The
    callers test [b] first. *)
Definition truediv (a b : Z) : Q := Qdiv (inject_Z a) (inject_Z b).

Definition Qlt_bool (x y : Q) : bool := negb (Qle_bool y x).

(** [str.split()] with no argument: the maximal runs of characters that
    are not whitespace.  [cur] is the run being read. *)
Fixpoint split_from (cur : str) (x : str) : list str :=
  match x with
  | [] => match cur with [] => [] | _ => [cur] end
  | c :: rest =>
      if isspace c then
        match cur with
        | [] => split_from [] rest
        | _ => cur :: split_from [] rest
        end
      else split_from (cur ++ [c]) rest
  end.

Definition split (x : str) : list str := split_from [] x.

(** [str.islower] of one character: the lower-case letters, with the
    ordinal indicators and the micro sign below 256. *)
Definition islower (c : ascii) : bool :=
  let n := ord c in
  ((97 <=? n) && (n <=? 122)) || (n =? 170) || (n =? 181) || (n =? 186)
  || ((223 <=? n) && (n <=? 255) && negb (n =? 247)).

(** [str.isupper] of one character: the upper-case letters. *)
Definition isupper (c : ascii) : bool :=
  let n := ord c in
  ((65 <=? n) && (n <=? 90))
  || ((192 <=? n) && (n <=? 222) && negb (n =? 215)).

(** A string of upper-case letters. *)
Definition upper_case (x : str) : Prop :=
  Forall (fun c => isupper c = true) x.

(** A string without lower-case characters. *)
Definition no_lower_case (x : str) : Prop :=
  Forall (fun c => islower c = false) x.

End Py.

Export Py.

Notation "'let*' x ':=' m 'in' k" := (bind m (fun x => k))
  (at level 10, x name, m at level 100, k at level 200).

(* ===================================================================== *)
(** * scripts/dia2a3m.py                                                   *)
(* ===================================================================== *)

Module Dia2a3m.

(** The local variables of [cigar_to_alignment_fold], apart from the run
    length [index], which the scan threads beside them. *)
Record state : Type := mkState {
  alignment_q : str;
  alignment_s : str;
  insertions : list str;
  s_curr : Z;
  q_curr : Z;
  col : Z
}.

Definition init : state :=
  {| alignment_q := []; alignment_s := []; insertions := [];
     s_curr := 0; q_curr := 0; col := -1 |}.

(** One column appended: query character [qc] over subject character [sc]. *)
Definition emit (qc sc : ascii) (ds : Z) (st : state) : state :=
  {| alignment_q := alignment_q st ++ [qc];
     alignment_s := alignment_s st ++ [sc];
     insertions := insertions st ++ [[]];
     s_curr := s_curr st + ds;
     q_curr := q_curr st + 1;
     col := col st + 1 |}.

(** [for _ in range(index)] under operator [M]. *)
Fixpoint run_M (sequence query : str) (n : nat) (st : state) : res state :=
  match n with
  | O => Ok st
  | S n' =>
      if (q_curr st >=? len query) || (s_curr st >=? len sequence) then Ok st
      else
        let* qc := getitem query (q_curr st) in
        let* sc := getitem sequence (s_curr st) in
        run_M sequence query n' (emit qc sc 1 st)
  end.

(** [for _ in range(index)] under operator [I]. *)
Fixpoint run_I (query : str) (n : nat) (st : state) : res state :=
  match n with
  | O => Ok st
  | S n' =>
      if q_curr st >=? len query then Ok st
      else
        let* qc := getitem query (q_curr st) in
        run_I query n' (emit qc "-" 0 st)
  end.

(** [insertions[col] += sequence[s_curr].lower()] *)
Definition add_insertion (sequence : str) (st : state) : res (list str) :=
  let* old := getitem (insertions st) (col st) in
  let* sc := getitem sequence (s_curr st) in
  setitem (insertions st) (col st) (old ++ [lower sc]).

Definition with_insertions (ins : list str) (ds : Z) (st : state) : state :=
  {| alignment_q := alignment_q st;
     alignment_s := alignment_s st;
     insertions := ins;
     s_curr := s_curr st + ds;
     q_curr := q_curr st;
     col := col st |}.

(** [for _ in range(index)] under operator [D]. *)
Fixpoint run_D (sequence : str) (n : nat) (st : state) : res state :=
  match n with
  | O => Ok st
  | S n' =>
      if s_curr st >=? len sequence then Ok st
      else
        let* ins :=
          (if col st >=? 0 then add_insertion sequence st
           else Ok (insertions st)) in
        run_D sequence n' (with_insertions ins 1 st)
  end.

Definition invalid_cigar (char : ascii) : exn :=
  ValueError (s "Invalid CIGAR character: " ++ [char]).

(** The body of [for char in cigar_string], on the pair [(index, locals)]. *)
Definition step (sequence query : str) (char : ascii) (acc : Z * state)
  : res (Z * state) :=
  let '(index, st) := acc in
  if isdigit char then
    let* d := int_of_char char in Ok (index * 10 + d, st)
  else if Ascii.eqb char "M" then
    let* st' := run_M sequence query (Z.to_nat index) st in Ok (0, st')
  else if Ascii.eqb char "I" then
    let* st' := run_I query (Z.to_nat index) st in Ok (0, st')
  else if Ascii.eqb char "D" then
    let* st' := run_D sequence (Z.to_nat index) st in Ok (0, st')
  else Raise (invalid_cigar char).

Fixpoint scan (sequence query cigar_string : str) (acc : Z * state)
  : res (Z * state) :=
  match cigar_string with
  | [] => Ok acc
  | char :: rest =>
      let* acc' := step sequence query char acc in
      scan sequence query rest acc'
  end.

(** [while q_curr < len(query)], with an iteration budget. *)
Fixpoint drain (fuel : nat) (query : str) (st : state) : res state :=
  if q_curr st <? len query then
    match fuel with
    | O => Raise Diverged
    | S fuel' =>
        let* qc := getitem query (q_curr st) in
        drain fuel' query (emit qc "-" 0 st)
    end
  else Ok st.

Definition cigar_to_alignment_fold (cigar_string sequence query : str)
  : res (str * str * list str) :=
  let* acc := scan sequence query cigar_string (0, init) in
  let* st := drain (length query) query (snd acc) in
  Ok (alignment_q st, alignment_s st, insertions st).

(** ** Closed forms of the three operator runs

    A run of [k] effective repeats, written with Python slices. *)

Definition after_M (sequence query : str) (k : Z) (st : state) : state :=
  {| alignment_q := alignment_q st ++ slice query (q_curr st) (q_curr st + k);
     alignment_s :=
       alignment_s st ++ slice sequence (s_curr st) (s_curr st + k);
     insertions := insertions st ++ times [] k;
     s_curr := s_curr st + k;
     q_curr := q_curr st + k;
     col := col st + k |}.

Definition after_I (query : str) (k : Z) (st : state) : state :=
  {| alignment_q := alignment_q st ++ slice query (q_curr st) (q_curr st + k);
     alignment_s := alignment_s st ++ times "-"%char k;
     insertions := insertions st ++ times [] k;
     s_curr := s_curr st;
     q_curr := q_curr st + k;
     col := col st + k |}.

Definition after_D (sequence : str) (k : Z) (st : state) : state :=
  {| alignment_q := alignment_q st;
     alignment_s := alignment_s st;
     insertions :=
       if col st >=? 0 then
         alter (fun old =>
                  old ++ map lower (slice sequence (s_curr st) (s_curr st + k)))
               (Z.to_nat (col st)) (insertions st)
       else insertions st;
     s_curr := s_curr st + k;
     q_curr := q_curr st;
     col := col st |}.

(** The loop invariant of the scan: positions stay inside their slices, one
    column per consumed query character, [col] names the last column. *)
Record consistent (sequence query : str) (st : state) : Prop := {
  q_range : 0 <= q_curr st <= len query;
  s_range : 0 <= s_curr st <= len sequence;
  q_cols : alignment_q st = slice_to query (q_curr st);
  s_cols : len (alignment_s st) = q_curr st;
  ins_cols : len (insertions st) = q_curr st;
  col_last : col st = q_curr st - 1
}.

(** The characters of a well-formed CIGAR string. *)
Definition cigar_char (c : ascii) : bool :=
  is_ascii_digit c || Ascii.eqb c "M" || Ascii.eqb c "I" || Ascii.eqb c "D".

Definition valid_cigar (cigar_string : str) : Prop :=
  forallb cigar_char cigar_string = true.

(** ** [hits_to_a3m] and the conversion loop *)

(** One hit: the whitespace-separated fields of a line of the hits file
    after the query id, as [hits_per_query] stores them:
    [[seq; cigar; q_start; s_start; header; ...]]. *)
Abbreviation hit := (list str).

(** One element of [target_alignments]. *)
Abbreviation target := (str * list str * str)%type.

(** The body of [for l in all_hits], up to the tuple appended to
    [target_alignments].  [q_seq] is already stripped. *)
Definition align_hit (q_seq : str) (l : hit) : res target :=
  let* hit_seq := getitem l 0 in
  let* cigar := getitem l 1 in
  let* f2 := getitem l 2 in
  let* i2 := int f2 in
  let q_start := i2 - 1 in
  let* f3 := getitem l 3 in
  let* i3 := int f3 in
  let s_start := i3 - 1 in
  let* header := getitem l 4 in
  let q_prefix := slice_to q_seq q_start in
  let q_aln := slice_from q_seq q_start in
  let s_prefix := times "-"%char (len q_prefix) in
  let s_sub := slice_from hit_seq s_start in
  let* decoded := cigar_to_alignment_fold cigar s_sub q_aln in
  let '(_, s_aln, insertions) := decoded in
  let s_full := s_prefix ++ s_aln in
  let ins_full := times [] (len q_prefix) ++ insertions in
  if len s_full <? len q_seq then
    Ok (s_full ++ times "-"%char (len q_seq - len s_full),
        ins_full ++ times [] (len q_seq - len ins_full), header)
  else if len s_full >? len q_seq then
    Ok (slice_to s_full (len q_seq), slice_to ins_full (len q_seq), header)
  else Ok (s_full, ins_full, header).

Fixpoint align_hits (q_seq : str) (all_hits : list hit) : res (list target) :=
  match all_hits with
  | [] => Ok []
  | l :: rest =>
      let* t := align_hit q_seq l in
      let* ts := align_hits q_seq rest in
      Ok (t :: ts)
  end.

(** [pieces] of one hit row: each column character, followed by its
    insertion string when that is not empty. *)
Definition pieces (s_full : str) (ins_full : list str) : list str :=
  flat_map (fun '(ch, ins) =>
              match ins with
              | [] => [[ch]]
              | _ => [[ch]; ins]
              end)
           (zip s_full ins_full).

Definition row (t : target) : str :=
  let '(s_full, ins_full, _) := t in concat (pieces s_full ins_full).

Definition nl : str := ["010"%char].

(** The arguments of the successive [f.write] calls. *)
Definition a3m_writes (q_seq outfname : str) (targets : list target)
  : list str :=
  (s ">" ++ outfname ++ nl) :: (q_seq ++ nl)
  :: flat_map (fun t => [s ">" ++ snd t ++ nl; row t ++ nl]) targets.

(** A file as the script leaves it: its name inside [out_dir] and what was
    written to it. *)
Record file : Type := mkFile {
  file_name : str;
  writes : list str
}.

Definition content (f : file) : str := concat (writes f).

(** [hits_to_a3m]: every hit is decoded before the directory is made and
    the file is opened; the writes follow.  [fs] answers for
    [out_dir.mkdir(parents=True, exist_ok=True)] followed by
    [out_path.open("w")], by the name of the file inside [out_dir]. *)
Definition hits_to_a3m (fs : file_system) (q_seq : str) (all_hits : list hit)
    (outfname : str) : res file :=
  let q_seq := strip q_seq in
  let* target_alignments := align_hits q_seq all_hits in
  let out_path := outfname ++ s ".a3m" in
  match fs out_path with
  | Some e => Raise e
  | None =>
      Ok {| file_name := out_path;
            writes := a3m_writes q_seq outfname target_alignments |}
  end.

(** The loop of the main block over [dict_hits_per_query.items()], in
    insertion order.  The result is the directory contents (file name to
    writes) and the exception that ended the run, if any. *)
Fixpoint conversion_loop (fs : file_system) (queries_seq : gmap str str)
    (items : list (str * list hit)) (out_dir : gmap str (list str))
  : gmap str (list str) * option exn :=
  match items with
  | [] => (out_dir, None)
  | (query, all_hits) :: rest =>
      match queries_seq !! query with
      | None => conversion_loop fs queries_seq rest out_dir
      | Some q_seq =>
          match hits_to_a3m fs q_seq all_hits query with
          | Ok f =>
              conversion_loop fs queries_seq rest
                (<[file_name f := writes f]> out_dir)
          | Raise e => (out_dir, Some e)
          end
      end
  end.

(** Removing the insertion strings from a written row, column by column:
    the inverse of [pieces] for a known list of insertions. *)
Fixpoint columns_of (ins_full : list str) (written : str) : str :=
  match ins_full, written with
  | ins :: ins_rest, ch :: after =>
      ch :: columns_of ins_rest (drop (length ins) after)
  | _, _ => []
  end.

(** A hit as the data model has it: at least five fields, decimal offsets,
    a CIGAR string of digits and M/I/D. *)
Definition well_formed_hit (l : hit) : Prop :=
  exists hit_seq cigar f2 f3 header more i2 i3,
    l = hit_seq :: cigar :: f2 :: f3 :: header :: more
    /\ valid_cigar cigar /\ int f2 = Ok i2 /\ int f3 = Ok i3.

(** What [align_hit] makes of a well-formed hit: the gap prefix for the
    query positions before [q_start], then the decoded subject row. *)
Definition hit_row (q_seq : str) (l : hit) (t : target) : Prop :=
  exists hit_seq cigar f2 f3 header more i2 i3 alignment_q s_aln ins,
    l = hit_seq :: cigar :: f2 :: f3 :: header :: more
    /\ int f2 = Ok i2 /\ int f3 = Ok i3
    /\ cigar_to_alignment_fold cigar (slice_from hit_seq (i3 - 1))
         (slice_from q_seq (i2 - 1))
       = Ok (alignment_q, s_aln, ins)
    /\ t = (times "-"%char (len (slice_to q_seq (i2 - 1))) ++ s_aln,
            times [] (len (slice_to q_seq (i2 - 1))) ++ ins, header).

(** Where the characters of a decoded row come from: a column character
    is a gap or a character of the subject, an insertion character is a
    lower-cased character of the subject. *)
Definition from_subject (sequence columns : str) (ins : list str) : Prop :=
  Forall (fun c => c = "-"%char \/ c ∈ sequence) columns
  /\ Forall (Forall (fun c => exists x, x ∈ sequence /\ c = lower x)) ins.

(** The subject sequence of a hit, its first field. *)
Definition subject_of (l : hit) : str := default [] (head l).

(** ** A small batch used in the examples *)

(** The file system of the examples: an output directory without
    subdirectories.  A name with a [/] in it is answered with
    [FileNotFoundError]; any other name is opened. *)
Definition flat_directory : file_system :=
  fun out_path =>
    if existsb (Ascii.eqb "/") out_path then Some (OSError out_path)
    else None.

Definition example_queries : gmap str str :=
  <[s "q1" := s "FGHIJ"]> (<[s "q2" := s "FGHIJ"]> ∅).

Definition good_hit (header : string) : hit :=
  [s "ABCDE"; s "3M2D2I"; s "1"; s "1"; s header].

Definition bad_hit (header : string) : hit :=
  [s "ABCDE"; s "3X2I"; s "1"; s "1"; s header].

Definition example_batch : list (str * list hit) :=
  [(s "q1", [bad_hit "h1"]); (s "q2", [good_hit "h2"])].

(** A hit whose subject is in lower case, a hit whose subject has a
    character that is not a letter, and a hit with three fields. *)
Definition lower_case_hit : hit := [s "abc"; s "3M"; s "1"; s "1"; s "h"].

Definition starred_hit : hit := [s "AB*C"; s "2M1D1M"; s "1"; s "1"; s "h"].

Definition short_hit : hit := [s "ABC"; s "3M"; s "1"].

(** ** [hits_per_query] *)

(** The dictionary [d], in insertion order. *)
Abbreviation hits_dict := (list (str * list hit)).

(** [if key not in d: d[key] = []] followed by [d[key].append(v)]. *)
Fixpoint dict_append (key : str) (v : hit) (d : hits_dict) : hits_dict :=
  match d with
  | [] => [(key, [v])]
  | (k, vs) :: rest =>
      if decide (key = k) then (k, vs ++ [v]) :: rest
      else (k, vs) :: dict_append key v rest
  end.

(** [d[key]] as an option. *)
Fixpoint dict_get (key : str) (d : hits_dict) : option (list hit) :=
  match d with
  | [] => None
  | (k, vs) :: rest => if decide (key = k) then Some vs else dict_get key rest
  end.

(** The grouping loop over the split lines. *)
Fixpoint group_lines (tokens : list (list str)) (d : hits_dict)
  : res hits_dict :=
  match tokens with
  | [] => Ok d
  | l :: rest =>
      let* key := getitem l 0 in
      group_lines rest (dict_append key (slice_from l 1) d)
  end.

(** [hits_per_query] on the lines [readlines] returned. *)
Definition hits_per_query (lines : list str) : res hits_dict :=
  group_lines (map split lines) [].

(** The main block after the FASTA has been read: group the hits, then
    convert query by query. *)
Definition convert (fs : file_system) (queries_seq : gmap str str)
    (lines : list str) (out_dir : gmap str (list str))
  : gmap str (list str) * option exn :=
  match hits_per_query lines with
  | Ok d => conversion_loop fs queries_seq d out_dir
  | Raise e => (out_dir, Some e)
  end.

(** The hits of query [key] among the split lines, in file order. *)
Definition hits_of (key : str) (tokens : list (list str)) : list hit :=
  map (drop 1) (filter (fun l => head l = Some key) tokens).

(** The residues of a decoded row read left to right, each column
    character that is not a gap followed by the insertion of its column,
    all in lower case. *)
Definition residues_of_row (s_aln : str) (ins : list str) : str :=
  concat (zip_with
            (fun c i => (if Ascii.eqb c "-" then [] else [lower c]) ++ i)
            s_aln ins).

(** The residues read so far are the subject from [d0] to [s_curr], where
    [d0] counts the subject characters dropped before the first column. *)
Definition traced (sequence : str) (st : state) : Prop :=
  exists d0,
    0 <= d0 <= s_curr st
    /\ (q_curr st = 0 -> d0 = s_curr st)
    /\ residues_of_row (alignment_s st) (insertions st)
       = map lower (slice sequence d0 (s_curr st)).

(** The dictionary holds, for each key, the hits of that key among the
    lines read so far. *)
Definition grouped (tokens : list (list str)) (d : hits_dict) : Prop :=
  NoDup d.*1
  /\ forall key,
      dict_get key d
      = match hits_of key tokens with [] => None | hs => Some hs end.

End Dia2a3m.

(* ===================================================================== *)
(** * scripts/star_alighnment_DIAMOND.py                                   *)
(* ===================================================================== *)

Module Star.

(** The local variables of this script's [cigar_to_alignment_fold]. *)
Record state : Type := mkState {
  alignment_s : str;
  alignment_q : str;
  index : Z;
  s_curr : Z;
  q_curr : Z
}.

Definition init : state :=
  {| alignment_s := []; alignment_q := []; index := 0;
     s_curr := 0; q_curr := 0 |}.

Definition invalid_cigar (char : ascii) : exn :=
  ValueError (s "Invalid character in CIGAR string: " ++ [char]).

(** The body of [for char in cigar_string]: whole runs are taken by slices. *)
Definition step (sequence query : str) (char : ascii) (st : state)
  : res state :=
  if isdigit char then
    let* d := int_of_char char in
    Ok {| alignment_s := alignment_s st; alignment_q := alignment_q st;
          index := index st * 10 + d;
          s_curr := s_curr st; q_curr := q_curr st |}
  else if Ascii.eqb char "M" then
    Ok {| alignment_s :=
            alignment_s st
            ++ slice sequence (s_curr st) (s_curr st + index st);
          alignment_q :=
            alignment_q st ++ slice query (q_curr st) (q_curr st + index st);
          index := 0;
          s_curr := s_curr st + index st;
          q_curr := q_curr st + index st |}
  else if Ascii.eqb char "D" then
    Ok {| alignment_s := alignment_s st; alignment_q := alignment_q st;
          index := 0;
          s_curr := s_curr st + index st;
          q_curr := q_curr st |}
  else if Ascii.eqb char "I" then
    Ok {| alignment_s := alignment_s st ++ times "-"%char (index st);
          alignment_q :=
            alignment_q st ++ slice query (q_curr st) (q_curr st + index st);
          index := 0;
          s_curr := s_curr st;
          q_curr := q_curr st + index st |}
  else Raise (invalid_cigar char).

Fixpoint scan (sequence query cigar_string : str) (st : state) : res state :=
  match cigar_string with
  | [] => Ok st
  | char :: rest =>
      let* st' := step sequence query char st in
      scan sequence query rest st'
  end.

Definition cigar_to_alignment_fold (cigar_string sequence query : str)
  : res (str * str) :=
  let* st := scan sequence query cigar_string init in
  let alignment_q :=
    if q_curr st <? len query
    then alignment_q st ++ slice_from query (q_curr st)
    else alignment_q st in
  let alignment_s :=
    if len (alignment_s st) <? len alignment_q
    then alignment_s st
         ++ times "-"%char (len alignment_q - len (alignment_s st))
    else alignment_s st in
  Ok (alignment_q, alignment_s).

(** What a CIGAR string asks of the two slices: the characters it would
    consume from the query (M and I runs) and from the subject (M and D
    runs), read with the same digit accumulation as the decoders. *)
Fixpoint demand (cigar_string : str) (index q_need s_need : Z) : Z * Z :=
  match cigar_string with
  | [] => (q_need, s_need)
  | char :: rest =>
      if is_ascii_digit char then
        demand rest (index * 10 + (ord char - 48)) q_need s_need
      else if Ascii.eqb char "M" then
        demand rest 0 (q_need + index) (s_need + index)
      else if Ascii.eqb char "I" then
        demand rest 0 (q_need + index) s_need
      else if Ascii.eqb char "D" then
        demand rest 0 q_need (s_need + index)
      else demand rest 0 q_need s_need
  end.

(** No run overruns either slice. *)
Definition fits (cigar_string sequence query : str) : Prop :=
  fst (demand cigar_string 0 0 0) <= len query
  /\ snd (demand cigar_string 0 0 0) <= len sequence.

(** The locals the two decoders share hold the same values. *)
Record sim (index : Z) (d : Dia2a3m.state) (t : Star.state) : Prop := {
  sim_index : Star.index t = index;
  sim_q : Star.alignment_q t = Dia2a3m.alignment_q d;
  sim_s : Star.alignment_s t = Dia2a3m.alignment_s d;
  sim_q_curr : Star.q_curr t = Dia2a3m.q_curr d;
  sim_s_curr : Star.s_curr t = Dia2a3m.s_curr d
}.

(** ** [match_to_msa_fold] *)

(** The body of [for l in Lines] up to the two rows it makes: the query
    row, which is kept for the first hit only, and the subject row. *)
Definition rows_of_hit (q_main : str) (l : list str) : res (str * str) :=
  let* subject := getitem l 0 in
  let* f2 := getitem l 2 in
  let* i2 := int f2 in
  let i := i2 - 1 in
  let q_tmp := slice q_main 0 i in
  let s_tmp := times "-"%char (len q_tmp) in
  let q := slice_from q_main i in
  let* last := getitem q (-1) in
  let q := if Ascii.eqb last "010" then slice_to q (-1) else q in
  let* f3 := getitem l 3 in
  let* i3 := int f3 in
  let subject := slice_from subject (i3 - 1) in
  let* cigar := getitem l 1 in
  let* ab := cigar_to_alignment_fold cigar subject q in
  Ok (q_tmp ++ fst ab, s_tmp ++ snd ab).

(** The list [alignments]; [first] is the flag [f]. *)
Fixpoint alignments_of (q_main : str) (Lines : list (list str))
    (first : bool) : res (list str) :=
  match Lines with
  | [] => Ok []
  | l :: rest =>
      let* rows := rows_of_hit q_main l in
      let* more := alignments_of q_main rest false in
      Ok ((if first then [fst rows] else []) ++ snd rows :: more)
  end.

(** [if m[-1] != "\n": m += "\n"] *)
Definition with_newline (m : str) : res str :=
  let* last := getitem m (-1) in
  Ok (if Ascii.eqb last "010" then m else m ++ ["010"%char]).

(** The writing loop; [i] is the counter that starts at -1.  The result is
    what was written and the exception that stopped the loop, if any. *)
Fixpoint write_alignments (Lines : list (list str)) (outfname : str)
    (alignments : list str) (i : Z) : list str * option exn :=
  match alignments with
  | [] => ([], None)
  | m :: rest =>
      match with_newline m with
      | Raise e => ([], Some e)
      | Ok m =>
          match
            (if i =? -1 then Ok outfname
             else let* l := getitem Lines i in getitem l 4)
          with
          | Raise e => ([], Some e)
          | Ok name =>
              let '(written, e) :=
                write_alignments Lines outfname rest (i + 1) in
              ((s ">" ++ name ++ ["010"%char] ++ m) :: written, e)
          end
      end
  end.

(** [match_to_msa_fold]: [Raise] when an exception came before the file
    was opened or when [open] raised, otherwise the writes and the
    exception that ended them. *)
Definition match_to_msa_fold (fs : file_system) (q_main : str)
    (Lines : list (list str)) (outfname : str)
  : res (list str * option exn) :=
  let* alignments := alignments_of q_main Lines true in
  match fs (s "./dout_All/" ++ outfname ++ s ".a3m") with
  | Some e => Raise e
  | None => Ok (write_alignments Lines outfname alignments (-1))
  end.


End Star.

(* ===================================================================== *)
(** * scripts/PDB file prep/clean.py                                       *)
(* ===================================================================== *)

Module Clean.

Definition COVERAGE_CUTOFF : Q := 0.8%Q.
Definition MAX_INTERNAL_GAP : Z := 15.

(** A residue of the structure library, by its [id] triple; its atoms are
    never inspected.  Residue ids are unique within a chain and chain ids
    within a model, so [detach_child] on an id removes exactly the entity
    the loop is looking at. *)
Record residue : Type := mkResidue {
  het_flag : str;
  resseq : Z;
  icode : str
}.

Record chain : Type := mkChain {
  chain_id : str;
  residues : list residue
}.

Abbreviation model := (list chain).
Abbreviation structure := (list model).

(** A value of the mmCIF dictionary: a string for a single row, a list
    otherwise. *)
Inductive cif_value : Type :=
| Scalar (x : str)
| Items (l : list str).

Abbreviation cif_dict := (gmap string cif_value).
Abbreviation auth_map_t := (gmap (Z * str) (gset Z)).

Definition _to_list (x : cif_value) : list str :=
  match x with
  | Items l => l
  | Scalar x => [x]
  end.

(** The body of the loop over the zipped rows of [_pdbx_poly_seq_scheme]. *)
Definition scheme_row (chain_id : str)
    (acc : auth_map_t * gset Z) (row : str * (str * (str * str)))
  : auth_map_t * gset Z :=
  let '(auth_map, seq_id_set) := acc in
  let '(s_id, (st_id, (a_num, ins_code))) := row in
  if decide (strip st_id = chain_id) then
    match int s_id with
    | Raise _ => acc
    | Ok seq_id =>
        let seq_id_set := {[seq_id]} ∪ seq_id_set in
        match int a_num with
        | Raise _ => (auth_map, seq_id_set)
        | Ok auth_num =>
            let icode :=
              if decide (ins_code = s "." \/ ins_code = s "?") then []
              else strip ins_code in
            let key := (auth_num, icode) in
            (<[key := {[seq_id]} ∪ default ∅ (auth_map !! key)]> auth_map,
             seq_id_set)
        end
    end
  else acc.

Definition get_poly_seq_scheme (d : cif_dict) (chain_id : str)
  : option (list Z * auth_map_t) :=
  match d !! "_pdbx_poly_seq_scheme.seq_id"%string with
  | None => None
  | Some v1 =>
      let seq_ids_raw := _to_list v1 in
      match d !! "_pdbx_poly_seq_scheme.pdb_strand_id"%string with
      | None => None
      | Some v2 =>
          let strand_ids := _to_list v2 in
          let unknown := Items (replicate (length seq_ids_raw) (s "?")) in
          let auth_nums_raw :=
            _to_list (default unknown
                        (d !! "_pdbx_poly_seq_scheme.auth_seq_num"%string)) in
          let ins_codes_raw :=
            _to_list (default unknown
                        (d !! "_pdbx_poly_seq_scheme.pdb_ins_code"%string)) in
          let '(auth_map, seq_id_set) :=
            fold_left (scheme_row chain_id)
              (zip seq_ids_raw
                 (zip strand_ids (zip auth_nums_raw ins_codes_raw)))
              (∅, ∅) in
          if decide (seq_id_set = ∅) then None
          else Some (sorted seq_id_set, auth_map)
      end
  end.

(** [(resseq, icode_str)] of a residue. *)
Definition key_of (r : residue) : Z * str :=
  (resseq r, if decide (icode r = s " ") then [] else icode r).

(** The set [observed_seq_ids] after the loop over the residues. *)
Definition observed_seq_ids (ch : chain) (auth_map : auth_map_t) : gset Z :=
  fold_left (fun obs r =>
               match auth_map !! key_of r with
               | Some ids => obs ∪ ids
               | None => obs
               end)
            (residues ch) ∅.

(** The loop [for pos in obs_sorted[1:]]. *)
Fixpoint gap_loop (prev : Z) (rest : list Z) (max_gap : Z) : Z :=
  match rest with
  | [] => max_gap
  | pos :: rest' =>
      let gap := pos - prev - 1 in
      gap_loop pos rest' (if gap >? max_gap then gap else max_gap)
  end.

Definition compute_coverage_and_gap (ch : chain) (seq_ids : list Z)
    (auth_map : auth_map_t) : Q * Z :=
  match seq_ids with
  | [] => (0%Q, 0)
  | _ =>
      let obs := observed_seq_ids ch auth_map in
      if decide (obs = ∅) then (0%Q, 0)
      else
        let coverage := truediv (Z.of_nat (size obs)) (len seq_ids) in
        let obs_sorted := sorted obs in
        if len obs_sorted <? 2 then (coverage, 0)
        else
          match obs_sorted with
          | prev :: rest => (coverage, gap_loop prev rest 0)
          | [] => (coverage, 0)
          end
  end.

Definition fallback_coverage_gap (ch : chain) : Q * Z :=
  let resseqs := map resseq (residues ch) in
  match resseqs with
  | [] => (0%Q, 0)
  | _ =>
      let resseqs_sorted := sorted (list_to_set resseqs) in
      match resseqs_sorted with
      | [] => (0%Q, 0)
      | min_r :: rest =>
          let max_r := List.last resseqs_sorted min_r in
          let length_est := max_r - min_r + 1 in
          let coverage :=
            if length_est >? 0 then truediv (len resseqs_sorted) length_est
            else 0%Q in
          (coverage, gap_loop min_r rest 0)
      end
  end.

(** [clean_chain_using_polymer_mapping]: residues whose key is not in
    [auth_map] are detached. *)
Definition clean_chain_using_polymer_mapping (ch : chain)
    (auth_map : auth_map_t) : chain :=
  {| chain_id := chain_id ch;
     residues :=
       filter (fun r => is_Some (auth_map !! key_of r)) (residues ch) |}.

(** The fall-back cleaning of [process_cif_file]: residues with a non-blank
    hetero flag are detached. *)
Definition drop_het_residues (ch : chain) : chain :=
  {| chain_id := chain_id ch;
     residues := filter (fun r => strip (het_flag r) = []) (residues ch) |}.

Inductive method : Type := Main | Fallback.

(** The line [process_cif_file] logs, by its fields; the rendering of the
    numbers into text is left out. *)
Inductive log_line : Type :=
| REJECT_parse_error (e : str)
| REJECT_no_model_0
| REJECT_no_chains_found
| REJECT_low_coverage (coverage : Q) (m : method)
| REJECT_big_internal_gap (max_gap : Z) (m : method)
| ACCEPT (chain_id : str) (coverage : Q) (max_gap : Z) (m : method).

Definition is_reject (l : log_line) : bool :=
  match l with
  | ACCEPT _ _ _ _ => false
  | _ => true
  end.

(** Step 1 of [process_cif_file]: the mapping, the method and the scores. *)
Definition scores (d : option cif_dict) (ch : chain)
  : option auth_map_t * method * (Q * Z) :=
  match
    match d with
    | Some d => get_poly_seq_scheme d (chain_id ch)
    | None => None
    end
  with
  | None => (None, Fallback, fallback_coverage_gap ch)
  | Some (seq_ids, auth_map) =>
      (Some auth_map, Main, compute_coverage_and_gap ch seq_ids auth_map)
  end.

(** Step 2: with [ch] the first chain of the model and [rest] the others,
    every chain whose id differs from the chosen one is detached, then the
    chosen chain is stripped. *)
Definition clean_model (ch : chain) (rest : list chain)
    (auth_map : option auth_map_t) : model :=
  match auth_map with
  | Some auth_map => clean_chain_using_polymer_mapping ch auth_map
  | None => drop_het_residues ch
  end
  :: filter (fun other => chain_id other = chain_id ch) rest.

(** [process_cif_file] on the outcome of the two parsers: [parsed] is the
    structure or the text of the exception, [d] the dictionary or [None]
    when [MMCIF2Dict] failed.  The result is the logged line and the
    structure saved under [out_dir], if any. *)
Definition process_cif_file (parsed : str + structure) (d : option cif_dict)
  : log_line * option structure :=
  match parsed with
  | inl e => (REJECT_parse_error e, None)
  | inr [] => (REJECT_no_model_0, None)
  | inr (m :: models) =>
      match m with
      | [] => (REJECT_no_chains_found, None)
      | ch :: rest =>
          let '(auth_map, meth, (coverage, max_gap)) := scores d ch in
          if Qlt_bool coverage COVERAGE_CUTOFF then
            (REJECT_low_coverage coverage meth, None)
          else if max_gap >? MAX_INTERNAL_GAP then
            (REJECT_big_internal_gap max_gap meth, None)
          else
            (ACCEPT (chain_id ch) coverage max_gap meth,
             Some (clean_model ch rest auth_map :: models))
      end
  end.

(** ** The specification of the two scores, in the words of the design *)

(** [n] consecutive integers from [lo], all missing from [obs], lying
    strictly between two observed positions. *)
Definition missing_run (obs : gset Z) (lo n : Z) : Prop :=
  0 < n
  /\ (forall x, lo <= x < lo + n -> x ∉ obs)
  /\ (exists a b, a ∈ obs /\ b ∈ obs /\ a < lo /\ lo + n <= b).

(** [g] is the length of the longest such run, 0 when there is none. *)
Definition max_internal_gap (obs : gset Z) (g : Z) : Prop :=
  0 <= g
  /\ (0 < g -> exists lo, missing_run obs lo g)
  /\ (forall lo n, missing_run obs lo n -> n <= g).

(** [a] and [b] are neighbours in [l]. *)
Definition adjacent (l : list Z) (a b : Z) : Prop :=
  exists l1 l2, l = l1 ++ a :: b :: l2.

(** ** The example of the design: ten declared positions, seven observed *)

Definition example_auth_map : auth_map_t :=
  list_to_map (map (fun i => ((i, []), {[i]})) (seqZ 1 10)).

Definition example_chain : chain :=
  {| chain_id := s "A";
     residues :=
       map (fun i => {| het_flag := s " "; resseq := i; icode := s " " |})
         [1; 2; 3; 7; 8; 9; 10] |}.

(** ** An entry on both thresholds: 75 declared positions, 60 observed,
    one internal gap of 15, a water and a second chain *)

Definition decimal (z : Z) : str :=
  s (NilZero.string_of_int (Z.to_int z)).

Definition boundary_dict : cif_dict :=
  <["_pdbx_poly_seq_scheme.seq_id"%string := Items (map decimal (seqZ 1 75))]>
  (<["_pdbx_poly_seq_scheme.pdb_strand_id"%string :=
       Items (replicate 75 (s "A"))]>
  (<["_pdbx_poly_seq_scheme.auth_seq_num"%string :=
       Items (map decimal (seqZ 1 75))]> ∅)).

Definition polymer_residue (i : Z) : residue :=
  {| het_flag := s " "; resseq := i; icode := s " " |}.

Definition water : residue :=
  {| het_flag := s "W"; resseq := 201; icode := s " " |}.

Definition boundary_chain : chain :=
  {| chain_id := s "A";
     residues := map polymer_residue (seqZ 1 30 ++ seqZ 46 30) ++ [water] |}.

Definition second_chain : chain :=
  {| chain_id := s "B"; residues := [polymer_residue 1] |}.

End Clean.

(* ===================================================================== *)
(** * scripts/a3m_quality.py                                               *)
(* ===================================================================== *)

Module A3mQuality.

(** [GAP_CHARS], with [INCLUDE_DOT_AS_GAP] set. *)
Definition is_gap (c : ascii) : bool := Ascii.eqb c "-" || Ascii.eqb c ".".

(** A float of the entropy computations: a real number, or [None] for
    NaN. *)
Abbreviation float := (option R).

Definition log2 (x : R) : R := (ln x / ln 2)%R.

(** [Counter(residues)]: the counts, in order of first occurrence. *)
Fixpoint bump (x : ascii) (counts : list (ascii * Z)) : list (ascii * Z) :=
  match counts with
  | [] => [(x, 1)]
  | (y, v) :: rest =>
      if Ascii.eqb x y then (y, v + 1) :: rest else (y, v) :: bump x rest
  end.

Definition Counter (residues : list ascii) : list (ascii * Z) :=
  fold_left (fun counts x => bump x counts) residues [].

Definition sum_values (counts : list (ascii * Z)) : Z :=
  fold_left Z.add (map snd counts) 0.

Definition col_entropy (col : list ascii) : float :=
  let residues := List.filter (fun c => negb (is_gap c)) col in
  match residues with
  | [] => None
  | _ =>
      let counts := Counter residues in
      let n := sum_values counts in
      Some (fold_left
              (fun ent v => let p := (IZR v / IZR n)%R in
                            (ent - p * log2 p)%R)
              (map snd counts) 0%R)
  end.

(** [[msa[r][i] for r in range(N)]] *)
Fixpoint column (msa : list str) (i : Z) : res (list ascii) :=
  match msa with
  | [] => Ok []
  | row :: rows =>
      let* c := getitem row i in
      let* cs := column rows i in
      Ok (c :: cs)
  end.

(** The loop [for i in range(L)] of [mean_entropy], returning [ents]. *)
Fixpoint entropies (msa : list str) (indices : list Z) : res (list R) :=
  match indices with
  | [] => Ok []
  | i :: rest =>
      let* col := column msa i in
      let e := col_entropy col in
      let* ents := entropies msa rest in
      Ok (match e with
          | Some x => x :: ents
          | None => ents
          end)
  end.

(** [sum(ents) / len(ents) if ents else nan] *)
Definition mean (ents : list R) : float :=
  match ents with
  | [] => None
  | _ => Some (fold_left Rplus ents 0 / INR (length ents))%R
  end.

Definition mean_entropy (msa : list str) : res float :=
  match msa with
  | [] => Ok None
  | row0 :: _ =>
      let* ents := entropies msa (seqZ 0 (len row0)) in
      Ok (mean ents)
  end.

(** The loop of [pairwise_identity_gapmasked] on [(matches, comps)]. *)
Definition count_pair (acc : Z * Z) (xy : ascii * ascii) : Z * Z :=
  let '(matches, comps) := acc in
  let '(x, y) := xy in
  if is_gap x || is_gap y then acc
  else (if Ascii.eqb x y then matches + 1 else matches, comps + 1).

Definition pairwise_identity_gapmasked (a b : str) : Q :=
  let '(matches, comps) := fold_left count_pair (zip a b) (0, 0) in
  if comps =? 0 then 0%Q else truediv matches comps.

(** The inner loop of [greedy_nr_count]: [s] is redundant when its identity
    to some kept sequence reaches the threshold. *)
Definition redundant (thresh : Q) (kept : list str) (x : str) : bool :=
  existsb (fun k => Qle_bool thresh (pairwise_identity_gapmasked x k)) kept.

Definition keep_step (thresh : Q) (kept : list str) (x : str) : list str :=
  if redundant thresh kept x then kept else kept ++ [x].

Definition greedy_nr_count (msa : list str) (thresh : Q) : Z :=
  len (fold_left (keep_step thresh) msa []).

(** A column that holds gap characters only. *)
Definition all_gaps (col : list ascii) : Prop :=
  Forall (fun c => is_gap c = true) col.

(** The columns [mean_entropy] builds, one per index. *)
Fixpoint columns (msa : list str) (indices : list Z)
  : res (list (list ascii)) :=
  match indices with
  | [] => Ok []
  | i :: rest =>
      let* col := column msa i in
      let* cols := columns msa rest in
      Ok (col :: cols)
  end.

(** Every pair of sequences, the earlier one first, scores below the
    threshold. *)
Definition pairwise_below (thresh : Q) (msa : list str) : Prop :=
  forall (i j : nat) (a b : str),
    (i < j)%nat -> msa !! i = Some a -> msa !! j = Some b ->
    (pairwise_identity_gapmasked a b < thresh)%Q.

(** ** Insertions and the mean identity to the query *)

(** [strip_a3m_insertions]: the characters that are not lower case. *)
Definition strip_a3m_insertions (seq : str) : str :=
  List.filter (fun ch => negb (islower ch)) seq.

(** The number [comps] of columns where neither sequence has a gap. *)
Definition comparable (q x : str) : Z :=
  len (List.filter (fun xy => negb (is_gap (fst xy)) && negb (is_gap (snd xy)))
         (zip q x)).

(** [avg_identity_to_query]; [None] is NaN. *)
Definition avg_identity_to_query (msa : list str) : option Q :=
  match msa with
  | q :: x :: rest =>
      let vals :=
        omap (fun x => if comparable q x =? 0 then None
                       else Some (pairwise_identity_gapmasked q x))
             (x :: rest) in
      match vals with
      | [] => None
      | _ => Some (Qdiv (fold_left Qplus vals 0%Q) (inject_Z (len vals)))
      end
  | _ => None
  end.

End A3mQuality.
(* ===================================================================== *)
(** * Facts about the built-ins                                            *)
(* ===================================================================== *)

Module PyFacts.

Lemma len_nonneg {A} (l : list A) : 0 <= len l.
Proof. unfold len. lia. Qed.

Lemma len_app {A} (l k : list A) : len (l ++ k) = len l + len k.
Proof. unfold len. rewrite length_app. lia. Qed.

Lemma getitem_lookup {A} (l : list A) (i : Z) (x : A) :
  0 <= i -> l !! Z.to_nat i = Some x -> getitem l i = Ok x.
Proof.
  intros Hi Hx. unfold getitem, norm_index.
  pose proof (lookup_lt_Some _ _ _ Hx) as Hlt.
  destruct (Z.ltb_spec i 0); [lia|].
  destruct (Z.leb_spec 0 i); [|lia].
  destruct (Z.ltb_spec i (len l)) as [_|Hge]; [|unfold len in Hge; lia].
  simpl. now rewrite Hx.
Qed.

Lemma getitem_in_range {A} (l : list A) (i : Z) :
  0 <= i < len l ->
  exists x, l !! Z.to_nat i = Some x /\ getitem l i = Ok x.
Proof.
  intros Hi. unfold len in Hi.
  destruct (lookup_lt_is_Some_2 l (Z.to_nat i)) as [x Hx]; [lia|].
  exists x. split; [done|]. apply getitem_lookup; [lia|done].
Qed.

Lemma setitem_in_range {A} (l : list A) (i : Z) (x : A) :
  0 <= i < len l -> setitem l i x = Ok (<[Z.to_nat i := x]> l).
Proof.
  intros Hi. unfold setitem, norm_index.
  destruct (Z.ltb_spec i 0); [lia|].
  destruct (Z.leb_spec 0 i); [|lia].
  destruct (Z.ltb_spec i (len l)); [done|lia].
Qed.

Lemma slice_take_drop {A} (l : list A) (lo hi : Z) :
  0 <= lo <= hi ->
  slice l lo hi = take (Z.to_nat (hi - lo)) (drop (Z.to_nat lo) l).
Proof.
  intros H. unfold slice, clamp.
  pose proof (len_nonneg l) as Hn. unfold len in *.
  destruct (Z.ltb_spec lo 0); [lia|].
  destruct (Z.ltb_spec hi 0); [lia|].
  destruct (Z.le_gt_cases lo (Z.of_nat (length l))) as [Hlo|Hlo].
  - rewrite (Z.min_l lo) by lia.
    destruct (Z.le_gt_cases hi (Z.of_nat (length l))) as [Hhi|Hhi].
    + now rewrite (Z.min_l hi) by lia.
    + rewrite (Z.min_r hi) by lia.
      rewrite !take_ge; [done| |]; rewrite length_drop; lia.
  - rewrite (Z.min_r lo), (Z.min_r hi) by lia.
    rewrite !drop_ge by lia. now rewrite !take_nil.
Qed.

Lemma slice_from_drop {A} (l : list A) (lo : Z) :
  0 <= lo -> slice_from l lo = drop (Z.to_nat lo) l.
Proof.
  intros H. unfold slice_from, clamp.
  destruct (Z.ltb_spec lo 0); [lia|].
  destruct (Z.le_gt_cases lo (len l)) as [Hlo|Hlo].
  - now rewrite Z.min_l.
  - rewrite Z.min_r by lia. unfold len in *.
    rewrite !drop_ge; [done| |]; lia.
Qed.

Lemma slice_to_take {A} (l : list A) (hi : Z) :
  0 <= hi -> slice_to l hi = take (Z.to_nat hi) l.
Proof.
  intros H. unfold slice_to, clamp.
  destruct (Z.ltb_spec hi 0); [lia|].
  destruct (Z.le_gt_cases hi (len l)) as [Hlo|Hlo].
  - now rewrite Z.min_l.
  - rewrite Z.min_r by lia. unfold len in *.
    rewrite !take_ge; [done| |]; lia.
Qed.

Lemma slice_step {A} (l : list A) (i k : Z) (x : A) :
  0 <= i -> 0 <= k -> l !! Z.to_nat i = Some x ->
  slice l i (i + (k + 1)) = x :: slice l (i + 1) (i + 1 + k).
Proof.
  intros Hi Hk Hx. rewrite !slice_take_drop by lia.
  replace (Z.to_nat (i + (k + 1) - i)) with (S (Z.to_nat k)) by lia.
  replace (Z.to_nat (i + 1 + k - (i + 1))) with (Z.to_nat k) by lia.
  replace (Z.to_nat (i + 1)) with (S (Z.to_nat i)) by lia.
  now rewrite (drop_S _ _ _ Hx).
Qed.

Lemma slice_empty {A} (l : list A) (i : Z) : 0 <= i -> slice l i i = [].
Proof.
  intros Hi. rewrite slice_take_drop by lia.
  now replace (Z.to_nat (i - i)) with O by lia.
Qed.

Lemma len_slice {A} (l : list A) (lo hi : Z) :
  0 <= lo <= hi -> hi <= len l -> len (slice l lo hi) = hi - lo.
Proof.
  intros H Hhi. rewrite slice_take_drop by lia. unfold len in *.
  rewrite length_take, length_drop. lia.
Qed.

Lemma len_times {A} (x : A) (k : Z) : 0 <= k -> len (times x k) = k.
Proof. intros. unfold len, times. rewrite length_replicate. lia. Qed.

Lemma isupper_not_lower (c : ascii) : isupper c = true -> islower c = false.
Proof.
  destruct c as [[] [] [] [] [] [] [] []]; vm_compute; congruence.
Qed.

Lemma isupper_lower (c : ascii) :
  isupper c = true -> islower (lower c) = true.
Proof.
  destruct c as [[] [] [] [] [] [] [] []]; vm_compute; congruence.
Qed.

(** Built-in [int]: white space and underscores are accepted as Python
    accepts them, and a separator character is not white space to it. *)
Example int_examples :
  int (s " 12 ") = Ok 12
  /\ int (s "-1_0") = Ok (-10)
  /\ int ["160"%char; "7"%char] = Ok 7
  /\ int ["031"%char; "1"%char] = Raise (ValueError ["031"%char; "1"%char])
  /\ int (s "1__0") = Raise (ValueError (s "1__0"))
  /\ int (s "") = Raise (ValueError (s ""))
  /\ strip ["031"%char; "1"%char] = s "1".
Proof. repeat split; reflexivity. Qed.

Example int_digit_limit :
  int (replicate 4300 "1"%char) <> Raise (ValueError (replicate 4300 "1"%char))
  /\ int (replicate 4301 "1"%char)
     = Raise (ValueError (replicate 4301 "1"%char)).
Proof. split; [vm_compute; discriminate | vm_compute; reflexivity]. Qed.

End PyFacts.

Export PyFacts.
(* ===================================================================== *)
(** * dia2a3m.py: the decoder                                              *)
(* ===================================================================== *)

Module Dia2a3mFacts.
Import Dia2a3m.

Lemma state_eta st :
  st = {| alignment_q := alignment_q st; alignment_s := alignment_s st;
          insertions := insertions st; s_curr := s_curr st;
          q_curr := q_curr st; col := col st |}.
Proof. now destruct st. Qed.

Lemma times_succ {A} (x : A) (k : Z) :
  0 <= k -> times x (k + 1) = x :: times x k.
Proof.
  intros Hk. unfold times.
  now replace (Z.to_nat (k + 1)) with (S (Z.to_nat k)) by lia.
Qed.

Lemma after_M_zero sequence query st :
  0 <= q_curr st -> 0 <= s_curr st -> after_M sequence query 0 st = st.
Proof.
  intros Hq Hs. unfold after_M. rewrite !Z.add_0_r, !slice_empty by lia.
  unfold times. simpl. rewrite !app_nil_r. symmetry. apply state_eta.
Qed.

Lemma run_M_closed sequence query n st :
  0 <= q_curr st <= len query -> 0 <= s_curr st <= len sequence ->
  run_M sequence query n st
  = Ok (after_M sequence query
          (Z.min (Z.of_nat n)
             (Z.min (len query - q_curr st) (len sequence - s_curr st))) st).
Proof.
  revert st. induction n as [|n IH]; intros st Hq Hs.
  - rewrite Z.min_l by lia. now rewrite after_M_zero by lia.
  - cbn [run_M].
    destruct (Z.geb_spec (q_curr st) (len query)) as [Hqe|Hqlt].
    { rewrite (Z.min_r (Z.of_nat (S n))) by lia.
      replace (Z.min _ _) with 0 by lia. now rewrite after_M_zero by lia. }
    destruct (Z.geb_spec (s_curr st) (len sequence)) as [Hse|Hslt].
    { rewrite (Z.min_r (Z.of_nat (S n))) by lia.
      replace (Z.min _ _) with 0 by lia. now rewrite after_M_zero by lia. }
    cbn [orb].
    destruct (getitem_in_range query (q_curr st)) as (qc & Hqc & ->); [lia|].
    destruct (getitem_in_range sequence (s_curr st)) as (sc & Hsc & ->); [lia|].
    cbn [bind]. rewrite IH by (cbn; lia). f_equal. cbn [emit q_curr s_curr].
    set (k := Z.min (Z.of_nat n)
                (Z.min (len query - (q_curr st + 1))
                       (len sequence - (s_curr st + 1)))).
    replace (Z.min (Z.of_nat (S n)) _) with (k + 1) by lia.
    assert (0 <= k) by lia.
    unfold after_M; cbn.
    rewrite (slice_step query _ k qc), (slice_step sequence _ k sc) by (lia || done).
    rewrite times_succ by lia. rewrite <- !app_assoc. cbn.
    f_equal; lia.
Qed.

Lemma after_I_zero query st : 0 <= q_curr st -> after_I query 0 st = st.
Proof.
  intros Hq. unfold after_I. rewrite !Z.add_0_r, !slice_empty by lia.
  unfold times. simpl. rewrite !app_nil_r. symmetry. apply state_eta.
Qed.

Lemma run_I_closed query n st :
  0 <= q_curr st <= len query ->
  run_I query n st
  = Ok (after_I query (Z.min (Z.of_nat n) (len query - q_curr st)) st).
Proof.
  revert st. induction n as [|n IH]; intros st Hq.
  - rewrite Z.min_l by lia. now rewrite after_I_zero by lia.
  - cbn [run_I].
    destruct (Z.geb_spec (q_curr st) (len query)) as [Hqe|Hqlt].
    { replace (Z.min _ _) with 0 by lia. now rewrite after_I_zero by lia. }
    destruct (getitem_in_range query (q_curr st)) as (qc & Hqc & ->); [lia|].
    cbn [bind]. rewrite IH by (cbn; lia). f_equal. cbn [emit q_curr s_curr].
    set (k := Z.min (Z.of_nat n) (len query - (q_curr st + 1))).
    replace (Z.min (Z.of_nat (S n)) _) with (k + 1) by lia.
    assert (0 <= k) by lia.
    unfold after_I; cbn.
    rewrite (slice_step query _ k qc) by (lia || done).
    rewrite !times_succ by lia. rewrite <- !app_assoc. cbn.
    f_equal; lia.
Qed.

Lemma after_D_zero sequence st :
  0 <= s_curr st -> after_D sequence 0 st = st.
Proof.
  intros Hs. unfold after_D. rewrite !Z.add_0_r, !slice_empty by lia.
  cbn [map]. rewrite (list_alter_id _ (insertions st)) by apply app_nil_r.
  destruct (col st >=? 0); symmetry; apply state_eta.
Qed.

Lemma add_insertion_ok sequence st sc :
  0 <= col st < len (insertions st) -> 0 <= s_curr st ->
  sequence !! Z.to_nat (s_curr st) = Some sc ->
  add_insertion sequence st
  = Ok (alter (fun old => old ++ [lower sc]) (Z.to_nat (col st))
          (insertions st)).
Proof.
  intros Hc Hs Hsc. unfold add_insertion.
  destruct (getitem_in_range (insertions st) (col st)) as (old & Hold & ->);
    [lia|].
  cbn [bind]. rewrite (getitem_lookup _ _ _ Hs Hsc). cbn [bind].
  rewrite setitem_in_range by lia. f_equal.
  rewrite list_insert_alter. apply list_alter_ext; [|done].
  intros x Hx. congruence.
Qed.

Lemma run_D_closed sequence n st :
  0 <= s_curr st <= len sequence -> col st < len (insertions st) ->
  run_D sequence n st
  = Ok (after_D sequence (Z.min (Z.of_nat n) (len sequence - s_curr st)) st).
Proof.
  revert st. induction n as [|n IH]; intros st Hs Hc.
  - rewrite Z.min_l by lia. now rewrite after_D_zero by lia.
  - cbn [run_D].
    destruct (Z.geb_spec (s_curr st) (len sequence)) as [Hse|Hslt].
    { replace (Z.min _ _) with 0 by lia. now rewrite after_D_zero by lia. }
    destruct (getitem_in_range sequence (s_curr st)) as (sc & Hsc & _); [lia|].
    set (k := Z.min (Z.of_nat n) (len sequence - (s_curr st + 1))).
    assert (0 <= k) by lia.
    assert (Z.min (Z.of_nat (S n)) (len sequence - s_curr st) = k + 1) as ->
      by lia.
    destruct (Z.geb_spec (col st) 0) as [Hcol|Hcol].
    + rewrite (add_insertion_ok _ _ sc) by (lia || done). cbn [bind].
      rewrite IH; cbn [with_insertions s_curr col insertions]; [|lia|].
      2:{ unfold len in *. rewrite length_alter. lia. }
      f_equal. unfold after_D; cbn.
      destruct (Z.geb_spec (col st) 0); [|lia].
      rewrite (slice_step sequence _ k sc) by (lia || done).
      rewrite list_alter_alter_eq. f_equal; [|lia].
      apply list_alter_ext; [|done]. intros old _. cbn.
      now rewrite <- app_assoc.
    + cbn [bind]. rewrite IH; cbn [with_insertions s_curr col insertions];
        [|lia|lia].
      f_equal. unfold after_D; cbn.
      destruct (Z.geb_spec (col st) 0); [lia|]. f_equal; lia.
Qed.

(** ** The invariant is kept *)

Lemma slice_to_app {A} (l : list A) (i k : Z) :
  0 <= i -> 0 <= k -> slice_to l i ++ slice l i (i + k) = slice_to l (i + k).
Proof.
  intros Hi Hk. rewrite !slice_to_take, slice_take_drop by lia.
  replace (Z.to_nat (i + k - i)) with (Z.to_nat k) by lia.
  rewrite take_take_drop. f_equal. lia.
Qed.

Lemma slice_to_end {A} (l : list A) (i : Z) :
  0 <= i <= len l -> slice l i (len l) = slice_from l i.
Proof.
  intros Hi. rewrite slice_take_drop, slice_from_drop by lia.
  apply take_ge. unfold len. rewrite length_drop. lia.
Qed.

Lemma consistent_init sequence query : consistent sequence query init.
Proof.
  pose proof (len_nonneg query). pose proof (len_nonneg sequence).
  split; cbn; try lia; try done.
  now rewrite slice_to_take.
Qed.

Lemma consistent_after_M sequence query k st :
  consistent sequence query st ->
  0 <= k -> k <= len query - q_curr st -> k <= len sequence - s_curr st ->
  consistent sequence query (after_M sequence query k st).
Proof.
  intros [Hqr Hsr Hqc Hsc Hic Hcl] Hk Hq Hs. split; cbn; try lia.
  - rewrite Hqc. apply slice_to_app; lia.
  - rewrite len_app, len_slice; lia.
  - rewrite len_app, len_times; lia.
Qed.

Lemma consistent_after_I sequence query k st :
  consistent sequence query st ->
  0 <= k -> k <= len query - q_curr st ->
  consistent sequence query (after_I query k st).
Proof.
  intros [Hqr Hsr Hqc Hsc Hic Hcl] Hk Hq. split; cbn; try lia.
  - rewrite Hqc. apply slice_to_app; lia.
  - rewrite len_app, len_times; lia.
  - rewrite len_app, len_times; lia.
Qed.

Lemma consistent_after_D sequence query k st :
  consistent sequence query st ->
  0 <= k -> k <= len sequence - s_curr st ->
  consistent sequence query (after_D sequence k st).
Proof.
  intros [Hqr Hsr Hqc Hsc Hic Hcl] Hk Hs. split; cbn; try lia; try done.
  destruct (col st >=? 0); [|done].
  unfold len in *. now rewrite length_alter.
Qed.

Lemma cigar_char_cases c :
  cigar_char c = true ->
  is_ascii_digit c = true \/ c = "M"%char \/ c = "I"%char \/ c = "D"%char.
Proof.
  unfold cigar_char. rewrite !orb_true_iff, !Ascii.eqb_eq. tauto.
Qed.

Lemma step_digit sequence query c index st :
  is_ascii_digit c = true ->
  step sequence query c (index, st) = Ok (index * 10 + (ord c - 48), st).
Proof.
  intros Hd. unfold step, isdigit, int_of_char. now rewrite Hd.
Qed.

Lemma step_M sequence query index st :
  consistent sequence query st ->
  step sequence query "M" (index, st)
  = Ok (0, after_M sequence query
             (Z.min (Z.of_nat (Z.to_nat index))
                (Z.min (len query - q_curr st) (len sequence - s_curr st)))
             st).
Proof.
  intros []. cbn [step isdigit]. change (isdigit "M") with false.
  cbn [Ascii.eqb Bool.eqb]. now rewrite run_M_closed.
Qed.

Lemma step_I sequence query index st :
  consistent sequence query st ->
  step sequence query "I" (index, st)
  = Ok (0, after_I query
             (Z.min (Z.of_nat (Z.to_nat index)) (len query - q_curr st)) st).
Proof.
  intros []. cbn [step isdigit]. change (isdigit "I") with false.
  cbn [Ascii.eqb Bool.eqb]. now rewrite run_I_closed.
Qed.

Lemma step_D sequence query index st :
  consistent sequence query st ->
  step sequence query "D" (index, st)
  = Ok (0, after_D sequence
             (Z.min (Z.of_nat (Z.to_nat index)) (len sequence - s_curr st))
             st).
Proof.
  intros []. cbn [step isdigit]. change (isdigit "D") with false.
  cbn [Ascii.eqb Bool.eqb]. rewrite run_D_closed by lia. done.
Qed.

Lemma step_consistent sequence query c index st :
  cigar_char c = true -> consistent sequence query st ->
  exists index' st',
    step sequence query c (index, st) = Ok (index', st')
    /\ consistent sequence query st'.
Proof.
  intros Hc Hst. pose proof Hst as [].
  destruct (cigar_char_cases c Hc) as [Hd | [-> | [-> | ->]]].
  - rewrite step_digit by done. eauto.
  - rewrite step_M by done. do 2 eexists. split; [done|].
    apply consistent_after_M; [done|lia..].
  - rewrite step_I by done. do 2 eexists. split; [done|].
    apply consistent_after_I; [done|lia..].
  - rewrite step_D by done. do 2 eexists. split; [done|].
    apply consistent_after_D; [done|lia..].
Qed.

Lemma scan_consistent sequence query cigar_string index st :
  valid_cigar cigar_string -> consistent sequence query st ->
  exists index' st',
    scan sequence query cigar_string (index, st) = Ok (index', st')
    /\ consistent sequence query st'.
Proof.
  unfold valid_cigar. revert index st.
  induction cigar_string as [|c rest IH]; intros index st Hv Hst.
  - cbn. eauto.
  - cbn in Hv. apply andb_true_iff in Hv as [Hc Hv].
    destruct (step_consistent sequence query c index st Hc Hst)
      as (i1 & st1 & Hstep & Hst1).
    cbn [scan]. rewrite Hstep. cbn [bind]. now apply IH.
Qed.

Lemma after_I_emit query k qc st :
  0 <= k -> 0 <= q_curr st -> query !! Z.to_nat (q_curr st) = Some qc ->
  after_I query k (emit qc "-" 0 st) = after_I query (k + 1) st.
Proof.
  intros Hk Hq Hqc. unfold after_I; cbn.
  rewrite (slice_step query (q_curr st) k qc) by (lia || done).
  rewrite !times_succ by lia. rewrite <- !app_assoc. cbn.
  f_equal; lia.
Qed.

Lemma drain_closed sequence query fuel st :
  consistent sequence query st ->
  len query - q_curr st <= Z.of_nat fuel ->
  drain fuel query st = Ok (after_I query (len query - q_curr st) st).
Proof.
  revert st. induction fuel as [|fuel IH]; intros st Hst Hf;
    pose proof Hst as []; cbn [drain];
    destruct (Z.ltb_spec (q_curr st) (len query)) as [Hlt|Hge];
    try lia;
    try (replace (len query - q_curr st) with 0 by lia;
         now rewrite after_I_zero by lia).
  destruct (getitem_in_range query (q_curr st)) as (qc & Hqc & ->); [lia|].
  cbn [bind].
  assert (consistent sequence query (emit qc "-" 0 st)) as Hemit.
  { rewrite <- (after_I_zero query (emit qc "-" 0 st)) by (cbn; lia).
    rewrite after_I_emit by (lia || done).
    apply consistent_after_I; [done|lia..]. }
  rewrite IH by (done || cbn; lia). f_equal. cbn [emit q_curr].
  rewrite after_I_emit by (lia || done). f_equal. lia.
Qed.

Lemma fold_closed sequence query cigar_string index st :
  scan sequence query cigar_string (0, init) = Ok (index, st) ->
  consistent sequence query st ->
  cigar_to_alignment_fold cigar_string sequence query
  = Ok (alignment_q st ++ slice_from query (q_curr st),
        alignment_s st ++ times "-"%char (len query - q_curr st),
        insertions st ++ times [] (len query - q_curr st)).
Proof.
  intros Hscan Hst. pose proof Hst as [].
  unfold cigar_to_alignment_fold. rewrite Hscan. cbn [bind snd].
  rewrite (drain_closed sequence) by (done || unfold len in *; lia).
  cbn [bind after_I alignment_q alignment_s insertions].
  replace (q_curr st + (len query - q_curr st)) with (len query) by lia.
  now rewrite slice_to_end by lia.
Qed.

Lemma fold_lengths sequence query st :
  consistent sequence query st ->
  len (alignment_s st ++ times "-"%char (len query - q_curr st)) = len query
  /\ len (insertions st ++ times [] (len query - q_curr st)) = len query.
Proof.
  intros [Hqr Hsr Hqc Hsc Hic Hcl].
  rewrite !len_app, !len_times by lia. lia.
Qed.

(** ** The decoder: column count, totality, deletion runs *)

(** Claim C1.  For a CIGAR string made of decimal digits and the operators
    M, I and D only, and for any subject and query slices, the decoder
    returns; the column-aligned subject string and the list of insertion
    strings both have exactly as many entries as the query slice has
    characters; and what the scan left unconsumed of the query is appended
    as gap columns with empty insertions. *)
Theorem decoder_column_count (cigar_string sequence query : str)
    (Hvalid : valid_cigar cigar_string) :
  exists index st,
    scan sequence query cigar_string (0, init) = Ok (index, st)
    /\ cigar_to_alignment_fold cigar_string sequence query
       = Ok (alignment_q st ++ slice_from query (q_curr st),
             alignment_s st ++ times "-"%char (len query - q_curr st),
             insertions st ++ times [] (len query - q_curr st))
    /\ len (alignment_s st ++ times "-"%char (len query - q_curr st))
       = len query
    /\ len (insertions st ++ times [] (len query - q_curr st)) = len query.
Proof.
  destruct (scan_consistent sequence query cigar_string 0 init Hvalid
              (consistent_init sequence query)) as (index & st & Hscan & Hst).
  exists index, st.
  split; [done|]. split; [now apply (fold_closed _ _ _ index)|].
  now apply (fold_lengths sequence).
Qed.

Lemma decoder_column_count_witness :
  valid_cigar (s "3M2D2I")
  /\ exists index st,
      scan (s "ABCDE") (s "FGHIJ") (s "3M2D2I") (0, init) = Ok (index, st)
      /\ cigar_to_alignment_fold (s "3M2D2I") (s "ABCDE") (s "FGHIJ")
         = Ok (alignment_q st ++ slice_from (s "FGHIJ") (q_curr st),
               alignment_s st
               ++ times "-"%char (len (s "FGHIJ") - q_curr st),
               insertions st ++ times [] (len (s "FGHIJ") - q_curr st))
      /\ len (alignment_s st
              ++ times "-"%char (len (s "FGHIJ") - q_curr st))
         = len (s "FGHIJ")
      /\ len (insertions st ++ times [] (len (s "FGHIJ") - q_curr st))
         = len (s "FGHIJ").
Proof.
  split; [reflexivity|].
  apply (decoder_column_count (s "3M2D2I") (s "ABCDE") (s "FGHIJ")).
  reflexivity.
Defined.

(** Claim C3.  In a state of the scan, a D run of [n] repeats adds no column
    and consumes [k] subject characters, [k] being [n] cut at the end of the
    subject slice; their lower-cased characters are appended to the
    insertion string of the last emitted column, whose index is [col]; with
    no column emitted yet ([col] negative) the insertions are left as they
    are and the subject position advances all the same.  On CIGAR 3M2D2I,
    subject ABCDE and query FGHIJ the decoder yields the subject row
    ABC-- with insertion de at column index 2 and none elsewhere. *)
Theorem deletion_run (sequence query : str) (n : nat) (st : state)
    (Hst : consistent sequence query st) :
  let k := Z.min (Z.of_nat n) (len sequence - s_curr st) in
  let st' := after_D sequence k st in
  run_D sequence n st = Ok st'
  /\ alignment_q st' = alignment_q st
  /\ alignment_s st' = alignment_s st
  /\ len (insertions st') = len (insertions st)
  /\ q_curr st' = q_curr st
  /\ s_curr st' = s_curr st + k
  /\ col st = len (alignment_s st) - 1
  /\ (0 <= col st ->
      insertions st'
      = alter (fun old =>
                 old ++ map lower (slice sequence (s_curr st) (s_curr st + k)))
              (Z.to_nat (col st)) (insertions st))
  /\ (col st < 0 -> insertions st' = insertions st)
  /\ cigar_to_alignment_fold (s "3M2D2I") (s "ABCDE") (s "FGHIJ")
     = Ok (s "FGHIJ", s "ABC--", [[]; []; s "de"; []; []]).
Proof.
  intros k st'. pose proof Hst as [].
  split; [apply run_D_closed; lia|].
  repeat split; try done; subst st'; cbn; try lia.
  - destruct (col st >=? 0); [|done]. unfold len. now rewrite length_alter.
  - intros Hc. destruct (Z.geb_spec (col st) 0); [done|lia].
  - intros Hc. destruct (Z.geb_spec (col st) 0); [lia|done].
Qed.

Lemma deletion_run_witness :
  consistent (s "ABCDE") (s "FGHIJ") (after_M (s "ABCDE") (s "FGHIJ") 3 init)
  /\ run_D (s "ABCDE") 2 (after_M (s "ABCDE") (s "FGHIJ") 3 init)
     = Ok {| alignment_q := s "FGH"; alignment_s := s "ABC";
             insertions := [[]; []; s "de"];
             s_curr := 5; q_curr := 3; col := 2 |}.
Proof.
  assert (consistent (s "ABCDE") (s "FGHIJ")
            (after_M (s "ABCDE") (s "FGHIJ") 3 init)) as Hst.
  { apply consistent_after_M;
      [apply consistent_init | vm_compute; congruence ..]. }
  split; [exact Hst|].
  exact (proj1 (deletion_run (s "ABCDE") (s "FGHIJ") 2 _ Hst)).
Defined.

(** Claim C4.  For a CIGAR string made of decimal digits and the operators
    M, I and D only, the decoder returns a result whatever the lengths of
    the two slices, and the scan ends in a consistent state.  In any
    consistent state a run of [n] repeats stops silently at the end of a
    slice: an M run takes [n] cut at what is left of the query and of the
    subject, an I run [n] cut at what is left of the query, a D run [n] cut
    at what is left of the subject; the rest of the run is skipped. *)
Theorem decoder_total_truncating (cigar_string sequence query : str)
    (n : nat) (st : state)
    (Hvalid : valid_cigar cigar_string)
    (Hst : consistent sequence query st) :
  is_ok (cigar_to_alignment_fold cigar_string sequence query)
  /\ (exists index st',
        scan sequence query cigar_string (0, init) = Ok (index, st')
        /\ consistent sequence query st')
  /\ run_M sequence query n st
     = Ok (after_M sequence query
             (Z.min (Z.of_nat n)
                (Z.min (len query - q_curr st) (len sequence - s_curr st)))
             st)
  /\ run_I query n st
     = Ok (after_I query (Z.min (Z.of_nat n) (len query - q_curr st)) st)
  /\ run_D sequence n st
     = Ok (after_D sequence (Z.min (Z.of_nat n) (len sequence - s_curr st))
             st).
Proof.
  pose proof Hst as [].
  destruct (scan_consistent sequence query cigar_string 0 init Hvalid
              (consistent_init sequence query)) as (index & st1 & Hscan & Hst1).
  split; [|split; [|split; [|split]]].
  - eexists. now apply (fold_closed _ _ _ index st1).
  - eauto.
  - now apply run_M_closed.
  - now apply run_I_closed.
  - apply run_D_closed; lia.
Qed.

Lemma decoder_total_truncating_witness :
  valid_cigar (s "9M2D4I")
  /\ consistent (s "ABCDE") (s "FGH") init
  /\ is_ok (cigar_to_alignment_fold (s "9M2D4I") (s "ABCDE") (s "FGH"))
  /\ run_M (s "ABCDE") (s "FGH") 9 init
     = Ok (after_M (s "ABCDE") (s "FGH") 3 init).
Proof.
  split; [reflexivity|]. split; [apply consistent_init|].
  pose proof (decoder_total_truncating (s "9M2D4I") (s "ABCDE") (s "FGH")
                9 init eq_refl (consistent_init _ _)) as H.
  split; [exact (proj1 H)|]. exact (proj1 (proj2 (proj2 H))).
Defined.

(** ** Whatever the scan returns is consistent *)

Lemma step_ok_consistent sequence query c index st index' st' :
  step sequence query c (index, st) = Ok (index', st') ->
  consistent sequence query st -> consistent sequence query st'.
Proof.
  intros Hstep Hst. pose proof Hst as [Hqr Hsr Hqc Hsc Hic Hcl].
  destruct (isdigit c) eqn:Hd.
  { unfold step in Hstep. rewrite Hd in Hstep.
    destruct (int_of_char c); cbn in Hstep; [|discriminate].
    now injection Hstep as _ <-. }
  destruct (Ascii.eqb c "M") eqn:HM.
  { apply Ascii.eqb_eq in HM as ->. rewrite step_M in Hstep by done.
    injection Hstep as _ <-. apply consistent_after_M; [done|lia..]. }
  destruct (Ascii.eqb c "I") eqn:HI.
  { apply Ascii.eqb_eq in HI as ->. rewrite step_I in Hstep by done.
    injection Hstep as _ <-. apply consistent_after_I; [done|lia..]. }
  destruct (Ascii.eqb c "D") eqn:HD.
  { apply Ascii.eqb_eq in HD as ->. rewrite step_D in Hstep by done.
    injection Hstep as _ <-. apply consistent_after_D; [done|lia..]. }
  unfold step in Hstep. rewrite Hd, HM, HI, HD in Hstep. discriminate.
Qed.

Lemma scan_ok_consistent sequence query cigar_string acc acc' :
  scan sequence query cigar_string acc = Ok acc' ->
  consistent sequence query (snd acc) -> consistent sequence query (snd acc').
Proof.
  revert acc. induction cigar_string as [|c rest IH]; intros acc Hscan Hst.
  - cbn in Hscan. now injection Hscan as <-.
  - cbn [scan] in Hscan.
    destruct (step sequence query c acc) as [[i1 st1]|e] eqn:Hstep;
      cbn [bind] in Hscan; [|discriminate].
    apply (IH _ Hscan). destruct acc as [index st].
    now apply (step_ok_consistent _ _ _ _ _ _ _ Hstep).
Qed.

Lemma slice_subseteq {A} (l : list A) (a b : Z) (x : A) :
  0 <= a <= b -> x ∈ slice l a b -> x ∈ l.
Proof.
  intros Hab Hx. rewrite slice_take_drop in Hx by lia.
  apply (subseteq_drop (Z.to_nat a)), (subseteq_take (Z.to_nat (b - a))), Hx.
Qed.

(** ** The A3M writer *)

Lemma slice_to_from_len {A} (l : list A) (i : Z) :
  len (slice_to l i) + len (slice_from l i) = len l.
Proof.
  unfold slice_to, slice_from, len.
  rewrite length_take, length_drop. lia.
Qed.

Lemma columns_of_pieces (s_full : str) (ins_full : list str) :
  length s_full = length ins_full ->
  columns_of ins_full (concat (pieces s_full ins_full)) = s_full.
Proof.
  revert ins_full. induction s_full as [|ch rest IH]; intros [|ins ins_rest] Hl;
    try done.
  cbn in Hl. injection Hl as Hl. unfold pieces in *. cbn [zip zip_with flat_map].
  assert (concat ((match ins with [] => [[ch]] | _ => [[ch]; ins] end)
                  ++ flat_map (fun '(ch, ins) =>
                                 match ins with
                                 | [] => [[ch]]
                                 | _ => [[ch]; ins]
                                 end) (zip rest ins_rest))
          = ch :: ins ++ concat (pieces rest ins_rest)) as ->.
  { destruct ins; reflexivity. }
  cbn [columns_of]. rewrite drop_app_length. f_equal. now apply IH.
Qed.

(** For a well-formed hit the row is the gap prefix followed by the decoded
    subject row; it already has the query length, so neither the padding
    nor the truncation branch changes it. *)
Lemma align_hit_closed (q_seq : str) (l : hit) :
  well_formed_hit l ->
  exists t,
    align_hit q_seq l = Ok t /\ hit_row q_seq l t
    /\ len (fst (fst t)) = len q_seq /\ len (snd (fst t)) = len q_seq.
Proof.
  intros (hit_seq & cigar & f2 & f3 & header & more & i2 & i3
          & -> & Hv & Hi2 & Hi3).
  destruct (scan_consistent (slice_from hit_seq (i3 - 1))
              (slice_from q_seq (i2 - 1)) cigar 0 init Hv
              (consistent_init _ _)) as (index & st & Hscan & Hst).
  pose proof (fold_closed _ _ _ _ _ Hscan Hst) as Hfold.
  destruct (fold_lengths _ _ _ Hst) as [Hls Hli].
  pose proof (slice_to_from_len q_seq (i2 - 1)) as Hsplit.
  pose proof (len_nonneg (slice_to q_seq (i2 - 1))) as Hpre.
  exists (times "-"%char (len (slice_to q_seq (i2 - 1)))
            ++ alignment_s st
            ++ times "-"%char (len (slice_from q_seq (i2 - 1)) - q_curr st),
          times [] (len (slice_to q_seq (i2 - 1)))
            ++ insertions st
            ++ times [] (len (slice_from q_seq (i2 - 1)) - q_curr st),
          header).
  cbn [fst snd].
  assert (forall k x, (hit_seq :: cigar :: f2 :: f3 :: header :: more)
                        !! Z.to_nat k = Some x -> 0 <= k ->
                      getitem (hit_seq :: cigar :: f2 :: f3 :: header :: more) k
                      = Ok x) as Hget
    by (intros; now apply getitem_lookup).
  assert (len (times "-"%char (len (slice_to q_seq (i2 - 1)))
               ++ alignment_s st
               ++ times "-"%char
                    (len (slice_from q_seq (i2 - 1)) - q_curr st))
          = len q_seq) as Hs.
  { rewrite len_app, len_times, Hls by lia. lia. }
  assert (len (times (A:=str) [] (len (slice_to q_seq (i2 - 1)))
               ++ insertions st
               ++ times [] (len (slice_from q_seq (i2 - 1)) - q_curr st))
          = len q_seq) as Hi.
  { rewrite len_app, len_times, Hli by lia. lia. }
  split; [|split; [|split; [exact Hs | exact Hi]]].
  - unfold align_hit.
    rewrite (Hget 1 cigar), (Hget 4 header), (Hget 2 f2), (Hget 3 f3),
      (Hget 0 hit_seq) by (done || lia).
    cbn [bind]. rewrite Hi2, Hi3. cbn [bind]. rewrite Hfold. cbn [bind].
    rewrite Hs. rewrite Z.ltb_irrefl.
    destruct (Z.gtb_spec (len q_seq) (len q_seq)); [lia|done].
  - unfold hit_row. do 11 eexists.
    split; [done|]. split; [exact Hi2|]. split; [exact Hi3|].
    split; [exact Hfold|done].
Qed.

Lemma align_hits_closed (q_seq : str) (all_hits : list hit) :
  Forall well_formed_hit all_hits ->
  exists targets,
    align_hits q_seq all_hits = Ok targets
    /\ Forall2 (hit_row q_seq) all_hits targets
    /\ Forall (fun t => len (fst (fst t)) = len q_seq
                        /\ len (snd (fst t)) = len q_seq) targets.
Proof.
  induction 1 as [|l rest Hl _ (ts & Hts & Hrows & Hlens)].
  - exists []. now repeat split.
  - destruct (align_hit_closed q_seq l Hl) as (t & Ht & Hrow & Hls & Hli).
    exists (t :: ts). cbn [align_hits]. rewrite Ht, Hts. cbn [bind].
    split; [done|]. split; constructor; done.
Qed.

Lemma length_a3m_writes (q_seq outfname : str) (targets : list target) :
  length (a3m_writes q_seq outfname targets)
  = (2 * (1 + length targets))%nat.
Proof.
  unfold a3m_writes. cbn [length].
  induction targets as [|t ts IH]; cbn [flat_map length app] in *; lia.
Qed.

(** ** Where the characters of a row come from *)

Lemma from_subject_app sequence c1 c2 i1 i2 :
  from_subject sequence c1 i1 -> from_subject sequence c2 i2 ->
  from_subject sequence (c1 ++ c2) (i1 ++ i2).
Proof. intros [Hc1 Hi1] [Hc2 Hi2]. split; now apply Forall_app. Qed.

Lemma from_subject_gaps sequence (k : Z) :
  from_subject sequence (times "-"%char k) (times [] k).
Proof.
  split; unfold times; apply Forall_replicate; [now left | constructor].
Qed.

Lemma from_subject_mono (s1 s2 columns : str) (ins : list str) :
  (forall x, x ∈ s1 -> x ∈ s2) ->
  from_subject s1 columns ins -> from_subject s2 columns ins.
Proof.
  intros Hsub [Hc Hi]. split.
  - eapply Forall_impl; [exact Hc|]. intros c [-> | Hin]; [now left|].
    right. now apply Hsub.
  - eapply Forall_impl; [exact Hi|]. intros i Hall.
    eapply Forall_impl; [exact Hall|]. intros c (x & Hx & ->).
    exists x. split; [now apply Hsub | done].
Qed.

Lemma from_subject_after_M sequence query k st :
  0 <= s_curr st -> 0 <= k ->
  from_subject sequence (alignment_s st) (insertions st) ->
  from_subject sequence (alignment_s (after_M sequence query k st))
    (insertions (after_M sequence query k st)).
Proof.
  intros Hs Hk Hst. cbn [after_M alignment_s insertions].
  apply from_subject_app; [done|]. split.
  - apply Forall_forall. intros c Hc. right.
    eapply slice_subseteq; [|exact Hc]. lia.
  - unfold times. apply Forall_replicate. constructor.
Qed.

Lemma from_subject_after_I sequence query k st :
  from_subject sequence (alignment_s st) (insertions st) ->
  from_subject sequence (alignment_s (after_I query k st))
    (insertions (after_I query k st)).
Proof.
  intros Hst. cbn [after_I alignment_s insertions].
  apply from_subject_app; [done | apply from_subject_gaps].
Qed.

Lemma from_subject_after_D sequence k st :
  0 <= s_curr st -> 0 <= k ->
  from_subject sequence (alignment_s st) (insertions st) ->
  from_subject sequence (alignment_s (after_D sequence k st))
    (insertions (after_D sequence k st)).
Proof.
  intros Hs Hk [Hc Hi]. cbn [after_D alignment_s insertions].
  split; [done|]. destruct (col st >=? 0); [|done].
  apply Forall_alter; [done|]. intros old _ Hold.
  apply Forall_app. split; [done|].
  apply Forall_forall. intros c Hin.
  apply list_elem_of_In, in_map_iff in Hin as (x & <- & Hx).
  exists x. split; [|done]. apply list_elem_of_In in Hx.
  eapply slice_subseteq; [|exact Hx]. lia.
Qed.

Lemma step_ok_from_subject sequence query c index st index' st' :
  step sequence query c (index, st) = Ok (index', st') ->
  consistent sequence query st ->
  from_subject sequence (alignment_s st) (insertions st) ->
  from_subject sequence (alignment_s st') (insertions st').
Proof.
  intros Hstep Hst Hfrom. pose proof Hst as [Hqr Hsr Hqc Hsc Hic Hcl].
  destruct (isdigit c) eqn:Hd.
  { unfold step in Hstep. rewrite Hd in Hstep.
    destruct (int_of_char c); cbn in Hstep; [|discriminate].
    now injection Hstep as _ <-. }
  destruct (Ascii.eqb c "M") eqn:HM.
  { apply Ascii.eqb_eq in HM as ->. rewrite step_M in Hstep by done.
    injection Hstep as _ <-. apply from_subject_after_M; (done || lia). }
  destruct (Ascii.eqb c "I") eqn:HI.
  { apply Ascii.eqb_eq in HI as ->. rewrite step_I in Hstep by done.
    injection Hstep as _ <-. now apply from_subject_after_I. }
  destruct (Ascii.eqb c "D") eqn:HD.
  { apply Ascii.eqb_eq in HD as ->. rewrite step_D in Hstep by done.
    injection Hstep as _ <-. apply from_subject_after_D; (done || lia). }
  unfold step in Hstep. rewrite Hd, HM, HI, HD in Hstep. discriminate.
Qed.

Lemma scan_ok_from_subject sequence query cigar_string acc acc' :
  scan sequence query cigar_string acc = Ok acc' ->
  consistent sequence query (snd acc) ->
  from_subject sequence (alignment_s (snd acc)) (insertions (snd acc)) ->
  from_subject sequence (alignment_s (snd acc')) (insertions (snd acc')).
Proof.
  revert acc. induction cigar_string as [|c rest IH]; intros acc Hscan Hst Hfrom.
  - cbn in Hscan. now injection Hscan as <-.
  - cbn [scan] in Hscan.
    destruct (step sequence query c acc) as [[i1 st1]|e] eqn:Hstep;
      cbn [bind] in Hscan; [|discriminate].
    destruct acc as [index st]. apply (IH _ Hscan).
    + now apply (step_ok_consistent _ _ _ _ _ _ _ Hstep).
    + now apply (step_ok_from_subject _ _ _ _ _ _ _ Hstep).
Qed.

Lemma fold_ok_from_subject (cigar_string sequence query : str)
    (alignment_q alignment_s : str) (insertions : list str) :
  cigar_to_alignment_fold cigar_string sequence query
  = Ok (alignment_q, alignment_s, insertions) ->
  from_subject sequence alignment_s insertions.
Proof.
  intros Hreturns.
  destruct (scan sequence query cigar_string (0, init)) as [[index st]|e]
    eqn:Hscan.
  2:{ unfold cigar_to_alignment_fold in Hreturns. rewrite Hscan in Hreturns.
      discriminate. }
  assert (consistent sequence query st) as Hst
    by exact (scan_ok_consistent _ _ _ _ _ Hscan (consistent_init _ _)).
  assert (from_subject sequence (Dia2a3m.alignment_s st)
            (Dia2a3m.insertions st)) as Hfrom.
  { apply (scan_ok_from_subject _ _ _ _ _ Hscan (consistent_init _ _)).
    split; constructor. }
  rewrite (fold_closed _ _ _ _ _ Hscan Hst) in Hreturns.
  injection Hreturns as _ <- <-.
  apply from_subject_app; [done | apply from_subject_gaps].
Qed.

Lemma hit_row_from_subject (q_seq : str) (l : hit) (t : target) :
  hit_row q_seq l t ->
  from_subject (subject_of l) (fst (fst t)) (snd (fst t)).
Proof.
  intros (hit_seq & cigar & f2 & f3 & header & more & i2 & i3 & aq & s_aln
          & ins & -> & _ & _ & Hfold & ->).
  cbn [fst snd subject_of head default].
  apply from_subject_app; [apply from_subject_gaps|].
  apply (from_subject_mono (slice_from hit_seq (i3 - 1))).
  - intros x Hx. unfold slice_from in Hx. now apply subseteq_drop in Hx.
  - exact (fold_ok_from_subject _ _ _ _ _ _ Hfold).
Qed.

(** ** Reading a written row by character class *)

Lemma concat_pieces_cons (ch : ascii) (rest ins : str) (ins_rest : list str) :
  concat (pieces (ch :: rest) (ins :: ins_rest))
  = ch :: ins ++ concat (pieces rest ins_rest).
Proof.
  unfold pieces. cbn [zip zip_with flat_map]. destruct ins; reflexivity.
Qed.

Lemma strip_cons (c : ascii) (x : str) :
  A3mQuality.strip_a3m_insertions (c :: x)
  = if islower c then A3mQuality.strip_a3m_insertions x
    else c :: A3mQuality.strip_a3m_insertions x.
Proof.
  unfold A3mQuality.strip_a3m_insertions. cbn [List.filter].
  now destruct (islower c).
Qed.

Lemma strip_app (x y : str) :
  A3mQuality.strip_a3m_insertions (x ++ y)
  = A3mQuality.strip_a3m_insertions x ++ A3mQuality.strip_a3m_insertions y.
Proof. apply List.filter_app. Qed.

Lemma strip_lower_case (x : str) :
  Forall (fun c => islower c = true) x ->
  A3mQuality.strip_a3m_insertions x = [].
Proof.
  unfold A3mQuality.strip_a3m_insertions.
  induction 1 as [|c x Hc _ IH]; [done|]. cbn [List.filter].
  now rewrite Hc.
Qed.

Lemma strip_no_lower_case (x : str) :
  no_lower_case x -> A3mQuality.strip_a3m_insertions x = x.
Proof.
  unfold A3mQuality.strip_a3m_insertions.
  induction 1 as [|c x Hc _ IH]; [done|]. cbn [List.filter].
  rewrite Hc. cbn [negb]. now rewrite IH.
Qed.

Lemma strip_pieces (sequence s_full : str) (ins_full : list str) :
  upper_case sequence -> from_subject sequence s_full ins_full ->
  length s_full = length ins_full ->
  A3mQuality.strip_a3m_insertions (concat (pieces s_full ins_full)) = s_full.
Proof.
  intros Hupper. revert ins_full.
  induction s_full as [|ch rest IH]; intros [|ins ins_rest] [Hc Hi] Hl;
    try done.
  injection Hl as Hl. rewrite concat_pieces_cons.
  apply Forall_cons in Hc as [Hch Hc]. apply Forall_cons in Hi as [Hins Hi].
  assert (islower ch = false) as Hlow.
  { destruct Hch as [-> | Hin]; [reflexivity|].
    apply isupper_not_lower.
    exact (proj1 (Forall_forall _ _) Hupper ch Hin). }
  rewrite strip_cons, Hlow, strip_app. f_equal.
  rewrite (strip_lower_case ins).
  - now apply IH.
  - eapply Forall_impl; [exact Hins|]. intros c (x & Hx & ->).
    apply isupper_lower. exact (proj1 (Forall_forall _ _) Hupper x Hx).
Qed.

Lemma rows_by_character_class (q_seq : str) (all_hits : list hit)
    (targets : list target) :
  Forall2 (fun l t => from_subject (subject_of l) (fst (fst t)) (snd (fst t)))
    all_hits targets ->
  Forall (fun l => upper_case (subject_of l)) all_hits ->
  Forall (fun t => len (fst (fst t)) = len q_seq
                   /\ len (snd (fst t)) = len q_seq) targets ->
  Forall (fun t =>
            A3mQuality.strip_a3m_insertions (row t) = fst (fst t)
            /\ len (A3mQuality.strip_a3m_insertions (row t)) = len q_seq)
    targets.
Proof.
  induction 1 as [|l [[s_full ins_full] header] hits ts Hfrom _ IH];
    intros Hupper Hlens; [constructor|].
  apply Forall_cons in Hupper as [Hl Hupper].
  apply Forall_cons in Hlens as [[Hls Hli] Hlens].
  cbn [fst snd] in *. constructor; [|now apply IH].
  assert (A3mQuality.strip_a3m_insertions (row (s_full, ins_full, header))
          = s_full) as Hrow.
  { unfold row. apply (strip_pieces (subject_of l)); [done..|].
    unfold len in *. lia. }
  cbn [fst]. now rewrite Hrow.
Qed.

(** The writer stops before it writes when the file system refuses the
    file. *)
Lemma hits_to_a3m_refused (fs : file_system) (q_seq outfname : str)
    (all_hits : list hit) (e : exn) :
  Forall well_formed_hit all_hits ->
  fs (outfname ++ s ".a3m") = Some e ->
  hits_to_a3m fs q_seq all_hits outfname = Raise e.
Proof.
  intros Hwf Hfs.
  destruct (align_hits_closed (strip q_seq) all_hits Hwf) as (ts & Hts & _).
  unfold hits_to_a3m. rewrite Hts. cbn [bind]. now rewrite Hfs.
Qed.

(** Claim C5, as the code has it.  Take a query whose id is in the FASTA
    dictionary, a list of [n] well-formed hits (at least five fields,
    decimal offsets, a CIGAR string of digits and M/I/D) and a file system
    that opens the output file.  Then [hits_to_a3m] returns, and the
    conversion loop stores, a file whose writes are the query header and
    the stripped query sequence followed by one header and one row per hit,
    in order: 1 + n sequence rows.  Every hit row is the gap prefix of the
    query positions before [q_start] followed by the decoded subject row;
    its column string and its insertion list have exactly the length of the
    stripped query; a column character is a gap or a character of the hit's
    sequence and an insertion character is a lower-cased character of it;
    and taking the insertion strings out of the written row, position by
    position, gives back the column string.  Read by character class, as
    [strip_a3m_insertions] of a3m_quality.py reads these files: when the
    query has no lower-case character and the sequence of every hit is made
    of upper-case letters, removing the lower-case characters from any
    written row leaves exactly as many characters as the query has. *)
Theorem a3m_rows_and_columns (fs : file_system) (queries_seq : gmap str str)
    (q_seq outfname : str) (all_hits : list hit)
    (out_dir : gmap str (list str))
    (Hquery : queries_seq !! outfname = Some q_seq)
    (Hwf : Forall well_formed_hit all_hits)
    (Hopens : fs (outfname ++ s ".a3m") = None) :
  exists targets,
    hits_to_a3m fs q_seq all_hits outfname
    = Ok {| file_name := outfname ++ s ".a3m";
            writes :=
              (s ">" ++ outfname ++ nl) :: (strip q_seq ++ nl)
              :: flat_map (fun t => [s ">" ++ snd t ++ nl; row t ++ nl])
                   targets |}
    /\ conversion_loop fs queries_seq [(outfname, all_hits)] out_dir
       = (<[outfname ++ s ".a3m"
             := a3m_writes (strip q_seq) outfname targets]> out_dir, None)
    /\ length targets = length all_hits
    /\ length (a3m_writes (strip q_seq) outfname targets)
       = (2 * (1 + length all_hits))%nat
    /\ Forall2 (hit_row (strip q_seq)) all_hits targets
    /\ Forall2 (fun l t =>
                  from_subject (subject_of l) (fst (fst t)) (snd (fst t)))
         all_hits targets
    /\ Forall (fun t =>
                 len (fst (fst t)) = len (strip q_seq)
                 /\ len (snd (fst t)) = len (strip q_seq)
                 /\ columns_of (snd (fst t)) (row t) = fst (fst t)
                 /\ len (columns_of (snd (fst t)) (row t))
                    = len (strip q_seq))
         targets
    /\ (no_lower_case (strip q_seq) ->
        Forall (fun l => upper_case (subject_of l)) all_hits ->
        len (A3mQuality.strip_a3m_insertions (strip q_seq))
        = len (strip q_seq)
        /\ Forall (fun t =>
                     A3mQuality.strip_a3m_insertions (row t) = fst (fst t)
                     /\ len (A3mQuality.strip_a3m_insertions (row t))
                        = len (strip q_seq))
             targets).
Proof.
  destruct (align_hits_closed (strip q_seq) all_hits Hwf)
    as (targets & Hts & Hrows & Hlens).
  exists targets. cbn [conversion_loop]. rewrite Hquery.
  unfold hits_to_a3m. rewrite Hts. cbn [bind]. rewrite Hopens.
  pose proof (Forall2_length _ _ _ Hrows) as Hn.
  assert (Forall2 (fun l t =>
                     from_subject (subject_of l) (fst (fst t)) (snd (fst t)))
            all_hits targets) as Hfrom.
  { eapply Forall2_impl; [exact Hrows|]. intros l t.
    apply hit_row_from_subject. }
  split; [done|]. split; [done|]. split; [done|].
  split; [rewrite length_a3m_writes; lia|]. split; [done|].
  split; [exact Hfrom|]. split.
  - eapply Forall_impl; [exact Hlens|].
    intros [[s_full ins_full] header] [Hls Hli]. cbn [fst snd] in *.
    assert (columns_of ins_full (row (s_full, ins_full, header)) = s_full)
      as Hcols.
    { unfold row. apply columns_of_pieces. unfold len in *. lia. }
    rewrite Hcols. done.
  - intros Hquery_case Hupper. split.
    + now rewrite strip_no_lower_case.
    + now apply (rows_by_character_class _ all_hits).
Qed.

Lemma a3m_rows_and_columns_witness :
  Forall well_formed_hit [good_hit "h1"; good_hit "h2"]
  /\ flat_directory (s "q" ++ s ".a3m") = None
  /\ exists targets,
      hits_to_a3m flat_directory (s "FGHIJ") [good_hit "h1"; good_hit "h2"]
        (s "q")
      = Ok {| file_name := s "q.a3m";
              writes := a3m_writes (s "FGHIJ") (s "q") targets |}
      /\ length targets = 2%nat
      /\ Forall (fun t =>
                   len (A3mQuality.strip_a3m_insertions (row t)) = 5)
           targets.
Proof.
  assert (forall h, well_formed_hit (good_hit h)) as Hgood.
  { intros h. unfold well_formed_hit, good_hit.
    do 8 eexists. repeat split; reflexivity. }
  assert (Forall well_formed_hit [good_hit "h1"; good_hit "h2"]) as Hwf
    by (repeat constructor; apply Hgood).
  assert (forall x : str, forallb isupper x = true -> upper_case x) as Hup.
  { intros x Hx. apply Forall_forall. intros c Hc.
    apply list_elem_of_In in Hc.
    exact (proj1 (forallb_forall _ _) Hx c Hc). }
  assert (forall x : str,
            forallb (fun c => negb (islower c)) x = true -> no_lower_case x)
    as Hno.
  { intros x Hx. apply Forall_forall. intros c Hc.
    apply list_elem_of_In in Hc.
    apply negb_true_iff. exact (proj1 (forallb_forall _ _) Hx c Hc). }
  split; [exact Hwf|]. split; [reflexivity|].
  destruct (a3m_rows_and_columns flat_directory (<[s "q" := s "FGHIJ"]> ∅)
              (s "FGHIJ") (s "q") _ ∅ (lookup_insert_eq _ _ _) Hwf eq_refl)
    as (targets & Hfile & _ & Hn & _ & _ & _ & _ & Hclass).
  exists targets. split; [exact Hfile|]. split; [exact Hn|].
  destruct Hclass as [_ Hrows].
  - apply Hno. reflexivity.
  - repeat constructor; apply Hup; reflexivity.
  - eapply Forall_impl; [exact Hrows|]. intros t [_ Hlen]. exact Hlen.
Defined.

(** Where the claim as first stated fails.  In an output directory without
    subdirectories the file of the query id fam/1-5 cannot be opened:
    [hits_to_a3m] raises and the run ends with nothing written.  A hit
    with three fields makes it raise [IndexError].  A hit whose sequence is
    in lower case gives the row abc, of which nothing is left once the
    lower-case characters are removed; a hit whose sequence has a star in a
    D run gives the row AB*C, of which four characters are left; the query
    has three. *)
Lemma a3m_rows_and_columns_need_conditions :
  hits_to_a3m flat_directory (s "FGHIJ") [good_hit "h1"] (s "fam/1-5")
  = Raise (OSError (s "fam/1-5.a3m"))
  /\ conversion_loop flat_directory (<[s "fam/1-5" := s "FGHIJ"]> ∅)
       [(s "fam/1-5", [good_hit "h1"])] ∅
     = (∅, Some (OSError (s "fam/1-5.a3m")))
  /\ hits_to_a3m flat_directory (s "FGH") [short_hit] (s "q")
     = Raise IndexError
  /\ hits_to_a3m flat_directory (s "FGH") [lower_case_hit] (s "q")
     = Ok {| file_name := s "q.a3m";
             writes := [s ">q" ++ nl; s "FGH" ++ nl;
                        s ">h" ++ nl; s "abc" ++ nl] |}
  /\ len (A3mQuality.strip_a3m_insertions (s "abc")) = 0
  /\ hits_to_a3m flat_directory (s "FGH") [starred_hit] (s "q")
     = Ok {| file_name := s "q.a3m";
             writes := [s ">q" ++ nl; s "FGH" ++ nl;
                        s ">h" ++ nl; s "AB*C" ++ nl] |}
  /\ len (A3mQuality.strip_a3m_insertions (s "AB*C")) = 4
  /\ len (s "FGH") = 3.
Proof. repeat split; reflexivity. Qed.

Example a3m_of_one_hit :
  hits_to_a3m flat_directory (s "FGHIJ") [good_hit "h1"] (s "q")
  = Ok {| file_name := s "q.a3m";
          writes := [s ">q" ++ nl; s "FGHIJ" ++ nl;
                     s ">h1" ++ nl; s "ABCde--" ++ nl] |}.
Proof. reflexivity. Qed.

(** ** A malformed operator ends the whole run *)

Lemma scan_app sequence query pre post acc :
  scan sequence query (pre ++ post) acc
  = bind (scan sequence query pre acc) (scan sequence query post).
Proof.
  revert acc. induction pre as [|c pre IH]; intros acc; [done|].
  cbn [app scan]. destruct (step sequence query c acc); [apply IH | done].
Qed.

Lemma step_invalid sequence query c acc :
  isdigit c = false -> c <> "M"%char -> c <> "I"%char -> c <> "D"%char ->
  step sequence query c acc = Raise (invalid_cigar c).
Proof.
  intros Hd HM HI HD. destruct acc as [index st]. unfold step.
  rewrite Hd. apply Ascii.eqb_neq in HM, HI, HD. now rewrite HM, HI, HD.
Qed.

Lemma fold_invalid sequence query pre c rest :
  valid_cigar pre ->
  isdigit c = false -> c <> "M"%char -> c <> "I"%char -> c <> "D"%char ->
  cigar_to_alignment_fold (pre ++ c :: rest) sequence query
  = Raise (invalid_cigar c).
Proof.
  intros Hpre Hd HM HI HD. unfold cigar_to_alignment_fold.
  rewrite scan_app.
  destruct (scan_consistent sequence query pre 0 init Hpre
              (consistent_init sequence query)) as (index & st & -> & _).
  cbn [bind scan]. now rewrite step_invalid.
Qed.

Lemma align_hits_raise q_seq ok_hits l rest e :
  Forall well_formed_hit ok_hits -> align_hit q_seq l = Raise e ->
  align_hits q_seq (ok_hits ++ l :: rest) = Raise e.
Proof.
  intros Hok Hl. induction Hok as [|h hs Hh _ IH]; cbn [app align_hits].
  - now rewrite Hl.
  - destruct (align_hit_closed q_seq h Hh) as (t & -> & _).
    cbn [bind]. now rewrite IH.
Qed.

Lemma conversion_loop_app fs queries before after out out1 :
  conversion_loop fs queries before out = (out1, None) ->
  conversion_loop fs queries (before ++ after) out
  = conversion_loop fs queries after out1.
Proof.
  revert out. induction before as [|[query all_hits] before IH]; intros out.
  - cbn. now intros [= ->].
  - cbn [app conversion_loop]. destruct (queries !! query) as [q_seq|];
      [|apply IH].
    destruct (hits_to_a3m fs q_seq all_hits query); [apply IH | done].
Qed.

(** Claim C2, as the code has it.  A CIGAR character that is neither a
    digit nor one of M, I, D makes the decoder raise [ValueError] with the
    message built from that character.  Nothing handles it: [hits_to_a3m]
    raises the same error before it opens the output file, and the
    conversion loop ends there with that error; the directory holds what
    the queries before had written, and neither the current query nor any
    query after it gets a file from this run. *)
Theorem malformed_cigar_aborts_run (fs : file_system)
    (queries : gmap str str) (before after : list (str * list hit))
    (query q_seq : str) (ok_hits rest_hits : list hit)
    (hit_seq pre rest f2 f3 header : str) (more : hit) (c : ascii)
    (i2 i3 : Z) (out out1 : gmap str (list str))
    (Hpre : valid_cigar pre)
    (Hdigit : isdigit c = false)
    (HM : c <> "M"%char) (HI : c <> "I"%char) (HD : c <> "D"%char)
    (Hi2 : int f2 = Ok i2) (Hi3 : int f3 = Ok i3)
    (Hok : Forall well_formed_hit ok_hits)
    (Hquery : queries !! query = Some q_seq)
    (Hbefore : conversion_loop fs queries before out = (out1, None)) :
  let l := hit_seq :: (pre ++ c :: rest) :: f2 :: f3 :: header :: more in
  let all_hits := ok_hits ++ l :: rest_hits in
  cigar_to_alignment_fold (pre ++ c :: rest) (slice_from hit_seq (i3 - 1))
    (slice_from (strip q_seq) (i2 - 1))
  = Raise (invalid_cigar c)
  /\ hits_to_a3m fs q_seq all_hits query = Raise (invalid_cigar c)
  /\ conversion_loop fs queries (before ++ (query, all_hits) :: after) out
     = (out1, Some (invalid_cigar c)).
Proof.
  intros l all_hits.
  assert (cigar_to_alignment_fold (pre ++ c :: rest)
            (slice_from hit_seq (i3 - 1)) (slice_from (strip q_seq) (i2 - 1))
          = Raise (invalid_cigar c)) as Hfold by now apply fold_invalid.
  assert (align_hit (strip q_seq) l = Raise (invalid_cigar c)) as Hl.
  { unfold align_hit, l.
    assert (forall k x, l !! Z.to_nat k = Some x -> 0 <= k ->
                        getitem l k = Ok x) as Hget
      by (intros; now apply getitem_lookup).
    unfold l in Hget.
    rewrite (Hget 1 (pre ++ c :: rest)), (Hget 4 header), (Hget 2 f2),
      (Hget 3 f3), (Hget 0 hit_seq) by (done || lia).
    cbn [bind]. rewrite Hi2, Hi3. cbn [bind]. now rewrite Hfold. }
  assert (hits_to_a3m fs q_seq all_hits query = Raise (invalid_cigar c))
    as Hh.
  { unfold hits_to_a3m, all_hits. now rewrite (align_hits_raise _ _ _ _ _ Hok Hl). }
  split; [done|]. split; [done|].
  rewrite (conversion_loop_app _ _ _ _ _ _ Hbefore).
  cbn [conversion_loop]. now rewrite Hquery, Hh.
Qed.

Lemma malformed_cigar_aborts_run_witness :
  conversion_loop flat_directory example_queries
    ([] ++ (s "q1", [] ++ bad_hit "h1" :: []) :: [(s "q2", [good_hit "h2"])])
    ∅
  = (∅, Some (invalid_cigar "X")).
Proof.
  refine (proj2 (proj2
    (malformed_cigar_aborts_run flat_directory example_queries []
       [(s "q2", [good_hit "h2"])]
       (s "q1") (s "FGHIJ") [] [] (s "ABCDE") (s "3") (s "2I")
       (s "1") (s "1") (s "h1") [] "X" 1 1 ∅ ∅ _ _ _ _ _ _ _ _ _ _)));
    try reflexivity; try discriminate; try constructor.
Defined.

(** A batch of two queries: the first has a hit with operator X, the
    second is sound.  The run ends with the error, writes nothing, and in
    particular does not go on to the second query, which on its own
    converts. *)
Lemma malformed_cigar_not_caught :
  conversion_loop flat_directory example_queries example_batch ∅
  = (∅, Some (invalid_cigar "X"))
  /\ is_ok (hits_to_a3m flat_directory (s "FGHIJ") [good_hit "h2"] (s "q2"))
  /\ ~ (exists out,
          conversion_loop flat_directory example_queries example_batch ∅
          = (out, None)
          /\ is_Some (out !! s "q2.a3m")).
Proof.
  assert (conversion_loop flat_directory example_queries example_batch ∅
          = (∅, Some (invalid_cigar "X"))) as Hrun by reflexivity.
  split; [exact Hrun|]. split; [eexists; reflexivity|].
  intros (out & Hout & _). rewrite Hrun in Hout. discriminate.
Qed.

Example decode_3M2D2I :
  cigar_to_alignment_fold (s "3M2D2I") (s "ABCDE") (s "FGHIJ")
  = Ok (s "FGHIJ", s "ABC--", [[]; []; s "de"; []; []]).
Proof. reflexivity. Qed.

End Dia2a3mFacts.

(* ===================================================================== *)
(** * dia2a3m.py: further properties of the decoder                        *)
(* ===================================================================== *)

Module Dia2a3mMore.
Import Dia2a3m Dia2a3mFacts.

(** ** Whatever the decoder returns has the shape of the query *)

Lemma slice_to_from {A} (l : list A) (i : Z) :
  slice_to l i ++ slice_from l i = l.
Proof. unfold slice_to, slice_from. apply take_drop. Qed.

Lemma fold_ok_shape (cigar_string sequence query : str)
    (alignment_q alignment_s : str) (insertions : list str) :
  cigar_to_alignment_fold cigar_string sequence query
  = Ok (alignment_q, alignment_s, insertions) ->
  alignment_q = query
  /\ len alignment_s = len query
  /\ len insertions = len query.
Proof.
  intros Hreturns. unfold cigar_to_alignment_fold in Hreturns.
  destruct (scan sequence query cigar_string (0, init)) as [[index st]|e]
    eqn:Hscan; cbn [bind snd] in Hreturns; [|discriminate].
  assert (consistent sequence query st) as Hst
    by exact (scan_ok_consistent _ _ _ _ _ Hscan (consistent_init _ _)).
  pose proof (fold_closed _ _ _ _ _ Hscan Hst) as Hfold.
  unfold cigar_to_alignment_fold in Hfold. rewrite Hscan in Hfold.
  cbn [bind snd] in Hfold. rewrite Hfold in Hreturns.
  injection Hreturns as <- <- <-.
  destruct (fold_lengths _ _ _ Hst) as [Hls Hli].
  destruct Hst as [Hqr Hsr Hqc Hsc Hic Hcl].
  split; [|done]. rewrite Hqc. apply slice_to_from.
Qed.

(** Extra X1.  Whenever the decoder returns, for any CIGAR string at all,
    the aligned query string is the query slice itself, and the subject
    row and the insertion list have one entry per query character. *)
Theorem decoder_output_shape (cigar_string sequence query : str)
    (alignment_q alignment_s : str) (insertions : list str)
    (Hreturns : cigar_to_alignment_fold cigar_string sequence query
                = Ok (alignment_q, alignment_s, insertions)) :
  alignment_q = query
  /\ len alignment_s = len query
  /\ len insertions = len query.
Proof.
  destruct (fold_ok_shape _ _ _ _ _ _ Hreturns) as (Hq & Hs & Hi).
  split; [exact Hq|]. split; [exact Hs | exact Hi].
Qed.

Lemma decoder_output_shape_witness :
  cigar_to_alignment_fold (s "9M") (s "AB") (s "FGHIJ")
  = Ok (s "FGHIJ", s "AB---", [[]; []; []; []; []])
  /\ len (s "AB---") = len (s "FGHIJ").
Proof.
  split; [reflexivity|].
  exact (proj1 (proj2 (decoder_output_shape (s "9M") (s "AB") (s "FGHIJ")
                         _ _ _ eq_refl))).
Defined.

(** ** Digits without an operator, operators without a count *)

Lemma scan_digits sequence query digits index st :
  forallb is_ascii_digit digits = true ->
  exists index',
    scan sequence query digits (index, st) = Ok (index', st).
Proof.
  revert index. induction digits as [|c rest IH]; intros index Hd.
  - now exists index.
  - cbn in Hd. apply andb_true_iff in Hd as [Hc Hrest].
    cbn [scan]. rewrite step_digit by done. cbn [bind]. now apply IH.
Qed.

Lemma step_countless sequence query op st :
  op = "M"%char \/ op = "I"%char \/ op = "D"%char ->
  consistent sequence query st ->
  step sequence query op (0, st) = Ok (0, st).
Proof.
  intros Hop Hst. pose proof Hst as [Hqr Hsr Hqc Hsc Hic Hcl].
  destruct Hop as [-> | [-> | ->]].
  - rewrite step_M by done. cbn [Z.to_nat Z.of_nat]. rewrite Z.min_l by lia.
    now rewrite after_M_zero by lia.
  - rewrite step_I by done. cbn [Z.to_nat Z.of_nat]. rewrite Z.min_l by lia.
    now rewrite after_I_zero by lia.
  - rewrite step_D by done. cbn [Z.to_nat Z.of_nat]. rewrite Z.min_l by lia.
    now rewrite after_D_zero by lia.
Qed.

Lemma step_operator_resets sequence query op index st index' st' :
  op = "M"%char \/ op = "I"%char \/ op = "D"%char ->
  consistent sequence query st ->
  step sequence query op (index, st) = Ok (index', st') -> index' = 0.
Proof.
  intros Hop Hst Hstep. destruct Hop as [-> | [-> | ->]].
  - rewrite step_M in Hstep by done. now injection Hstep as <- _.
  - rewrite step_I in Hstep by done. now injection Hstep as <- _.
  - rewrite step_D in Hstep by done. now injection Hstep as <- _.
Qed.

(** Extra X2.  Digits that no operator follows are ignored, and an operator
    that follows another operator directly (so with no count) does nothing:
    dropping either from a CIGAR string leaves the result of the decoder,
    value or exception, as it was. *)
Theorem countless_and_dangling
    (cigar_string pre rest digits sequence query : str) (op1 op2 : ascii)
    (Hpre : valid_cigar pre)
    (Hop1 : op1 = "M"%char \/ op1 = "I"%char \/ op1 = "D"%char)
    (Hop2 : op2 = "M"%char \/ op2 = "I"%char \/ op2 = "D"%char)
    (Hdigits : forallb is_ascii_digit digits = true) :
  cigar_to_alignment_fold (cigar_string ++ digits) sequence query
  = cigar_to_alignment_fold cigar_string sequence query
  /\ cigar_to_alignment_fold (pre ++ op1 :: op2 :: rest) sequence query
     = cigar_to_alignment_fold (pre ++ op1 :: rest) sequence query.
Proof.
  split.
  - unfold cigar_to_alignment_fold. rewrite scan_app.
    destruct (scan sequence query cigar_string (0, init)) as [[index st]|e];
      cbn [bind]; [|done].
    destruct (scan_digits sequence query digits index st Hdigits)
      as [index' ->]. done.
  - unfold cigar_to_alignment_fold. rewrite !scan_app.
    destruct (scan_consistent sequence query pre 0 init Hpre
                (consistent_init _ _)) as (index & st & -> & Hst).
    cbn [bind scan].
    destruct (step sequence query op1 (index, st)) as [[i1 st1]|e] eqn:Hstep;
      cbn [bind]; [|done].
    assert (i1 = 0) as -> by exact (step_operator_resets _ _ _ _ _ _ _ Hop1
                                      Hst Hstep).
    assert (consistent sequence query st1) as Hst1
      by exact (step_ok_consistent _ _ _ _ _ _ _ Hstep Hst).
    now rewrite (step_countless _ _ _ _ Hop2 Hst1).
Qed.

Lemma countless_and_dangling_witness :
  cigar_to_alignment_fold (s "3M" ++ s "12") (s "ABCDE") (s "FGHIJ")
  = cigar_to_alignment_fold (s "3M") (s "ABCDE") (s "FGHIJ")
  /\ cigar_to_alignment_fold (s "3" ++ "M"%char :: "D"%char :: s "2I")
       (s "ABCDE") (s "FGHIJ")
     = cigar_to_alignment_fold (s "3" ++ "M"%char :: s "2I")
         (s "ABCDE") (s "FGHIJ").
Proof.
  apply (countless_and_dangling (s "3M") (s "3") (s "2I") (s "12")
           (s "ABCDE") (s "FGHIJ") "M" "D").
  - reflexivity.
  - now left.
  - now right; right.
  - reflexivity.
Defined.

(** ** The residues of a row are a stretch of the subject *)

Lemma residues_app (a1 a2 : str) (i1 i2 : list str) :
  length a1 = length i1 ->
  residues_of_row (a1 ++ a2) (i1 ++ i2)
  = residues_of_row a1 i1 ++ residues_of_row a2 i2.
Proof.
  intros Hl. unfold residues_of_row.
  rewrite zip_with_app by done. apply concat_app.
Qed.

Lemma residues_plain (x : str) :
  "-"%char ∉ x ->
  residues_of_row x (replicate (length x) []) = map lower x.
Proof.
  induction x as [|c x IH]; intros Hgap; [done|].
  cbn [length replicate]. unfold residues_of_row in *.
  cbn [zip_with concat map].
  destruct (Ascii.eqb c "-") eqn:Hc.
  { apply Ascii.eqb_eq in Hc as ->. exfalso. apply Hgap. now left. }
  rewrite app_nil_r. cbn. f_equal. apply IH. intros Hin. apply Hgap. now right.
Qed.

Lemma residues_gaps (k : nat) :
  residues_of_row (replicate k "-"%char) (replicate k []) = [].
Proof.
  induction k as [|k IH]; [done|]. unfold residues_of_row in *. cbn. exact IH.
Qed.

Lemma residues_alter_last (a : str) (ins : list str) (x : str) (n : nat) :
  length a = S n -> length ins = S n ->
  residues_of_row a (alter (fun old => old ++ x) n ins)
  = residues_of_row a ins ++ x.
Proof.
  revert a ins. induction n as [|n IH]; intros [|c a] [|i ins] Ha Hi;
    try discriminate.
  - destruct a, ins; try discriminate. unfold residues_of_row. cbn.
    rewrite !app_nil_r. now rewrite <- !app_assoc.
  - injection Ha as Ha. injection Hi as Hi.
    change (alter (fun old => old ++ x) (S n) (i :: ins))
      with (i :: alter (fun old => old ++ x) n ins).
    specialize (IH a ins Ha Hi). unfold residues_of_row in *.
    cbn [zip_with concat]. rewrite IH. now rewrite <- !app_assoc.
Qed.

Lemma slice_slice {A} (l : list A) (a b c : Z) :
  0 <= a <= b -> b <= c -> slice l a b ++ slice l b c = slice l a c.
Proof.
  intros Hab Hbc. rewrite !slice_take_drop by lia.
  replace (Z.to_nat b) with (Z.to_nat a + Z.to_nat (b - a))%nat by lia.
  rewrite <- drop_drop, take_take_drop. f_equal. lia.
Qed.

Lemma traced_init sequence : traced sequence init.
Proof.
  exists 0. cbn [init alignment_s insertions s_curr q_curr].
  repeat split; try lia. now rewrite slice_empty.
Qed.

Lemma traced_after_M sequence query k st :
  "-"%char ∉ sequence -> consistent sequence query st ->
  0 <= k -> k <= len query - q_curr st -> k <= len sequence - s_curr st ->
  traced sequence st -> traced sequence (after_M sequence query k st).
Proof.
  intros Hgap [Hqr Hsr Hqc Hsc Hic Hcl] Hk Hkq Hks (d0 & Hd0 & Hfirst & Htr).
  exists d0. cbn [after_M alignment_s insertions s_curr q_curr].
  split; [lia|]. split; [lia|].
  rewrite residues_app by (unfold len in *; lia). rewrite Htr.
  unfold times.
  replace (Z.to_nat k)
    with (length (slice sequence (s_curr st) (s_curr st + k))).
  2:{ pose proof (len_slice sequence (s_curr st) (s_curr st + k)) as Hl.
      unfold len in *. lia. }
  rewrite residues_plain.
  2:{ intros Hin. apply Hgap. now apply slice_subseteq in Hin; [|lia]. }
  rewrite <- map_app. now rewrite slice_slice by lia.
Qed.

Lemma traced_after_I sequence query k st :
  consistent sequence query st -> 0 <= k -> k <= len query - q_curr st ->
  traced sequence st -> traced sequence (after_I query k st).
Proof.
  intros [Hqr Hsr Hqc Hsc Hic Hcl] Hk Hkq (d0 & Hd0 & Hfirst & Htr).
  exists d0. cbn [after_I alignment_s insertions s_curr q_curr].
  split; [lia|]. split; [intros; apply Hfirst; lia|].
  rewrite residues_app by (unfold len in *; lia). rewrite Htr.
  unfold times. now rewrite residues_gaps, app_nil_r.
Qed.

Lemma traced_after_D sequence query k st :
  consistent sequence query st -> 0 <= k -> k <= len sequence - s_curr st ->
  traced sequence st -> traced sequence (after_D sequence k st).
Proof.
  intros [Hqr Hsr Hqc Hsc Hic Hcl] Hk Hks (d0 & Hd0 & Hfirst & Htr).
  destruct (Z.geb_spec (col st) 0) as [Hcol|Hcol].
  - exists d0. cbn [after_D alignment_s insertions s_curr q_curr].
    split; [lia|]. split; [lia|].
    destruct (Z.geb_spec (col st) 0); [|lia].
    rewrite residues_alter_last by (unfold len in *; lia).
    rewrite Htr, <- map_app. now rewrite slice_slice by lia.
  - exists (s_curr st + k). cbn [after_D alignment_s insertions s_curr q_curr].
    split; [lia|]. split; [done|].
    destruct (Z.geb_spec (col st) 0); [lia|].
    rewrite Htr, Hfirst by lia. now rewrite !slice_empty by lia.
Qed.

Lemma step_ok_traced sequence query c index st index' st' :
  "-"%char ∉ sequence ->
  step sequence query c (index, st) = Ok (index', st') ->
  consistent sequence query st -> traced sequence st -> traced sequence st'.
Proof.
  intros Hgap Hstep Hst Htr. pose proof Hst as [Hqr Hsr Hqc Hsc Hic Hcl].
  destruct (isdigit c) eqn:Hd.
  { unfold step in Hstep. rewrite Hd in Hstep.
    destruct (int_of_char c); cbn in Hstep; [|discriminate].
    now injection Hstep as _ <-. }
  destruct (Ascii.eqb c "M") eqn:HM.
  { apply Ascii.eqb_eq in HM as ->. rewrite step_M in Hstep by done.
    injection Hstep as _ <-. apply traced_after_M; (done || lia). }
  destruct (Ascii.eqb c "I") eqn:HI.
  { apply Ascii.eqb_eq in HI as ->. rewrite step_I in Hstep by done.
    injection Hstep as _ <-. apply (traced_after_I sequence); (done || lia). }
  destruct (Ascii.eqb c "D") eqn:HD.
  { apply Ascii.eqb_eq in HD as ->. rewrite step_D in Hstep by done.
    injection Hstep as _ <-. apply (traced_after_D _ query); (done || lia). }
  unfold step in Hstep. rewrite Hd, HM, HI, HD in Hstep. discriminate.
Qed.

Lemma scan_ok_traced sequence query cigar_string acc acc' :
  "-"%char ∉ sequence ->
  scan sequence query cigar_string acc = Ok acc' ->
  consistent sequence query (snd acc) -> traced sequence (snd acc) ->
  traced sequence (snd acc').
Proof.
  intros Hgap. revert acc.
  induction cigar_string as [|c rest IH]; intros acc Hscan Hst Htr.
  - cbn in Hscan. now injection Hscan as <-.
  - cbn [scan] in Hscan.
    destruct (step sequence query c acc) as [[i1 st1]|e] eqn:Hstep;
      cbn [bind] in Hscan; [|discriminate].
    destruct acc as [index st]. apply (IH _ Hscan).
    + now apply (step_ok_consistent _ _ _ _ _ _ _ Hstep).
    + now apply (step_ok_traced _ _ _ _ _ _ _ Hgap Hstep).
Qed.

(** Extra X3.  For a subject slice without gap characters, whenever the
    decoder returns, the residues of the row (each column character that is
    not a gap, followed by the insertion of its column, in lower case) are
    one contiguous stretch of the subject slice in lower case: no subject
    character is duplicated, reordered or skipped inside the stretch. *)
Theorem row_is_a_stretch_of_the_subject (cigar_string sequence query : str)
    (alignment_q alignment_s : str) (insertions : list str)
    (Hgap : "-"%char ∉ sequence)
    (Hreturns : cigar_to_alignment_fold cigar_string sequence query
                = Ok (alignment_q, alignment_s, insertions)) :
  exists d0 s_end,
    0 <= d0 <= s_end /\ s_end <= len sequence
    /\ residues_of_row alignment_s insertions
       = map lower (slice sequence d0 s_end).
Proof.
  unfold cigar_to_alignment_fold in Hreturns.
  destruct (scan sequence query cigar_string (0, init)) as [[index st]|e]
    eqn:Hscan; cbn [bind snd] in Hreturns; [|discriminate].
  assert (consistent sequence query st) as Hst
    by exact (scan_ok_consistent _ _ _ _ _ Hscan (consistent_init _ _)).
  assert (traced sequence st) as Htr
    by exact (scan_ok_traced _ _ _ _ _ Hgap Hscan (consistent_init _ _)
                (traced_init _)).
  pose proof Hst as [Hqr Hsr Hqc Hsc Hic Hcl].
  rewrite (drain_closed sequence) in Hreturns
    by (done || unfold len in *; lia).
  cbn [bind] in Hreturns. injection Hreturns as _ <- <-.
  destruct (traced_after_I sequence query (len query - q_curr st) st)
    as (d0 & Hd0 & _ & Hres); [done|lia|lia|done|].
  exists d0, (s_curr st).
  cbn [after_I alignment_s insertions s_curr q_curr] in Hd0, Hres.
  split; [lia|]. split; [lia|done].
Qed.

Lemma row_is_a_stretch_of_the_subject_witness :
  exists d0 s_end,
    0 <= d0 <= s_end /\ s_end <= len (s "ABCDE")
    /\ residues_of_row (s "ABC--") [[]; []; s "de"; []; []]
       = map lower (slice (s "ABCDE") d0 s_end).
Proof.
  apply (row_is_a_stretch_of_the_subject (s "3M2D2I") (s "ABCDE") (s "FGHIJ")
           (s "FGHIJ")).
  - intros Hin. apply list_elem_of_In in Hin. cbn in Hin.
    repeat (destruct Hin as [Hin|Hin]; [discriminate|]). exact Hin.
  - reflexivity.
Defined.

(** ** Grouping the hits *)

Lemma dict_get_append_eq key v d :
  dict_get key (dict_append key v d)
  = Some (default [] (dict_get key d) ++ [v]).
Proof.
  induction d as [|[k vs] d IH]; cbn [dict_append dict_get].
  - now rewrite decide_True.
  - destruct (decide (key = k)) as [->|Hne]; cbn [dict_get].
    + now rewrite decide_True.
    + now rewrite decide_False.
Qed.

Lemma dict_get_append_ne key key' v d :
  key <> key' -> dict_get key' (dict_append key v d) = dict_get key' d.
Proof.
  intros Hne. induction d as [|[k vs] d IH]; cbn [dict_append dict_get].
  - now rewrite decide_False by congruence.
  - destruct (decide (key = k)) as [->|Hk]; cbn [dict_get].
    + now rewrite !decide_False by congruence.
    + destruct (decide (key' = k)); [done | exact IH].
Qed.

Lemma dict_get_None key d : dict_get key d = None <-> key ∉ d.*1.
Proof.
  induction d as [|[k vs] d IH]; cbn [dict_get fmap list_fmap fst].
  - split; [intros _ Hin; now apply elem_of_nil in Hin | done].
  - rewrite not_elem_of_cons. destruct (decide (key = k)) as [->|Hne].
    + split; [done | tauto].
    + rewrite IH. tauto.
Qed.

Lemma dict_append_keys key v d :
  (dict_append key v d).*1
  = if decide (key ∈ d.*1) then d.*1 else d.*1 ++ [key].
Proof.
  induction d as [|[k vs] d IH]; cbn [dict_append fmap list_fmap fst].
  - rewrite decide_False; [done|]. intros Hin. now apply elem_of_nil in Hin.
  - destruct (decide (key = k)) as [->|Hne]; cbn [fmap list_fmap fst].
    + rewrite decide_True; [done | now left].
    + change (list_fmap _ _ fst (dict_append key v d))
        with ((dict_append key v d).*1).
      change (list_fmap _ _ fst d) with (d.*1) in *.
      rewrite IH. destruct (decide (key ∈ d.*1)) as [Hin|Hin].
      * rewrite decide_True; [done | now right].
      * rewrite decide_False; [done|]. rewrite not_elem_of_cons. tauto.
Qed.

Lemma dict_append_NoDup key v d : NoDup d.*1 -> NoDup (dict_append key v d).*1.
Proof.
  intros Hd. rewrite dict_append_keys. destruct (decide (key ∈ d.*1)); [done|].
  apply NoDup_app. split; [done|]. split; [|apply NoDup_singleton].
  intros x Hx Hk. apply list_elem_of_singleton in Hk as ->. done.
Qed.

Lemma hits_of_snoc key tokens l :
  hits_of key (tokens ++ [l])
  = hits_of key tokens
    ++ (if decide (head l = Some key) then [drop 1 l] else []).
Proof.
  unfold hits_of. rewrite filter_app, map_app. f_equal.
  cbn. destruct (decide (head l = Some key)); done.
Qed.

Lemma grouped_step tokens d key tl :
  grouped tokens d ->
  grouped (tokens ++ [key :: tl])
    (dict_append key (slice_from (key :: tl) 1) d).
Proof.
  intros [Hnd Hget]. split; [now apply dict_append_NoDup|].
  intros k. rewrite hits_of_snoc. rewrite slice_from_drop by lia.
  change (Z.to_nat 1) with 1%nat. cbn [head].
  destruct (decide (key = k)) as [->|Hne].
  - rewrite dict_get_append_eq, Hget, decide_True by done.
    assert (default [] (match hits_of k tokens with
                        | [] => None
                        | hs => Some hs
                        end) = hits_of k tokens) as ->
      by now destruct (hits_of k tokens).
    now destruct (hits_of k tokens).
  - rewrite dict_get_append_ne, Hget by done.
    rewrite decide_False by congruence. now rewrite app_nil_r.
Qed.

Lemma group_lines_grouped rest tokens d :
  grouped tokens d -> Forall (fun l => l <> []) rest ->
  exists d', group_lines rest d = Ok d' /\ grouped (tokens ++ rest) d'.
Proof.
  revert tokens d. induction rest as [|l rest IH]; intros tokens d Hg Hne.
  - exists d. now rewrite app_nil_r.
  - apply Forall_cons in Hne as [Hl Hrest]. destruct l as [|key tl]; [done|].
    cbn [group_lines].
    rewrite (getitem_lookup _ 0 key) by (done || lia). cbn [bind].
    destruct (IH (tokens ++ [key :: tl]) _ (grouped_step _ _ key tl Hg) Hrest)
      as (d' & Hd' & Hg').
    exists d'. split; [done|]. now rewrite <- app_assoc in Hg'.
Qed.

Lemma group_lines_blank before after d :
  Forall (fun l => l <> []) before ->
  group_lines (before ++ [] :: after) d = Raise IndexError.
Proof.
  revert d. induction before as [|l before IH]; intros d Hne.
  - reflexivity.
  - apply Forall_cons in Hne as [Hl Hrest]. destruct l as [|key tl]; [done|].
    cbn [app group_lines].
    rewrite (getitem_lookup _ 0 key) by (done || lia). cbn [bind].
    now apply IH.
Qed.

Lemma split_from_blank x : forallb isspace x = true -> split_from [] x = [].
Proof.
  induction x as [|c x IH]; [done|]. cbn [forallb split_from].
  intros [Hc Hx]%andb_true_iff. rewrite Hc. now apply IH.
Qed.

(** Extra X4.  When every line has at least one field, [hits_per_query]
    returns a dictionary without repeated keys in which each query id that
    starts a line is bound to the remaining fields of exactly the lines it
    starts, in file order, and no other id is bound. *)
Theorem hits_per_query_groups (lines : list str)
    (Hfields : Forall (fun line => split line <> []) lines) :
  exists d,
    hits_per_query lines = Ok d
    /\ NoDup d.*1
    /\ forall key,
        dict_get key d
        = match hits_of key (map split lines) with
          | [] => None
          | hs => Some hs
          end.
Proof.
  destruct (group_lines_grouped (map split lines) [] []) as (d & Hd & Hnd & Hg).
  - split; [constructor | done].
  - now apply Forall_fmap.
  - exists d. done.
Qed.

Lemma hits_per_query_groups_witness :
  exists d,
    hits_per_query [s "q1 ABC 3M 1 1 h1"; s "q2 AB 2M 1 1 h2";
                    s "q1 ABD 3M 1 1 h3"] = Ok d
    /\ dict_get (s "q1") d
       = Some [[s "ABC"; s "3M"; s "1"; s "1"; s "h1"];
               [s "ABD"; s "3M"; s "1"; s "1"; s "h3"]].
Proof.
  destruct (hits_per_query_groups
              [s "q1 ABC 3M 1 1 h1"; s "q2 AB 2M 1 1 h2";
               s "q1 ABD 3M 1 1 h3"]) as (d & Hd & _ & Hget).
  - repeat constructor; discriminate.
  - exists d. split; [exact Hd|]. rewrite Hget. reflexivity.
Defined.

(** Extra X5.  A line of the hits file that holds only whitespace (or
    nothing) makes [hits_per_query] raise [IndexError]; the conversion then
    ends with that error before any file is written. *)
Theorem blank_line_aborts (fs : file_system) (before after : list str)
    (blank : str) (queries_seq : gmap str str) (out_dir : gmap str (list str))
    (Hbefore : Forall (fun line => split line <> []) before)
    (Hblank : forallb isspace blank = true) :
  hits_per_query (before ++ blank :: after) = Raise IndexError
  /\ convert fs queries_seq (before ++ blank :: after) out_dir
     = (out_dir, Some IndexError).
Proof.
  assert (hits_per_query (before ++ blank :: after) = Raise IndexError) as Hh.
  { unfold hits_per_query. rewrite map_app. cbn [map].
    unfold split at 2. rewrite split_from_blank by done.
    apply group_lines_blank. now apply Forall_fmap. }
  split; [exact Hh|]. unfold convert. now rewrite Hh.
Qed.

Lemma blank_line_aborts_witness :
  convert flat_directory example_queries
    [s "q1 ABCDE 3M2D2I 1 1 h1"; s "  "; s "q2 x"] ∅
  = (∅, Some IndexError).
Proof.
  apply (blank_line_aborts flat_directory [s "q1 ABCDE 3M2D2I 1 1 h1"]
           [s "q2 x"] (s "  ")).
  - repeat constructor; discriminate.
  - reflexivity.
Defined.

(** ** The conversion loop *)

(** Extra X6.  A query of the hits file that the FASTA dictionary does not
    hold is skipped: the run gives the same directory and the same outcome
    as if the lines of that query were not there, whatever they hold. *)
Theorem missing_query_is_skipped (fs : file_system)
    (queries_seq : gmap str str)
    (before after : list (str * list hit)) (query : str)
    (all_hits : list hit) (out_dir : gmap str (list str))
    (Hmissing : queries_seq !! query = None) :
  conversion_loop fs queries_seq (before ++ (query, all_hits) :: after)
    out_dir
  = conversion_loop fs queries_seq (before ++ after) out_dir.
Proof.
  revert out_dir. induction before as [|[q hs] before IH]; intros out_dir.
  - cbn [app conversion_loop]. now rewrite Hmissing.
  - cbn [app conversion_loop]. destruct (queries_seq !! q); [|apply IH].
    destruct (hits_to_a3m fs _ hs q); [apply IH | done].
Qed.

Lemma missing_query_is_skipped_witness :
  conversion_loop flat_directory example_queries
    ([(s "q1", [good_hit "h1"])] ++ (s "q9", [bad_hit "h9"])
       :: [(s "q2", [good_hit "h2"])]) ∅
  = conversion_loop flat_directory example_queries
      ([(s "q1", [good_hit "h1"])] ++ [(s "q2", [good_hit "h2"])]) ∅.
Proof.
  apply (missing_query_is_skipped flat_directory example_queries).
  reflexivity.
Defined.

(** Extra X7.  When the hits of every query that the FASTA dictionary holds
    are well formed and the file system opens the file of each such query,
    the conversion loop ends without an exception, and the directory then
    holds, besides what it held before, exactly one file [query.a3m] for
    each query of the hits that is in the dictionary. *)
Theorem conversion_writes_present_queries (fs : file_system)
    (queries_seq : gmap str str)
    (items : list (str * list hit)) (out_dir : gmap str (list str))
    (Hwf : Forall (fun item => is_Some (queries_seq !! fst item) ->
                               Forall well_formed_hit (snd item)
                               /\ fs (fst item ++ s ".a3m") = None) items) :
  exists out_dir',
    conversion_loop fs queries_seq items out_dir = (out_dir', None)
    /\ forall name,
        is_Some (out_dir' !! name)
        <-> is_Some (out_dir !! name)
            \/ exists query all_hits,
                 (query, all_hits) ∈ items
                 /\ is_Some (queries_seq !! query)
                 /\ name = query ++ s ".a3m".
Proof.
  revert out_dir. induction Hwf as [|[query all_hits] items Hitem _ IH];
    intros out_dir.
  - exists out_dir. split; [done|]. intros name. split; [now left|].
    intros [H | (q & hs & Hin & _)]; [done|]. now apply elem_of_nil in Hin.
  - cbn [conversion_loop]. cbn [fst snd] in Hitem.
    destruct (queries_seq !! query) as [q_seq|] eqn:Hq.
    + destruct (Hitem (mk_is_Some _ _ eq_refl)) as [Hhits Hopens].
      destruct (align_hits_closed (strip q_seq) all_hits Hhits)
        as (targets & Hts & _).
      unfold hits_to_a3m. rewrite Hts. cbn [bind]. rewrite Hopens.
      cbn [file_name writes].
      destruct (IH (<[query ++ s ".a3m"
                      := a3m_writes (strip q_seq) query targets]> out_dir))
        as (out' & Hout' & Hfiles).
      exists out'. split; [done|]. intros name. rewrite Hfiles.
      rewrite lookup_insert_is_Some. split.
      * intros [[<- | [_ Hold]] | (q & hs & Hin & Hsome & ->)].
        -- right. exists query, all_hits. split; [now left|].
           split; [now rewrite Hq | done].
        -- now left.
        -- right. exists q, hs. split; [now right | done].
      * intros [Hold | (q & hs & Hin & Hsome & ->)].
        -- left. destruct (decide (query ++ s ".a3m" = name)); [now left|].
           right. done.
        -- apply elem_of_cons in Hin as [[= -> ->] | Hin].
           ++ left. now left.
           ++ right. exists q, hs. done.
    + destruct (IH out_dir) as (out' & Hout' & Hfiles).
      exists out'. split; [done|]. intros name. rewrite Hfiles. split.
      * intros [Hold | (q & hs & Hin & Hsome & ->)]; [now left|].
        right. exists q, hs. split; [now right | done].
      * intros [Hold | (q & hs & Hin & Hsome & ->)]; [now left|].
        apply elem_of_cons in Hin as [[= -> ->] | Hin].
        -- rewrite Hq in Hsome. now destruct Hsome.
        -- right. exists q, hs. done.
Qed.

Lemma conversion_writes_present_queries_witness :
  exists out_dir',
    conversion_loop flat_directory example_queries
      [(s "q1", [good_hit "h1"]); (s "q9", [bad_hit "h9"])] ∅
    = (out_dir', None)
    /\ is_Some (out_dir' !! s "q1.a3m")
    /\ out_dir' !! s "q9.a3m" = None.
Proof.
  destruct (conversion_writes_present_queries flat_directory example_queries
              [(s "q1", [good_hit "h1"]); (s "q9", [bad_hit "h9"])] ∅)
    as (out' & Hout' & Hfiles).
  - constructor; [|constructor; [|constructor]]; cbn [fst snd].
    + intros _. split; [|reflexivity]. constructor; [|constructor].
      unfold well_formed_hit, good_hit. do 8 eexists. repeat split; reflexivity.
    + intros [x Hx]. vm_compute in Hx. discriminate.
  - exists out'. split; [exact Hout'|].
    vm_compute in Hout'. injection Hout' as <-. split; [eexists|]; reflexivity.
Defined.

(** Extra X8.  A hit with fewer than five fields whose offsets, where
    present, are numbers makes [hits_to_a3m] raise [IndexError]; no file is
    opened for the query. *)
Theorem short_hit_line (fs : file_system) (q_seq outfname : str)
    (ok_hits rest_hits : list hit) (l : hit)
    (Hshort : (length l < 5)%nat)
    (Hf2 : forall f, l !! 2%nat = Some f -> is_ok (int f))
    (Hf3 : forall f, l !! 3%nat = Some f -> is_ok (int f))
    (Hok : Forall well_formed_hit ok_hits) :
  align_hit (strip q_seq) l = Raise IndexError
  /\ hits_to_a3m fs q_seq (ok_hits ++ l :: rest_hits) outfname
     = Raise IndexError.
Proof.
  assert (align_hit (strip q_seq) l = Raise IndexError) as Hl.
  { unfold align_hit.
    destruct l as [|a [|b [|c [|d [|e l]]]]]; try reflexivity;
      [| |cbn in Hshort; lia].
    - destruct (Hf2 c eq_refl) as [i2 Hi2].
      rewrite (getitem_lookup _ 0 a), (getitem_lookup _ 1 b),
        (getitem_lookup _ 2 c) by (done || lia).
      cbn [bind]. rewrite Hi2. reflexivity.
    - destruct (Hf2 c eq_refl) as [i2 Hi2]. destruct (Hf3 d eq_refl) as [i3 Hi3].
      rewrite (getitem_lookup _ 0 a), (getitem_lookup _ 1 b),
        (getitem_lookup _ 2 c), (getitem_lookup _ 3 d) by (done || lia).
      cbn [bind]. rewrite Hi2. cbn [bind]. rewrite Hi3. reflexivity. }
  split; [exact Hl|].
  unfold hits_to_a3m. now rewrite (align_hits_raise _ _ _ _ _ Hok Hl).
Qed.

Lemma short_hit_line_witness :
  hits_to_a3m flat_directory (s "FGHIJ")
    ([good_hit "h1"] ++ [s "ABC"; s "3M"; s "1"] :: []) (s "q")
  = Raise IndexError.
Proof.
  refine (proj2 (short_hit_line flat_directory (s "FGHIJ") (s "q")
                   [good_hit "h1"] [] [s "ABC"; s "3M"; s "1"] _ _ _ _)).
  - cbn. lia.
  - intros f [= <-]. eexists. reflexivity.
  - intros f Hf. discriminate.
  - constructor; [|constructor].
    unfold well_formed_hit, good_hit. do 8 eexists. repeat split; reflexivity.
Defined.

(** Extra X9.  When the file system refuses the output file of a query
    whose hits are well formed, [hits_to_a3m] raises what the file system
    answered and the conversion loop ends there: the directory holds what
    the queries before had written, and neither this query nor any query
    after it gets a file from this run. *)
Theorem refused_file_aborts_run (fs : file_system)
    (queries_seq : gmap str str) (before after : list (str * list hit))
    (query q_seq : str) (all_hits : list hit) (e : exn)
    (out out1 : gmap str (list str))
    (Hquery : queries_seq !! query = Some q_seq)
    (Hwf : Forall well_formed_hit all_hits)
    (Hrefused : fs (query ++ s ".a3m") = Some e)
    (Hbefore : conversion_loop fs queries_seq before out = (out1, None)) :
  hits_to_a3m fs q_seq all_hits query = Raise e
  /\ conversion_loop fs queries_seq (before ++ (query, all_hits) :: after) out
     = (out1, Some e).
Proof.
  pose proof (hits_to_a3m_refused fs q_seq query all_hits e Hwf Hrefused)
    as Hh.
  split; [exact Hh|].
  rewrite (conversion_loop_app _ _ _ _ _ _ Hbefore).
  cbn [conversion_loop]. now rewrite Hquery, Hh.
Qed.

Lemma refused_file_aborts_run_witness :
  conversion_loop flat_directory
    (<[s "fam/1-5" := s "FGHIJ"]> example_queries)
    ([(s "q1", [good_hit "h1"])] ++ (s "fam/1-5", [good_hit "h2"])
       :: [(s "q2", [good_hit "h3"])]) ∅
  = (<[s "q1.a3m" := [s ">q1" ++ nl; s "FGHIJ" ++ nl;
                      s ">h1" ++ nl; s "ABCde--" ++ nl]]> ∅,
     Some (OSError (s "fam/1-5.a3m"))).
Proof.
  refine (proj2 (refused_file_aborts_run flat_directory _
                   [(s "q1", [good_hit "h1"])] [(s "q2", [good_hit "h3"])]
                   (s "fam/1-5") (s "FGHIJ") [good_hit "h2"] _ ∅ _ _ _ _ _)).
  - reflexivity.
  - constructor; [|constructor].
    unfold well_formed_hit, good_hit. do 8 eexists. repeat split; reflexivity.
  - reflexivity.
  - reflexivity.
Defined.

End Dia2a3mMore.

(* ===================================================================== *)
(** * The two CIGAR decoders agree                                         *)
(* ===================================================================== *)

Module StarFacts.
Import Dia2a3mFacts.

Lemma sim_init : Star.sim 0 Dia2a3m.init Star.init.
Proof. now split. Qed.

Lemma demand_mono cigar_string index q_need s_need :
  0 <= index ->
  q_need <= fst (Star.demand cigar_string index q_need s_need)
  /\ s_need <= snd (Star.demand cigar_string index q_need s_need).
Proof.
  revert index q_need s_need.
  induction cigar_string as [|c rest IH]; intros index q_need s_need Hi;
    cbn [Star.demand fst snd]; [lia|].
  destruct (is_ascii_digit c) eqn:Hd.
  { unfold is_ascii_digit in Hd. apply andb_true_iff in Hd as [H1 H2].
    apply Z.leb_le in H1, H2. apply IH. lia. }
  destruct (Ascii.eqb c "M").
  { specialize (IH 0 (q_need + index) (s_need + index)). lia. }
  destruct (Ascii.eqb c "I").
  { specialize (IH 0 (q_need + index) s_need). lia. }
  destruct (Ascii.eqb c "D").
  { specialize (IH 0 q_need (s_need + index)). lia. }
  apply IH. lia.
Qed.

Lemma is_ascii_digit_value c :
  is_ascii_digit c = true -> 0 <= ord c - 48 <= 9.
Proof.
  unfold is_ascii_digit. intros [H1 H2]%andb_true_iff.
  apply Z.leb_le in H1, H2. lia.
Qed.

Lemma star_step_digit sequence query c t :
  is_ascii_digit c = true ->
  Star.step sequence query c t
  = Ok {| Star.alignment_s := Star.alignment_s t;
          Star.alignment_q := Star.alignment_q t;
          Star.index := Star.index t * 10 + (ord c - 48);
          Star.s_curr := Star.s_curr t; Star.q_curr := Star.q_curr t |}.
Proof.
  intros Hd. unfold Star.step, isdigit, int_of_char. now rewrite Hd.
Qed.

Lemma scans_agree sequence query cigar_string index d t :
  Dia2a3m.valid_cigar cigar_string ->
  Dia2a3m.consistent sequence query d -> Star.sim index d t -> 0 <= index ->
  fst (Star.demand cigar_string index (Dia2a3m.q_curr d) (Dia2a3m.s_curr d))
    <= len query ->
  snd (Star.demand cigar_string index (Dia2a3m.q_curr d) (Dia2a3m.s_curr d))
    <= len sequence ->
  exists index' d' t',
    Dia2a3m.scan sequence query cigar_string (index, d) = Ok (index', d')
    /\ Star.scan sequence query cigar_string t = Ok t'
    /\ Star.sim index' d' t' /\ Dia2a3m.consistent sequence query d'.
Proof.
  unfold Dia2a3m.valid_cigar. revert index d t.
  induction cigar_string as [|c rest IH]; intros index d t Hv Hd Hsim Hi Hq Hs.
  { exists index, d, t. cbn. auto. }
  cbn in Hv. apply andb_true_iff in Hv as [Hc Hv].
  pose proof Hd as [Hqr Hsr Hqc Hsc Hic Hcl].
  pose proof Hsim as [Hsi Hsq Hss Hsqc Hssc].
  cbn [Dia2a3m.scan Star.scan].
  destruct (cigar_char_cases c Hc) as [Hdig | [-> | [-> | ->]]].
  - rewrite step_digit, star_step_digit by done. cbn [bind].
    pose proof (is_ascii_digit_value c Hdig).
    cbn [Star.demand] in Hq, Hs. rewrite Hdig in Hq, Hs.
    apply IH; try done; [|lia].
    split; cbn; congruence.
  - rewrite step_M by done. cbn [bind].
    change (Star.demand ("M"%char :: rest) index (Dia2a3m.q_curr d)
              (Dia2a3m.s_curr d))
      with (Star.demand rest 0 (Dia2a3m.q_curr d + index)
              (Dia2a3m.s_curr d + index)) in Hq, Hs.
    destruct (demand_mono rest 0 (Dia2a3m.q_curr d + index)
                (Dia2a3m.s_curr d + index)); [lia|].
    rewrite Z2Nat.id, Z.min_l by lia.
    change (Star.step sequence query "M" t) with
      (Ok {| Star.alignment_s :=
               Star.alignment_s t
               ++ slice sequence (Star.s_curr t) (Star.s_curr t + Star.index t);
             Star.alignment_q :=
               Star.alignment_q t
               ++ slice query (Star.q_curr t) (Star.q_curr t + Star.index t);
             Star.index := 0;
             Star.s_curr := Star.s_curr t + Star.index t;
             Star.q_curr := Star.q_curr t + Star.index t |}).
    cbn [bind]. apply IH; try done; try lia.
    + apply consistent_after_M; [done|lia..].
    + split; cbn; congruence.
  - rewrite step_I by done. cbn [bind].
    change (Star.demand ("I"%char :: rest) index (Dia2a3m.q_curr d)
              (Dia2a3m.s_curr d))
      with (Star.demand rest 0 (Dia2a3m.q_curr d + index)
              (Dia2a3m.s_curr d)) in Hq, Hs.
    destruct (demand_mono rest 0 (Dia2a3m.q_curr d + index)
                (Dia2a3m.s_curr d)); [lia|].
    rewrite Z2Nat.id, Z.min_l by lia.
    change (Star.step sequence query "I" t) with
      (Ok {| Star.alignment_s :=
               Star.alignment_s t ++ times "-"%char (Star.index t);
             Star.alignment_q :=
               Star.alignment_q t
               ++ slice query (Star.q_curr t) (Star.q_curr t + Star.index t);
             Star.index := 0;
             Star.s_curr := Star.s_curr t;
             Star.q_curr := Star.q_curr t + Star.index t |}).
    cbn [bind]. apply IH; try done; try lia.
    + apply consistent_after_I; [done|lia..].
    + split; cbn; congruence.
  - rewrite step_D by done. cbn [bind].
    change (Star.demand ("D"%char :: rest) index (Dia2a3m.q_curr d)
              (Dia2a3m.s_curr d))
      with (Star.demand rest 0 (Dia2a3m.q_curr d)
              (Dia2a3m.s_curr d + index)) in Hq, Hs.
    destruct (demand_mono rest 0 (Dia2a3m.q_curr d)
                (Dia2a3m.s_curr d + index)); [lia|].
    rewrite Z2Nat.id, Z.min_l by lia.
    change (Star.step sequence query "D" t) with
      (Ok {| Star.alignment_s := Star.alignment_s t;
             Star.alignment_q := Star.alignment_q t;
             Star.index := 0;
             Star.s_curr := Star.s_curr t + Star.index t;
             Star.q_curr := Star.q_curr t |}).
    cbn [bind]. apply IH; try done; try lia.
    + apply consistent_after_D; [done|lia..].
    + split; cbn; congruence.
Qed.

(** Claim C10.  For a CIGAR string made of decimal digits and the operators
    M, I and D, and slices long enough for every run (the M and I runs sum
    to at most the query length, the M and D runs to at most the subject
    length), the decoder of dia2a3m.py and the decoder of
    star_alighnment_DIAMOND.py both return, with the same aligned query
    string and the same column-aligned subject string; the insertion
    strings exist on the dia2a3m side only. *)
Theorem decoders_agree (cigar_string sequence query : str)
    (Hvalid : Dia2a3m.valid_cigar cigar_string)
    (Hfits : Star.fits cigar_string sequence query) :
  exists alignment_q alignment_s insertions,
    Dia2a3m.cigar_to_alignment_fold cigar_string sequence query
    = Ok (alignment_q, alignment_s, insertions)
    /\ Star.cigar_to_alignment_fold cigar_string sequence query
       = Ok (alignment_q, alignment_s).
Proof.
  destruct Hfits as [Hq Hs].
  destruct (scans_agree sequence query cigar_string 0 Dia2a3m.init Star.init)
    as (index & d & t & Hdia & Hstar & Hsim & Hd);
    [done | apply consistent_init | apply sim_init | lia | done | done |].
  pose proof Hd as [Hqr Hsr Hqc Hsc Hic Hcl].
  pose proof Hsim as [Hsi Hsq Hss Hsqc Hssc].
  do 3 eexists. split; [now apply (fold_closed _ _ _ index d)|].
  unfold Star.cigar_to_alignment_fold. rewrite Hstar. cbn [bind].
  rewrite Hsq, Hss, Hsqc.
  assert (len (slice_from query (Dia2a3m.q_curr d))
          = len query - Dia2a3m.q_curr d) as Hrest.
  { rewrite slice_from_drop by lia. unfold len in *. rewrite length_drop. lia. }
  assert (len (Dia2a3m.alignment_q d) = Dia2a3m.q_curr d) as Hlq.
  { rewrite Hqc, slice_to_take by lia. unfold len in *.
    rewrite length_take. lia. }
  destruct (Z.ltb_spec (Dia2a3m.q_curr d) (len query)) as [Hlt|Hge].
  - rewrite len_app, Hrest, Hlq, Hsc.
    destruct (Z.ltb_spec (Dia2a3m.q_curr d)
                (Dia2a3m.q_curr d + (len query - Dia2a3m.q_curr d)));
      [|lia].
    do 4 f_equal. lia.
  - assert (len query - Dia2a3m.q_curr d = 0) as -> by lia.
    rewrite Hlq, Hsc, Z.ltb_irrefl.
    rewrite slice_from_drop, drop_ge by (unfold len in *; lia).
    unfold times. cbn. now rewrite !app_nil_r.
Qed.

Lemma decoders_agree_witness :
  Dia2a3m.valid_cigar (s "3M2D2I")
  /\ Star.fits (s "3M2D2I") (s "ABCDE") (s "FGHIJ")
  /\ exists alignment_q alignment_s insertions,
      Dia2a3m.cigar_to_alignment_fold (s "3M2D2I") (s "ABCDE") (s "FGHIJ")
      = Ok (alignment_q, alignment_s, insertions)
      /\ Star.cigar_to_alignment_fold (s "3M2D2I") (s "ABCDE") (s "FGHIJ")
         = Ok (alignment_q, alignment_s).
Proof.
  assert (Star.fits (s "3M2D2I") (s "ABCDE") (s "FGHIJ")) as Hfits
    by (split; vm_compute; congruence).
  split; [reflexivity|]. split; [exact Hfits|].
  exact (decoders_agree (s "3M2D2I") (s "ABCDE") (s "FGHIJ") eq_refl Hfits).
Defined.

(** Without the length condition the two decoders part: an I run longer
    than the query slice is cut by one and not by the other. *)
Example decoders_differ_on_overrun :
  Dia2a3m.cigar_to_alignment_fold (s "3I") (s "A") (s "FG")
  = Ok (s "FG", s "--", [[]; []])
  /\ Star.cigar_to_alignment_fold (s "3I") (s "A") (s "FG")
     = Ok (s "FG", s "---").
Proof. split; reflexivity. Qed.

End StarFacts.

(* ===================================================================== *)
(** * star_alighnment_DIAMOND.py: further properties                       *)
(* ===================================================================== *)

Module StarMore.
Import Dia2a3mFacts Dia2a3mMore.












(** ** [match_to_msa_fold] *)




Lemma slice_from_empty {A} (l : list A) (i : Z) :
  len l <= i -> slice_from l i = [].
Proof.
  intros Hi. pose proof (len_nonneg l).
  rewrite slice_from_drop by lia. apply drop_ge. unfold len in *. lia.
Qed.







(** Extra X13.  A well-formed hit whose query start lies past the end of
    the query makes [match_to_msa_fold] raise [IndexError] before it opens
    the file, where [hits_to_a3m] of dia2a3m.py turns the same hit into a
    row of gaps. *)
Theorem start_past_query_end (fs : file_system) (q_main outfname : str)
    (rest : list (list str))
    (subject cigar f2 f3 header : str) (more : list str) (i2 i3 : Z)
    (Hcigar : Dia2a3m.valid_cigar cigar)
    (Hi2 : int f2 = Ok i2) (Hi3 : int f3 = Ok i3)
    (Hpast : len q_main <= i2 - 1) :
  let l := subject :: cigar :: f2 :: f3 :: header :: more in
  Star.match_to_msa_fold fs q_main (l :: rest) outfname = Raise IndexError
  /\ Dia2a3m.align_hit q_main l
     = Ok (times "-"%char (len q_main), times [] (len q_main), header).
Proof.
  intros l. pose proof (len_nonneg q_main) as Hlen.
  assert (forall k x, l !! Z.to_nat k = Some x -> 0 <= k -> getitem l k = Ok x)
    as Hget by (intros; now apply getitem_lookup).
  unfold l in Hget. split.
  - unfold Star.match_to_msa_fold. cbn [Star.alignments_of].
    unfold Star.rows_of_hit, l.
    rewrite (Hget 0 subject), (Hget 2 f2) by (done || lia).
    cbn [bind]. rewrite Hi2. cbn [bind].
    now rewrite slice_from_empty by lia.
  - assert (Dia2a3m.well_formed_hit l) as Hwf.
    { unfold Dia2a3m.well_formed_hit, l. do 8 eexists. repeat split; done. }
    destruct (align_hit_closed q_main l Hwf)
      as (t & Ht & (hs & c' & g2 & g3 & h' & m' & j2 & j3 & aq & s_aln & ins
                    & Heq & Hj2 & Hj3 & Hfold & ->) & _).
    unfold l in Heq. injection Heq as <- <- <- <- <- <-.
    rewrite Hi2 in Hj2. injection Hj2 as <-.
    rewrite (slice_from_empty q_main) in Hfold by lia.
    destruct (fold_ok_shape _ _ _ _ _ _ Hfold) as (_ & Hs & Hi).
    assert (s_aln = []) as -> by (apply nil_length_inv; unfold len in *; cbn in *; lia).
    assert (ins = []) as -> by (apply nil_length_inv; unfold len in *; cbn in *; lia).
    rewrite Ht, !app_nil_r. rewrite slice_to_take by lia.
    rewrite take_ge by (unfold len in *; lia). done.
Qed.

Lemma start_past_query_end_witness :
  Star.match_to_msa_fold (fun _ => None) (s "FG")
    [[s "ABC"; s "2M"; s "3"; s "1"; s "h"]] (s "q")
  = Raise IndexError
  /\ Dia2a3m.align_hit (s "FG") [s "ABC"; s "2M"; s "3"; s "1"; s "h"]
     = Ok (s "--", [[]; []], s "h").
Proof.
  apply (start_past_query_end (fun _ => None) (s "FG") (s "q") []
           (s "ABC") (s "2M") (s "3") (s "1") (s "h") [] 3 1);
    (reflexivity || (cbn; lia)).
Defined.

End StarMore.

(* ===================================================================== *)
(** * clean.py: coverage, internal gap and the filter                      *)
(* ===================================================================== *)

Module CleanFacts.
Import Clean.

(** ** Sorted sets *)

Lemma elem_of_sorted (X : gset Z) (x : Z) : x ∈ sorted X <-> x ∈ X.
Proof.
  unfold sorted. rewrite merge_sort_Permutation. apply elem_of_elements.
Qed.

Lemma sorted_StronglySorted (X : gset Z) : StronglySorted Z.le (sorted X).
Proof. apply StronglySorted_merge_sort; apply _. Qed.

Lemma sorted_NoDup (X : gset Z) : NoDup (sorted X).
Proof.
  unfold sorted. rewrite merge_sort_Permutation. apply NoDup_elements.
Qed.

Lemma length_sorted (X : gset Z) : length (sorted X) = size X.
Proof. unfold sorted. now rewrite merge_sort_Permutation. Qed.

Lemma adjacent_cons x l a b : adjacent l a b -> adjacent (x :: l) a b.
Proof. intros (l1 & l2 & ->). now exists (x :: l1), l2. Qed.

Lemma adjacent_sorted l a b :
  StronglySorted Z.le l -> NoDup l -> adjacent l a b ->
  a < b /\ a ∈ l /\ b ∈ l /\ forall x, x ∈ l -> x <= a \/ b <= x.
Proof.
  intros Hs Hn (l1 & l2 & ->).
  apply StronglySorted_app in Hs as (H12 & _ & Hs2).
  apply StronglySorted_cons in Hs2 as (Ha & Hs3).
  apply StronglySorted_cons in Hs3 as (Hb & _).
  apply NoDup_app in Hn as (_ & _ & Hn2).
  apply NoDup_cons in Hn2 as (Hab & _).
  rewrite Forall_forall in Ha, Hb.
  assert (a <= b) by (apply Ha; set_solver).
  assert (a <> b) by (intros ->; apply Hab; set_solver).
  split; [lia|]. split; [set_solver|]. split; [set_solver|].
  intros x Hx. rewrite !elem_of_app, !elem_of_cons in Hx.
  destruct Hx as [Hx | [-> | [-> | Hx]]].
  - left. apply (H12 x a); set_solver.
  - lia.
  - lia.
  - right. now apply Hb.
Qed.

(** ** The gap loop *)

Lemma gap_loop_ge prev rest max_gap : max_gap <= gap_loop prev rest max_gap.
Proof.
  revert prev max_gap. induction rest as [|pos rest IH]; intros prev max_gap;
    cbn [gap_loop]; [lia|].
  etransitivity; [|apply IH].
  destruct (Z.gtb_spec (pos - prev - 1) max_gap); lia.
Qed.

Lemma gap_loop_upper prev rest max_gap a b :
  adjacent (prev :: rest) a b -> b - a - 1 <= gap_loop prev rest max_gap.
Proof.
  revert prev max_gap. induction rest as [|pos rest IH]; intros prev max_gap.
  - intros ([|? [|? ?]] & l2 & Heq); discriminate.
  - intros (l1 & l2 & Heq). cbn [gap_loop]. destruct l1 as [|x l1].
    + injection Heq as -> -> ->.
      etransitivity; [|apply gap_loop_ge].
      destruct (Z.gtb_spec (b - a - 1) max_gap); lia.
    + injection Heq as -> Heq. apply IH. now exists l1, l2.
Qed.

Lemma gap_loop_attained prev rest max_gap :
  gap_loop prev rest max_gap = max_gap
  \/ exists a b, adjacent (prev :: rest) a b
                /\ gap_loop prev rest max_gap = b - a - 1.
Proof.
  revert prev max_gap. induction rest as [|pos rest IH]; intros prev max_gap;
    cbn [gap_loop]; [now left|].
  destruct (IH pos (if pos - prev - 1 >? max_gap
                    then pos - prev - 1 else max_gap))
    as [Heq | (a & b & Hadj & Heq)].
  - rewrite Heq. destruct (Z.gtb_spec (pos - prev - 1) max_gap); [|now left].
    right. exists prev, pos. split; [now exists [], rest | done].
  - right. exists a, b. split; [now apply adjacent_cons | done].
Qed.

(** A stretch free of list elements, with the head below it and a later
    element above it, lies between two neighbours. *)
Lemma straddling_neighbours x0 rest lo n :
  x0 < lo -> (exists b, b ∈ rest /\ lo + n <= b) -> 0 < n ->
  (forall x, x ∈ x0 :: rest -> x < lo \/ lo + n <= x) ->
  exists a b, adjacent (x0 :: rest) a b /\ a < lo /\ lo + n <= b.
Proof.
  revert x0. induction rest as [|y rest IH]; intros x0 Hx0 (b & Hb & Hbn) Hn Hout.
  - now apply elem_of_nil in Hb.
  - destruct (Hout y) as [Hy | Hy];
      [apply elem_of_cons; right; apply elem_of_cons; now left | |].
    + destruct (IH y Hy) as (a' & b' & Hadj & Ha & Hb'); [|done| |].
      * exists b. split; [|done]. apply elem_of_cons in Hb as [->|Hb]; [lia|done].
      * intros x Hx. apply Hout. apply elem_of_cons. now right.
      * exists a', b'. split; [now apply adjacent_cons | done].
    + exists x0, y. split; [now exists [], rest | done].
Qed.

Lemma gap_loop_max_internal_gap (obs : gset Z) prev rest :
  sorted obs = prev :: rest ->
  max_internal_gap obs (gap_loop prev rest 0).
Proof.
  intros Hsorted.
  pose proof (sorted_StronglySorted obs) as Hs.
  pose proof (sorted_NoDup obs) as Hn. rewrite Hsorted in Hs, Hn.
  assert (forall x, x ∈ prev :: rest <-> x ∈ obs) as Hmem
    by (intros x; rewrite <- Hsorted; apply elem_of_sorted).
  split; [apply gap_loop_ge|]. split.
  - intros Hpos.
    destruct (gap_loop_attained prev rest 0) as [Heq | (a & b & Hadj & Heq)];
      [lia|].
    destruct (adjacent_sorted _ a b Hs Hn Hadj) as (Hab & Ha & Hb & Hbetween).
    exists (a + 1). rewrite Heq. split; [lia|]. split.
    + intros x Hx Hin. apply Hmem in Hin. destruct (Hbetween x Hin); lia.
    + exists a, b. rewrite <- !Hmem. repeat split; [done|done|lia|lia].
  - intros lo n (Hn0 & Hfree & a & b & Ha & Hb & Halo & Hbn).
    apply StronglySorted_cons in Hs as (Hmin & _). rewrite Forall_forall in Hmin.
    apply Hmem in Ha, Hb.
    assert (prev < lo) as Hprev.
    { apply elem_of_cons in Ha as [->|Ha]; [done|]. specialize (Hmin a Ha). lia. }
    destruct (straddling_neighbours prev rest lo n) as (a' & b' & Hadj & Ha' & Hb');
      [done| |done| |].
    + exists b. split; [|done]. apply elem_of_cons in Hb as [->|Hb]; [lia|done].
    + intros x Hx. apply Hmem in Hx.
      destruct (Z.lt_ge_cases x lo) as [|Hge]; [now left|]. right.
      destruct (Z.lt_ge_cases x (lo + n)) as [Hlt|]; [|done].
      exfalso. apply (Hfree x); [lia|done].
    + pose proof (gap_loop_upper prev rest 0 a' b' Hadj). lia.
Qed.

Example example_observed :
  observed_seq_ids example_chain example_auth_map = list_to_set [1; 2; 3; 7; 8; 9; 10].
Proof. vm_compute. reflexivity. Qed.

Example example_scores :
  compute_coverage_and_gap example_chain (seqZ 1 10) example_auth_map
  = (0.7%Q, 3).
Proof. vm_compute. reflexivity. Qed.

(** Claim C6.  For a non-empty set of declared polymer positions, passed
    sorted as [get_poly_seq_scheme] returns it, and a chain whose observed
    set is not empty, [compute_coverage_and_gap] returns the quotient of the
    number of observed positions by the number of declared ones, and the
    length of the longest run of consecutive integers missing from the
    observed set between two observed positions (0 when there is no such
    run); positions missing before the first or after the last observed one
    do not count.  With positions 1 to 10 declared and 1, 2, 3, 7, 8, 9, 10
    observed the result is 0.7 and 3. *)
Theorem coverage_and_gap_spec (ch : chain) (declared : gset Z)
    (auth_map : auth_map_t)
    (Hdeclared : declared <> ∅)
    (Hobserved : observed_seq_ids ch auth_map <> ∅) :
  exists g,
    compute_coverage_and_gap ch (sorted declared) auth_map
    = (truediv (Z.of_nat (size (observed_seq_ids ch auth_map)))
         (Z.of_nat (size declared)), g)
    /\ max_internal_gap (observed_seq_ids ch auth_map) g
    /\ observed_seq_ids example_chain example_auth_map
       = list_to_set [1; 2; 3; 7; 8; 9; 10]
    /\ compute_coverage_and_gap example_chain
         (sorted (list_to_set (seqZ 1 10))) example_auth_map
       = (0.7%Q, 3).
Proof.
  set (obs := observed_seq_ids ch auth_map) in *.
  assert (len (sorted declared) = Z.of_nat (size declared)) as Hlen
    by (unfold len; now rewrite length_sorted).
  assert (exists g,
             compute_coverage_and_gap ch (sorted declared) auth_map
             = (truediv (Z.of_nat (size obs)) (Z.of_nat (size declared)), g)
             /\ max_internal_gap obs g) as (g & Hg & Hmax).
  { unfold compute_coverage_and_gap. fold obs. rewrite Hlen.
    destruct (sorted declared) as [|d0 ds] eqn:Hsd.
    { exfalso. apply Hdeclared. apply leibniz_equiv, size_empty_inv.
      rewrite <- length_sorted, Hsd. done. }
    destruct (decide (obs = ∅)) as [|_]; [done|].
    destruct (Z.ltb_spec (len (sorted obs)) 2) as [Hshort|Hlong].
    - exists 0. split; [done|]. split; [lia|]. split; [lia|].
      intros lo n (Hn & _ & a & b & Ha & Hb & Halo & Hbn). exfalso.
      apply elem_of_sorted in Ha, Hb. unfold len in Hshort.
      destruct (sorted obs) as [|x [|y l]]; simpl length in Hshort; [| |lia].
      + now apply elem_of_nil in Ha.
      + apply list_elem_of_singleton in Ha, Hb. lia.
    - destruct (sorted obs) as [|prev rest] eqn:Hso;
        [unfold len in Hlong; simpl length in Hlong; lia|].
      exists (gap_loop prev rest 0). split; [done|].
      now apply gap_loop_max_internal_gap. }
  exists g. split; [exact Hg|]. split; [exact Hmax|].
  split; vm_compute; reflexivity.
Qed.

Lemma coverage_and_gap_spec_witness :
  (list_to_set (seqZ 1 10) : gset Z) <> ∅
  /\ observed_seq_ids example_chain example_auth_map <> ∅
  /\ exists g,
      compute_coverage_and_gap example_chain
        (sorted (list_to_set (seqZ 1 10))) example_auth_map
      = (truediv 7 10, g)
      /\ max_internal_gap (observed_seq_ids example_chain example_auth_map) g.
Proof.
  assert ((list_to_set (seqZ 1 10) : gset Z) <> ∅) as Hd
    by (vm_compute; discriminate).
  assert (observed_seq_ids example_chain example_auth_map <> ∅) as Ho
    by (vm_compute; discriminate).
  split; [exact Hd|]. split; [exact Ho|].
  destruct (coverage_and_gap_spec example_chain (list_to_set (seqZ 1 10))
              example_auth_map Hd Ho) as (g & Hg & Hmax & _).
  exists g. split; [exact Hg | exact Hmax].
Defined.

(** ** The filter *)

Lemma Qlt_bool_iff (x y : Q) : Qlt_bool x y = true <-> (x < y)%Q.
Proof.
  unfold Qlt_bool. rewrite negb_true_iff, <- not_true_iff_false, Qle_bool_iff.
  split; [apply Qnot_le_lt | apply Qlt_not_le].
Qed.

(** Claim C7.  For an entry that parsed, with a first model and a first
    chain [ch], let [coverage] and [max_gap] be the scores computed for
    [ch] (by the polymer mapping, or by the fall-back when there is none).
    The entry is rejected, and nothing is written, exactly when
    [coverage < 0.8] or [max_gap > 15].  Otherwise, and so with coverage
    equal to 0.8 and a gap of 15, the line is ACCEPT and the structure is
    written with the other chains of the first model detached and [ch]
    reduced to its polymer residues: those whose key is in the mapping, or
    without a mapping those with a blank hetero flag. *)
Theorem threshold_filter (d : option cif_dict) (ch : chain)
    (rest : list chain) (models : list model)
    (auth_map : option auth_map_t) (meth : method)
    (coverage : Q) (max_gap : Z)
    (Hscores : scores d ch = (auth_map, meth, (coverage, max_gap))) :
  let result := process_cif_file (inr ((ch :: rest) :: models)) d in
  let stripped :=
    {| chain_id := chain_id ch;
       residues :=
         match auth_map with
         | Some auth_map =>
             filter (fun r => is_Some (auth_map !! key_of r)) (residues ch)
         | None => filter (fun r => strip (het_flag r) = []) (residues ch)
         end |} in
  let accepted :=
    (ACCEPT (chain_id ch) coverage max_gap meth,
     Some ((stripped
            :: filter (fun other => chain_id other = chain_id ch) rest)
           :: models)) in
  (is_reject (fst result) = true <-> (coverage < 0.8)%Q \/ max_gap > 15)
  /\ (snd result = None <-> (coverage < 0.8)%Q \/ max_gap > 15)
  /\ (~ ((coverage < 0.8)%Q \/ max_gap > 15) -> result = accepted)
  /\ ((coverage == 0.8)%Q -> max_gap = 15 -> result = accepted).
Proof.
  intros result stripped accepted.
  assert (result
          = if Qlt_bool coverage 0.8 then
              (REJECT_low_coverage coverage meth, None)
            else if max_gap >? 15 then
              (REJECT_big_internal_gap max_gap meth, None)
            else accepted) as Hresult.
  { unfold result, process_cif_file. rewrite Hscores.
    unfold accepted, stripped, clean_model, clean_chain_using_polymer_mapping,
      drop_het_residues. now destruct auth_map. }
  pose proof (Qlt_bool_iff coverage 0.8) as Hlt.
  rewrite Hresult.
  destruct (Qlt_bool coverage 0.8) eqn:Hcov.
  - assert (coverage < 0.8)%Q as Hc by now apply Hlt.
    split; [|split; [|split]].
    + cbn. split; [intros _; now left | done].
    + cbn. split; [intros _; now left | done].
    + intros Hn. exfalso. apply Hn. now left.
    + intros Heq _. exfalso. rewrite Heq in Hc. now apply Qlt_irrefl in Hc.
  - assert (~ (coverage < 0.8)%Q) as Hc by (rewrite <- Hlt; discriminate).
    destruct (Z.gtb_spec max_gap 15) as [Hgap|Hgap].
    + split; [|split; [|split]].
      * cbn. split; [intros _; right; lia | done].
      * cbn. split; [intros _; right; lia | done].
      * intros Hn. exfalso. apply Hn. right. lia.
      * intros _ ->. lia.
    + split; [|split; [|split]]; try done.
      * cbn. split; [discriminate | intros [|]; [tauto | lia]].
      * cbn. split; [discriminate | intros [|]; [tauto | lia]].
Qed.

Example boundary_scores :
  scores (Some boundary_dict) boundary_chain
  = (snd <$> get_poly_seq_scheme boundary_dict (s "A"),
     Main, ((60 # 75)%Q, 15))
  /\ (60 # 75 == 0.8)%Q.
Proof. split; [vm_compute; reflexivity | reflexivity]. Qed.

Example boundary_entry_accepted :
  process_cif_file (inr [[boundary_chain; second_chain]]) (Some boundary_dict)
  = (ACCEPT (s "A") (60 # 75) 15 Main,
     Some [[ {| chain_id := s "A";
                residues :=
                  map polymer_residue (seqZ 1 30 ++ seqZ 46 30) |} ]]).
Proof. vm_compute. reflexivity. Qed.

Lemma threshold_filter_witness :
  exists auth_map,
    scores (Some boundary_dict) boundary_chain
    = (Some auth_map, Main, ((60 # 75)%Q, 15))
    /\ process_cif_file (inr [[boundary_chain; second_chain]])
         (Some boundary_dict)
       = (ACCEPT (s "A") (60 # 75) 15 Main,
          Some [[ {| chain_id := s "A";
                     residues :=
                       filter (fun r => is_Some (auth_map !! key_of r))
                         (residues boundary_chain) |} ]]).
Proof.
  destruct (get_poly_seq_scheme boundary_dict (s "A")) as [[seq_ids am]|] eqn:Hg;
    [|vm_compute in Hg; discriminate].
  assert (scores (Some boundary_dict) boundary_chain
          = (Some am, Main, ((60 # 75)%Q, 15))) as Hscores.
  { pose proof (proj1 boundary_scores) as Hb. rewrite Hg in Hb. exact Hb. }
  exists am. split; [exact Hscores|].
  apply (threshold_filter (Some boundary_dict) boundary_chain [second_chain] []
           (Some am) Main (60 # 75) 15 Hscores);
    reflexivity.
Defined.

End CleanFacts.

(* ===================================================================== *)
(** * clean.py: further properties                                         *)
(* ===================================================================== *)

Module CleanMore.
Import Clean CleanFacts.

(** ** Quotients *)

Lemma truediv_range a b :
  0 <= a <= b -> 0 < b -> (0 <= truediv a b)%Q /\ (truediv a b <= 1)%Q.
Proof.
  intros Ha Hb. destruct b as [|p|p]; try lia.
  unfold truediv, Qdiv, Qmult, Qinv, inject_Z, Qle. cbn. split; lia.
Qed.

Lemma truediv_one a b : 0 < b -> (truediv a b == 1)%Q <-> a = b.
Proof.
  intros Hb. destruct b as [|p|p]; try lia.
  unfold truediv, Qdiv, Qmult, Qinv, inject_Z, Qeq. cbn. lia.
Qed.

Lemma truediv_pos a b : 0 < a -> 0 < b -> (0 < truediv a b)%Q.
Proof.
  intros Ha Hb. destruct b as [|p|p]; try lia.
  unfold truediv, Qdiv, Qmult, Qinv, inject_Z, Qlt. cbn. lia.
Qed.

(** ** What [get_poly_seq_scheme] returns *)

Lemma scheme_row_ids chain_id acc row :
  (forall key ids x, acc.1 !! key = Some ids -> x ∈ ids -> x ∈ acc.2) ->
  forall key ids x,
    (scheme_row chain_id acc row).1 !! key = Some ids -> x ∈ ids ->
    x ∈ (scheme_row chain_id acc row).2.
Proof.
  destruct acc as [auth_map seq_id_set].
  destruct row as [s_id [st_id [a_num ins_code]]].
  intros Hinv key ids x. cbn [fst snd] in Hinv. unfold scheme_row.
  destruct (decide (strip st_id = chain_id)); [|apply Hinv].
  destruct (int s_id) as [seq_id|]; [|apply Hinv].
  destruct (int a_num) as [auth_num|]; cbn [fst snd].
  - intros Hget Hx.
    apply lookup_insert_Some in Hget as [[_ <-] | [_ Hget]].
    + apply elem_of_union in Hx as [Hx|Hx]; [set_solver|].
      destruct (auth_map !! _) as [old|] eqn:Hold; cbn in Hx.
      * apply elem_of_union. right. exact (Hinv _ old x Hold Hx).
      * now apply not_elem_of_empty in Hx.
    + apply elem_of_union. right. now apply (Hinv key ids).
  - intros Hget Hx. apply elem_of_union. right. now apply (Hinv key ids).
Qed.

Lemma scheme_rows_ids chain_id rows acc :
  (forall key ids x, acc.1 !! key = Some ids -> x ∈ ids -> x ∈ acc.2) ->
  forall key ids x,
    (fold_left (scheme_row chain_id) rows acc).1 !! key = Some ids ->
    x ∈ ids -> x ∈ (fold_left (scheme_row chain_id) rows acc).2.
Proof.
  revert acc. induction rows as [|row rows IH]; intros acc Hinv; [done|].
  cbn [fold_left]. apply IH. now apply scheme_row_ids.
Qed.

Lemma sorted_strictly (X : gset Z) : StronglySorted Z.lt (sorted X).
Proof.
  pose proof (sorted_StronglySorted X) as Hs.
  pose proof (sorted_NoDup X) as Hn.
  induction Hs as [|x l Hs IH Hx]; [constructor|].
  apply NoDup_cons in Hn as [Hxl Hn]. constructor; [now apply IH|].
  rewrite Forall_forall in *. intros y Hy. specialize (Hx y Hy).
  assert (x <> y) by (intros ->; done). lia.
Qed.

Lemma observed_subseteq (ch : chain) (auth_map : auth_map_t) (X : gset Z) :
  (forall key ids x, auth_map !! key = Some ids -> x ∈ ids -> x ∈ X) ->
  observed_seq_ids ch auth_map ⊆ X.
Proof.
  intros Hids. unfold observed_seq_ids.
  assert (forall rs (obs : gset Z), obs ⊆ X ->
            fold_left (fun obs r =>
                         match auth_map !! key_of r with
                         | Some ids => obs ∪ ids
                         | None => obs
                         end) rs obs ⊆ X) as Hfold.
  { induction rs as [|r rs IH]; intros obs Hobs; [done|].
    cbn [fold_left]. apply IH.
    destruct (auth_map !! key_of r) as [ids|] eqn:Hk; [|done].
    apply union_subseteq. split; [done|]. intros x Hx.
    exact (Hids _ ids x Hk Hx). }
  apply Hfold. set_solver.
Qed.

Lemma get_poly_seq_scheme_Some d chain_id seq_ids auth_map :
  get_poly_seq_scheme d chain_id = Some (seq_ids, auth_map) ->
  exists declared : gset Z,
    declared <> ∅ /\ seq_ids = sorted declared
    /\ forall key ids x,
        auth_map !! key = Some ids -> x ∈ ids -> x ∈ declared.
Proof.
  unfold get_poly_seq_scheme.
  destruct (d !! "_pdbx_poly_seq_scheme.seq_id"%string) as [v1|]; [|done].
  destruct (d !! "_pdbx_poly_seq_scheme.pdb_strand_id"%string) as [v2|];
    [|done].
  match goal with
  | |- context [fold_left (scheme_row chain_id) ?rows ?acc] =>
      pose proof (scheme_rows_ids chain_id rows acc) as Hinv;
      destruct (fold_left (scheme_row chain_id) rows acc) as [am set]
  end.
  destruct (decide (set = ∅)) as [|Hne]; [done|].
  intros [= <- <-]. exists set. split; [done|]. split; [done|].
  apply Hinv. intros key ids x Hget. cbn in Hget.
  now rewrite lookup_empty in Hget.
Qed.

(** Extra X14.  When [get_poly_seq_scheme] returns a mapping, the list of
    polymer positions is not empty and strictly increasing, every position
    the mapping can yield is one of them, and so the observed positions of
    any chain are declared ones.  Without the [seq_id] column it returns
    nothing, which sends the entry down the fall-back path. *)
Theorem poly_seq_scheme_well_formed (d : cif_dict) (chain_id : str)
    (seq_ids : list Z) (auth_map : auth_map_t) (ch : chain)
    (Hscheme : get_poly_seq_scheme d chain_id = Some (seq_ids, auth_map)) :
  seq_ids <> []
  /\ StronglySorted Z.lt seq_ids
  /\ (forall key ids x, auth_map !! key = Some ids -> x ∈ ids -> x ∈ seq_ids)
  /\ (forall x, x ∈ observed_seq_ids ch auth_map -> x ∈ seq_ids)
  /\ get_poly_seq_scheme
       (delete "_pdbx_poly_seq_scheme.seq_id"%string d) chain_id = None.
Proof.
  destruct (get_poly_seq_scheme_Some _ _ _ _ Hscheme)
    as (declared & Hne & -> & Hids).
  split; [|split; [|split; [|split]]].
  - intros Hnil. apply Hne, leibniz_equiv, size_empty_inv.
    now rewrite <- length_sorted, Hnil.
  - apply sorted_strictly.
  - intros key ids x Hget Hx. apply elem_of_sorted. now apply (Hids key ids).
  - intros x Hx. apply elem_of_sorted.
    now apply (observed_subseteq ch auth_map declared Hids).
  - unfold get_poly_seq_scheme. now rewrite lookup_delete_eq.
Qed.

Lemma poly_seq_scheme_well_formed_witness :
  exists seq_ids auth_map,
    get_poly_seq_scheme boundary_dict (s "A") = Some (seq_ids, auth_map)
    /\ StronglySorted Z.lt seq_ids.
Proof.
  destruct (get_poly_seq_scheme boundary_dict (s "A")) as [[seq_ids am]|]
    eqn:Hg; [|vm_compute in Hg; discriminate].
  exists seq_ids, am. split; [reflexivity|].
  exact (proj1 (proj2 (poly_seq_scheme_well_formed boundary_dict (s "A")
                         seq_ids am boundary_chain Hg))).
Defined.

(** Extra X15.  On the main path the scores are in range: with the list
    and the mapping that [get_poly_seq_scheme] returned, the coverage of
    any chain lies between 0 and 1 and the gap is not negative. *)
Theorem main_scores_in_range (d : cif_dict) (chain_id : str)
    (seq_ids : list Z) (auth_map : auth_map_t) (ch : chain)
    (Hscheme : get_poly_seq_scheme d chain_id = Some (seq_ids, auth_map)) :
  (0 <= fst (compute_coverage_and_gap ch seq_ids auth_map))%Q
  /\ (fst (compute_coverage_and_gap ch seq_ids auth_map) <= 1)%Q
  /\ 0 <= snd (compute_coverage_and_gap ch seq_ids auth_map).
Proof.
  destruct (get_poly_seq_scheme_Some _ _ _ _ Hscheme)
    as (declared & Hne & -> & Hids).
  pose proof (observed_subseteq ch auth_map declared Hids) as Hsub.
  apply subseteq_size in Hsub.
  assert (0 < size declared)%nat as Hpos.
  { destruct (size declared) eqn:Hs; [|lia].
    exfalso. now apply Hne, leibniz_equiv, size_empty_inv. }
  unfold compute_coverage_and_gap.
  destruct (sorted declared) as [|d0 ds] eqn:Hsd.
  { cbn. repeat split; (done || lia). }
  rewrite <- Hsd.
  destruct (decide (observed_seq_ids ch auth_map = ∅));
    [cbn; repeat split; (done || lia)|].
  assert (len (sorted declared) = Z.of_nat (size declared)) as ->
    by (unfold len; now rewrite length_sorted).
  destruct (truediv_range (Z.of_nat (size (observed_seq_ids ch auth_map)))
              (Z.of_nat (size declared))) as [Hlo Hhi]; [lia|lia|].
  destruct (len (sorted (observed_seq_ids ch auth_map)) <? 2);
    [cbn [fst snd]; repeat split; (done || lia)|].
  destruct (sorted (observed_seq_ids ch auth_map)) as [|prev rest];
    cbn [fst snd]; repeat split; try done; try lia.
  apply gap_loop_ge.
Qed.

Lemma main_scores_in_range_witness :
  (fst (compute_coverage_and_gap boundary_chain (seqZ 1 75)
          (default ∅ (snd <$> get_poly_seq_scheme boundary_dict (s "A"))))
   <= 1)%Q.
Proof.
  destruct (get_poly_seq_scheme boundary_dict (s "A")) as [[seq_ids am]|]
    eqn:Hg; [|vm_compute in Hg; discriminate].
  assert (seq_ids = seqZ 1 75) as Hseq.
  { assert (fst <$> get_poly_seq_scheme boundary_dict (s "A")
            = Some (seqZ 1 75)) as H by (vm_compute; reflexivity).
    rewrite Hg in H. now injection H. }
  rewrite <- Hseq. cbn [fmap option_fmap option_map snd default].
  exact (proj1 (proj2 (main_scores_in_range boundary_dict (s "A") seq_ids am
                         boundary_chain Hg))).
Defined.

(** ** The fall-back scores *)

Lemma last_cons_default {A} (y : A) (rest : list A) (d d' : A) :
  List.last (y :: rest) d = List.last (y :: rest) d'.
Proof.
  revert y. induction rest as [|z rest IH]; intros y; [done|].
  change (List.last (z :: rest) d = List.last (z :: rest) d'). apply IH.
Qed.

Lemma span_ge x0 rest :
  StronglySorted Z.lt (x0 :: rest) ->
  Z.of_nat (length rest) <= List.last (x0 :: rest) x0 - x0.
Proof.
  revert x0. induction rest as [|y rest IH]; intros x0 Hs; [cbn; lia|].
  apply StronglySorted_cons in Hs as [Hx Hs].
  specialize (IH y Hs). apply Forall_cons in Hx as [Hxy _].
  change (List.last (x0 :: y :: rest) x0) with (List.last (y :: rest) x0).
  rewrite (last_cons_default y rest x0 y). cbn [length]. lia.
Qed.

Lemma gap_loop_zero x0 rest m :
  0 <= m -> StronglySorted Z.lt (x0 :: rest) ->
  gap_loop x0 rest m = 0
  <-> m = 0 /\ List.last (x0 :: rest) x0 - x0 = Z.of_nat (length rest).
Proof.
  revert x0 m. induction rest as [|y rest IH]; intros x0 m Hm Hs.
  - cbn. lia.
  - pose proof (span_ge y rest) as Hspan.
    apply StronglySorted_cons in Hs as [Hx Hs]. specialize (Hspan Hs).
    apply Forall_cons in Hx as [Hxy _].
    change (List.last (x0 :: y :: rest) x0) with (List.last (y :: rest) x0).
    rewrite (last_cons_default y rest x0 y). cbn [gap_loop length].
    rewrite IH by (done || destruct (Z.gtb_spec (y - x0 - 1) m); lia).
    destruct (Z.gtb_spec (y - x0 - 1) m); lia.
Qed.

(** Extra X16.  On the fall-back path, for a chain with at least one
    residue, the coverage is positive and at most 1, it is 1 exactly when
    the gap is 0 (the residue numbers are consecutive), and the gap is the
    longest run of integers missing between two residue numbers. *)
Theorem fallback_scores (ch : chain) (Hresidues : residues ch <> []) :
  let numbers : gset Z := list_to_set (map resseq (residues ch)) in
  let scores := fallback_coverage_gap ch in
  (0 < fst scores)%Q
  /\ (fst scores <= 1)%Q
  /\ ((fst scores == 1)%Q <-> snd scores = 0)
  /\ max_internal_gap numbers (snd scores).
Proof.
  intros numbers scores. subst scores numbers. unfold fallback_coverage_gap.
  remember (map resseq (residues ch)) as resseqs eqn:Hmap.
  destruct resseqs as [|a l].
  { destruct (residues ch); [done | discriminate]. }
  set (numbers := list_to_set (a :: l) : gset Z).
  pose proof (sorted_strictly numbers) as Hs.
  destruct (sorted numbers) as [|min_r rest] eqn:Hsorted.
  { exfalso. assert (a ∈ sorted numbers) as Ha.
    { apply elem_of_sorted. unfold numbers. set_solver. }
    rewrite Hsorted in Ha. now apply elem_of_nil in Ha. }
  pose proof (span_ge min_r rest Hs) as Hspan.
  set (max_r := List.last (min_r :: rest) min_r) in *.
  destruct (Z.gtb_spec (max_r - min_r + 1) 0) as [_|]; [|lia].
  assert (len (min_r :: rest) = Z.of_nat (length rest) + 1) as Hlen
    by (unfold len; cbn [length]; lia).
  cbn [fst snd]. rewrite Hlen.
  destruct (truediv_range (Z.of_nat (length rest) + 1) (max_r - min_r + 1))
    as [_ Hhi]; [lia|lia|].
  split; [apply truediv_pos; lia|]. split; [exact Hhi|]. split.
  - rewrite truediv_one by lia.
    rewrite (gap_loop_zero min_r rest 0) by (lia || done). fold max_r. lia.
  - now apply gap_loop_max_internal_gap.
Qed.

Lemma fallback_scores_witness :
  residues boundary_chain <> []
  /\ (fst (fallback_coverage_gap boundary_chain) <= 1)%Q
  /\ max_internal_gap (list_to_set (map resseq (residues boundary_chain)))
       (snd (fallback_coverage_gap boundary_chain)).
Proof.
  assert (residues boundary_chain <> []) as Hne by discriminate.
  split; [exact Hne|].
  pose proof (fallback_scores boundary_chain Hne) as (_ & Hle & _ & Hgap).
  split; [exact Hle | exact Hgap].
Defined.

(** ** Cleaning and scoring *)

Lemma fold_left_filter {A B} (f : A -> B -> A) (P : B -> Prop)
    `{!forall x, Decision (P x)} (l : list B) (acc : A) :
  (forall acc x, ~ P x -> f acc x = acc) ->
  fold_left f (filter P l) acc = fold_left f l acc.
Proof.
  intros Hskip. revert acc. induction l as [|x l IH]; intros acc; [done|].
  destruct (decide (P x)) as [Hx|Hx].
  - rewrite filter_cons_True by done. cbn [fold_left]. apply IH.
  - rewrite filter_cons_False by done. cbn [fold_left].
    rewrite (Hskip acc x Hx). apply IH.
Qed.

Lemma observed_clean (ch : chain) (auth_map : auth_map_t) :
  observed_seq_ids (clean_chain_using_polymer_mapping ch auth_map) auth_map
  = observed_seq_ids ch auth_map.
Proof.
  unfold observed_seq_ids, clean_chain_using_polymer_mapping. cbn [residues].
  apply fold_left_filter. intros obs r Hr.
  destruct (auth_map !! key_of r) eqn:Hk; [|done].
  exfalso. apply Hr. now eexists.
Qed.

(** Extra X17.  Stripping a chain to its polymer residues does not change
    its scores: the residues the mapping does not know add nothing to the
    observed positions.  Stripping twice is the same as stripping once. *)
Theorem cleaning_keeps_scores (ch : chain) (seq_ids : list Z)
    (auth_map : auth_map_t) :
  compute_coverage_and_gap (clean_chain_using_polymer_mapping ch auth_map)
    seq_ids auth_map
  = compute_coverage_and_gap ch seq_ids auth_map
  /\ clean_chain_using_polymer_mapping
       (clean_chain_using_polymer_mapping ch auth_map) auth_map
     = clean_chain_using_polymer_mapping ch auth_map.
Proof.
  split.
  - unfold compute_coverage_and_gap. now rewrite observed_clean.
  - unfold clean_chain_using_polymer_mapping. cbn [residues chain_id]. f_equal.
    apply list_filter_filter_l. done.
Qed.

(** Extra X18.  Whatever the two parsers gave, [process_cif_file] writes a
    structure exactly when the logged line is ACCEPT.  What it writes is
    the parsed structure with its later models untouched and, in the first
    model, the first chain with some of its residues removed, followed by
    those of the other chains that carry the same id. *)
Theorem written_iff_accepted (parsed : str + structure)
    (d : option cif_dict) :
  let result := process_cif_file parsed d in
  (snd result = None <-> is_reject (fst result) = true)
  /\ forall written,
      snd result = Some written ->
      exists ch rest models stripped kept,
        parsed = inr ((ch :: rest) :: models)
        /\ written = (stripped :: kept) :: models
        /\ chain_id stripped = chain_id ch
        /\ sublist (residues stripped) (residues ch)
        /\ sublist kept rest
        /\ Forall (fun other => chain_id other = chain_id ch) kept.
Proof.
  intros result. subst result. unfold process_cif_file.
  destruct parsed as [e | [|[|ch rest] models]];
    try (cbn; split; [done | discriminate]).
  destruct (scores d ch) as [[auth_map meth] [coverage max_gap]].
  destruct (Qlt_bool coverage COVERAGE_CUTOFF);
    [cbn; split; [done | discriminate]|].
  destruct (max_gap >? MAX_INTERNAL_GAP);
    [cbn; split; [done | discriminate]|].
  cbn [fst snd is_reject]. split; [split; discriminate|].
  intros written [= <-]. unfold clean_model.
  do 5 eexists. split; [done|]. split; [done|].
  split; [now destruct auth_map|].
  split; [destruct auth_map; apply sublist_filter|].
  split; [apply sublist_filter|].
  apply Forall_forall. intros c Hc. now apply list_elem_of_filter in Hc as [Hc _].
Qed.

Lemma written_iff_accepted_witness :
  is_reject (fst (process_cif_file (inr [[boundary_chain; second_chain]])
                    (Some boundary_dict))) = false.
Proof.
  pose proof (proj1 (written_iff_accepted
                       (inr [[boundary_chain; second_chain]])
                       (Some boundary_dict))) as Hiff.
  cbv zeta in Hiff. apply not_true_is_false. intros Hr.
  apply Hiff in Hr. vm_compute in Hr. discriminate.
Defined.

(** Extra X19.  When the declared positions are [n] consecutive integers
    and every one of them is observed, the scores are a coverage of 1 and a
    gap of 0. *)
Theorem contiguous_full_coverage (ch : chain) (auth_map : auth_map_t)
    (lo n : Z)
    (Hn : 0 < n)
    (Hobserved : observed_seq_ids ch auth_map = list_to_set (seqZ lo n)) :
  exists coverage,
    compute_coverage_and_gap ch (sorted (list_to_set (seqZ lo n))) auth_map
    = (coverage, 0)
    /\ (coverage == 1)%Q.
Proof.
  set (declared := list_to_set (seqZ lo n) : gset Z) in *.
  assert (forall x, x ∈ declared <-> lo <= x < lo + n) as Hmem.
  { intros x. unfold declared. rewrite elem_of_list_to_set. apply elem_of_seqZ. }
  assert (declared <> ∅) as Hne.
  { intros Hempty. assert (lo ∈ declared) as Hlo by (apply Hmem; lia).
    rewrite Hempty in Hlo. now apply not_elem_of_empty in Hlo. }
  assert (0 < size declared)%nat as Hpos.
  { destruct (size declared) eqn:Hs; [|lia].
    exfalso. now apply Hne, leibniz_equiv, size_empty_inv. }
  unfold compute_coverage_and_gap. rewrite Hobserved.
  destruct (sorted declared) as [|d0 ds] eqn:Hsd.
  { exfalso. apply Hne, leibniz_equiv, size_empty_inv.
    now rewrite <- length_sorted, Hsd. }
  destruct (decide (declared = ∅)); [done|].
  assert (len (d0 :: ds) = Z.of_nat (size declared)) as Hlen
    by (rewrite <- Hsd; unfold len; now rewrite length_sorted).
  assert (truediv (Z.of_nat (size declared)) (len (d0 :: ds)) == 1)%Q
    as Hone by (rewrite Hlen; apply truediv_one; lia).
  destruct (len (d0 :: ds) <? 2); [eexists; split; [reflexivity | exact Hone]|].
  destruct (gap_loop_max_internal_gap declared d0 ds Hsd) as (Hge & Hrun & _).
  assert (gap_loop d0 ds 0 = 0) as ->.
  { destruct (Z.eq_dec (gap_loop d0 ds 0) 0) as [|Hnz]; [done|]. exfalso.
    destruct Hrun as (lo' & Hpos' & Hfree & a & b & Ha & Hb & Halo & Hbhi);
      [lia|].
    apply Hmem in Ha, Hb. apply (Hfree lo'); [lia|]. apply Hmem. lia. }
  eexists. split; [reflexivity | exact Hone].
Qed.

Lemma contiguous_full_coverage_witness :
  exists coverage,
    compute_coverage_and_gap
      {| chain_id := s "A"; residues := map polymer_residue (seqZ 1 10) |}
      (sorted (list_to_set (seqZ 1 10))) example_auth_map
    = (coverage, 0)
    /\ (coverage == 1)%Q.
Proof.
  apply (contiguous_full_coverage _ example_auth_map 1 10).
  - reflexivity.
  - vm_compute. reflexivity.
Defined.

End CleanMore.

(* ===================================================================== *)
(** * a3m_quality.py: entropy and the greedy count                         *)
(* ===================================================================== *)

Module A3mQualityFacts.
Import A3mQuality.

(** ** Column entropy *)

Lemma Counter_replicate (c : ascii) (n : nat) (v : Z) :
  fold_left (fun counts x => bump x counts) (replicate n c) [(c, v)]
  = [(c, v + Z.of_nat n)].
Proof.
  revert v. induction n as [|n IH]; intros v; cbn [replicate fold_left bump].
  - now rewrite Z.add_0_r.
  - rewrite Ascii.eqb_refl, IH.
    now replace (v + 1 + Z.of_nat n) with (v + Z.of_nat (S n)) by lia.
Qed.

Lemma residues_all_equal (col : list ascii) (c : ascii) :
  is_gap c = false -> c ∈ col ->
  (forall x, x ∈ col -> is_gap x = true \/ x = c) ->
  exists n, List.filter (fun x => negb (is_gap x)) col = replicate (S n) c.
Proof.
  intros Hc Hin Hsame.
  assert (exists n, List.filter (fun x => negb (is_gap x)) col = replicate n c)
    as [n Hn].
  { clear Hin. induction col as [|x col IH]; [now exists O|].
    destruct IH as [n Hn]; [intros y Hy; apply Hsame; now right|].
    cbn [List.filter]. destruct (Hsame x) as [Hx | ->]; [now left| |].
    - exists n. now rewrite Hx.
    - exists (S n). rewrite Hc. cbn. now rewrite Hn. }
  destruct n as [|n]; [|now exists n].
  exfalso. apply list_elem_of_In in Hin.
  assert (In c (List.filter (fun x => negb (is_gap x)) col)) as Hcf
    by (apply filter_In; now rewrite Hc).
  now rewrite Hn in Hcf.
Qed.

Lemma col_entropy_identical (col : list ascii) (c : ascii) :
  is_gap c = false -> c ∈ col ->
  (forall x, x ∈ col -> is_gap x = true \/ x = c) ->
  col_entropy col = Some 0%R.
Proof.
  intros Hc Hin Hsame.
  destruct (residues_all_equal col c Hc Hin Hsame) as [n Hn].
  unfold col_entropy. rewrite Hn. cbn [replicate].
  unfold Counter. cbn [fold_left bump]. rewrite Counter_replicate.
  unfold sum_values. cbn [map snd fold_left]. f_equal.
  replace (0 + (1 + Z.of_nat n)) with (1 + Z.of_nat n) by lia.
  assert (IZR (1 + Z.of_nat n) <> 0%R) as Hnz by (apply not_0_IZR; lia).
  unfold log2.
  replace (IZR (1 + Z.of_nat n) / IZR (1 + Z.of_nat n))%R with 1%R
    by (field; exact Hnz).
  rewrite ln_1. lra.
Qed.

Lemma col_entropy_nan (col : list ascii) :
  col_entropy col = None <-> all_gaps col.
Proof.
  unfold col_entropy, all_gaps.
  destruct (List.filter (fun c => negb (is_gap c)) col) as [|x l] eqn:Hf.
  - split; [intros _|done]. apply Forall_forall. intros c Hc.
    destruct (is_gap c) eqn:Hg; [done|]. exfalso.
    apply list_elem_of_In in Hc.
    assert (In c (List.filter (fun c => negb (is_gap c)) col)) as Hcf
      by (apply filter_In; now rewrite Hg).
    now rewrite Hf in Hcf.
  - split; [done|]. intros Hall. exfalso.
    assert (In x (List.filter (fun c => negb (is_gap c)) col)) as Hx
      by (rewrite Hf; now left).
    apply filter_In in Hx as [Hx1 Hx2]. apply list_elem_of_In in Hx1.
    rewrite Forall_forall in Hall. specialize (Hall x Hx1).
    now rewrite Hall in Hx2.
Qed.

(** ** Mean entropy *)

Lemma entropies_columns (msa : list str) (indices : list Z) :
  entropies msa indices
  = bind (columns msa indices) (fun cols => Ok (omap col_entropy cols)).
Proof.
  induction indices as [|i rest IH]; [done|].
  cbn [entropies columns].
  destruct (column msa i) as [col|e]; cbn [bind]; [|done].
  rewrite IH. destruct (columns msa rest) as [cols|e]; cbn [bind omap]; [|done].
  cbn [omap list_omap]. now destruct (col_entropy col).
Qed.

Lemma omap_entropy_filter (cols : list (list ascii)) :
  omap col_entropy cols
  = omap col_entropy (filter (fun g => ~ all_gaps g) cols)
  /\ length (omap col_entropy cols)
     = length (filter (fun g => ~ all_gaps g) cols).
Proof.
  induction cols as [|g cols [IH1 IH2]]; [done|].
  destruct (decide (all_gaps g)) as [Hg|Hg].
  - rewrite filter_cons_False by tauto. cbn [omap list_omap].
    apply col_entropy_nan in Hg. rewrite Hg. done.
  - rewrite filter_cons_True by done. cbn [omap list_omap].
    destruct (col_entropy g) eqn:He.
    + cbn. rewrite <- IH1, IH2. done.
    + exfalso. apply Hg. now apply col_entropy_nan.
Qed.

Lemma log2_half : log2 (1 / 2) = (-1)%R.
Proof.
  unfold log2. replace (1 / 2)%R with (/ 2)%R by lra.
  rewrite ln_Rinv by lra.
  assert (ln 2 <> 0)%R by (pose proof ln_lt_2; lra).
  now field.
Qed.

(** Two sequences that differ in their first column and are gaps in the
    second: the mean is the entropy of the first column alone, one bit;
    counting the gap column as zero would have given a half. *)
Example mean_entropy_skips_gap_column :
  mean_entropy [s "A-"; s "B-"] = Ok (Some 1%R).
Proof.
  unfold mean_entropy. cbn [bind entropies seqZ].
  change (entropies [s "A-"; s "B-"] (seqZ 0 (len (s "A-"))))
    with (Ok (match col_entropy (s "AB") with
              | Some x => [x]
              | None => []
              end) : res (list R)).
  assert (col_entropy (s "AB") = Some 1%R) as ->.
  { unfold col_entropy. cbn -[IZR log2 Rminus Rmult Rdiv].
    change (IZR (0 + 1 + 1)) with 2%R. rewrite log2_half. f_equal. lra. }
  cbn [bind mean fold_left length]. do 2 f_equal. cbn. lra.
Qed.

(** Claim C8.  A column with at least one non-gap character [c], all of
    whose non-gap characters are [c], has entropy 0.  A column has no
    entropy (NaN) exactly when it holds gaps only, and [mean_entropy] is the
    mean over the entropies of the other columns: the entropies it sums are
    those of the columns that are not all gaps, and it divides by the number
    of those columns. *)
Theorem entropy_of_uniform_and_gap_columns
    (col : list ascii) (c : ascii) (row0 : str) (rows : list str)
    (cols : list (list ascii))
    (Hc : is_gap c = false) (Hin : c ∈ col)
    (Hsame : forall x, x ∈ col -> is_gap x = true \/ x = c)
    (Hcols : columns (row0 :: rows) (seqZ 0 (len row0)) = Ok cols) :
  col_entropy col = Some 0%R
  /\ (forall g, col_entropy g = None <-> all_gaps g)
  /\ mean_entropy (row0 :: rows)
     = Ok (mean (omap col_entropy (filter (fun g => ~ all_gaps g) cols)))
  /\ length (omap col_entropy (filter (fun g => ~ all_gaps g) cols))
     = length (filter (fun g => ~ all_gaps g) cols).
Proof.
  destruct (omap_entropy_filter cols) as [Hents Hlen].
  split; [now apply (col_entropy_identical col c)|].
  split; [apply col_entropy_nan|].
  split; [|now rewrite <- Hents].
  unfold mean_entropy. rewrite entropies_columns, Hcols. cbn [bind].
  now rewrite <- Hents.
Qed.

Lemma entropy_of_uniform_and_gap_columns_witness :
  col_entropy (s "A-A.") = Some 0%R
  /\ mean_entropy [s "A-"; s "B-"]
     = Ok (mean (omap col_entropy
                   (filter (fun g => ~ all_gaps g) [s "AB"; s "--"]))).
Proof.
  assert (forall x, x ∈ s "A-A." -> is_gap x = true \/ x = "A"%char) as Hsame.
  { intros x Hx. apply list_elem_of_In in Hx. cbn in Hx.
    destruct Hx as [<- | [<- | [<- | [<- | []]]]]; auto. }
  assert ("A"%char ∈ s "A-A.") as Hin by now left.
  pose proof (entropy_of_uniform_and_gap_columns (s "A-A.") "A"
                (s "A-") [s "B-"] [s "AB"; s "--"] eq_refl Hin Hsame eq_refl)
    as (H1 & _ & H3 & _).
  split; [exact H1 | exact H3].
Defined.

(** ** Greedy redundancy count *)

Lemma count_pair_sym acc x y : count_pair acc (x, y) = count_pair acc (y, x).
Proof.
  destruct acc as [matches comps]. unfold count_pair.
  rewrite (orb_comm (is_gap x)), (Ascii.eqb_sym x y). done.
Qed.

Lemma fold_pairs_sym (a b : str) acc :
  fold_left count_pair (zip a b) acc = fold_left count_pair (zip b a) acc.
Proof.
  revert b acc. induction a as [|x a IH]; intros [|y b] acc; try done.
  cbn [zip zip_with fold_left]. now rewrite count_pair_sym, IH.
Qed.

Lemma pairwise_identity_sym (a b : str) :
  pairwise_identity_gapmasked a b = pairwise_identity_gapmasked b a.
Proof. unfold pairwise_identity_gapmasked. now rewrite fold_pairs_sym. Qed.

Lemma greedy_keeps (thresh : Q) (kept rest : list str) :
  pairwise_below thresh (kept ++ rest) ->
  fold_left (keep_step thresh) rest kept = kept ++ rest.
Proof.
  revert kept. induction rest as [|x rest IH]; intros kept Hbelow.
  - cbn. now rewrite app_nil_r.
  - cbn [fold_left]. unfold keep_step at 2.
    assert (redundant thresh kept x = false) as ->.
    { unfold redundant. apply not_true_iff_false. intros Hex.
      apply existsb_exists in Hex as (k & Hk & Hle).
      apply Qle_bool_iff in Hle.
      apply list_elem_of_In, list_elem_of_lookup in Hk as [i Hi].
      pose proof (lookup_lt_Some _ _ _ Hi) as Hlt.
      assert ((pairwise_identity_gapmasked k x < thresh)%Q) as Hkx.
      { apply (Hbelow i (length kept)); [done| |].
        - now rewrite lookup_app_l.
        - rewrite lookup_app_r by lia. now rewrite Nat.sub_diag. }
      rewrite pairwise_identity_sym in Hkx.
      now apply Qlt_not_le in Hkx. }
    rewrite IH; rewrite <- app_assoc; done.
Qed.

(** Claim C9.  If every pair of sequences of the list has a gap-masked
    identity strictly below the threshold, the greedy pass keeps every
    sequence, in order, and [greedy_nr_count] is the length of the list. *)
Theorem greedy_count_of_distinct (msa : list str) (thresh : Q)
    (Hbelow : pairwise_below thresh msa) :
  fold_left (keep_step thresh) msa [] = msa
  /\ greedy_nr_count msa thresh = len msa.
Proof.
  assert (fold_left (keep_step thresh) msa [] = msa) as Hkept
    by now rewrite greedy_keeps.
  split; [exact Hkept|]. unfold greedy_nr_count. now rewrite Hkept.
Qed.

Lemma greedy_count_of_distinct_witness :
  pairwise_below 0.62 [s "AAAA"; s "CC-C"; s "GGGA"]
  /\ greedy_nr_count [s "AAAA"; s "CC-C"; s "GGGA"] 0.62 = 3.
Proof.
  assert (pairwise_below 0.62 [s "AAAA"; s "CC-C"; s "GGGA"]) as Hbelow.
  { intros i j a b Hij Hi Hj.
    destruct i as [|[|[|i]]]; destruct j as [|[|[|j]]]; try lia;
      cbn in Hi, Hj; try discriminate;
      injection Hi as <-; injection Hj as <-; reflexivity. }
  split; [exact Hbelow|].
  exact (proj2 (greedy_count_of_distinct _ _ Hbelow)).
Defined.

(** With a pair at the threshold the count drops: the second sequence
    agrees with the first on three of four compared columns. *)
Example greedy_drops_redundant :
  greedy_nr_count [s "AAAA"; s "AAAC"; s "GGGG"] 0.75 = 2.
Proof. reflexivity. Qed.

End A3mQualityFacts.

(* ===================================================================== *)
(** * a3m_quality.py: further properties                                   *)
(* ===================================================================== *)

Module A3mQualityMore.
Import A3mQuality A3mQualityFacts.

(** ** Pairwise identity *)

Lemma count_pairs_range (pairs : list (ascii * ascii)) (matches comps : Z) :
  0 <= matches <= comps ->
  0 <= fst (fold_left count_pair pairs (matches, comps))
    <= snd (fold_left count_pair pairs (matches, comps)).
Proof.
  revert matches comps. induction pairs as [|[x y] pairs IH];
    intros matches comps Hr; [done|].
  cbn [fold_left count_pair].
  destruct (is_gap x || is_gap y); [now apply IH|].
  destruct (Ascii.eqb x y); apply IH; lia.
Qed.

Lemma count_pairs_self (a : str) (n : Z) :
  fold_left count_pair (zip a a) (n, n)
  = (n + len (List.filter (fun c => negb (is_gap c)) a),
     n + len (List.filter (fun c => negb (is_gap c)) a)).
Proof.
  revert n. induction a as [|c a IH]; intros n.
  - cbn. unfold len. cbn. now rewrite Z.add_0_r.
  - cbn [zip zip_with fold_left count_pair List.filter].
    rewrite orb_diag. destruct (is_gap c); cbn [negb]; [apply IH|].
    rewrite Ascii.eqb_refl, IH. unfold len. cbn [length].
    f_equal; lia.
Qed.

Lemma identity_properties_aux (a b : str) :
  (0 <= pairwise_identity_gapmasked a b)%Q
  /\ (pairwise_identity_gapmasked a b <= 1)%Q.
Proof.
  unfold pairwise_identity_gapmasked.
  pose proof (count_pairs_range (zip a b) 0 0) as Hr.
  destruct (fold_left count_pair (zip a b) (0, 0)) as [m c].
  cbn [fst snd] in Hr. destruct (Z.eqb_spec c 0); [done|].
  apply CleanMore.truediv_range; lia.
Qed.

(** Extra X20.  The gap-masked identity of two sequences lies between 0 and
    1 and does not depend on their order; a sequence with a residue has
    identity 1 to itself, a sequence of gaps identity 0. *)
Theorem identity_properties (a b : str) :
  (0 <= pairwise_identity_gapmasked a b)%Q
  /\ (pairwise_identity_gapmasked a b <= 1)%Q
  /\ pairwise_identity_gapmasked a b = pairwise_identity_gapmasked b a
  /\ (~ all_gaps a -> (pairwise_identity_gapmasked a a == 1)%Q)
  /\ (all_gaps a -> pairwise_identity_gapmasked a a = 0%Q).
Proof.
  destruct (identity_properties_aux a b) as [Hlo Hhi].
  split; [exact Hlo|]. split; [exact Hhi|].
  split; [apply pairwise_identity_sym|]. split.
  - intros Hres. unfold pairwise_identity_gapmasked.
    rewrite count_pairs_self. rewrite Z.add_0_l.
    destruct (List.filter (fun c => negb (is_gap c)) a) as [|x l] eqn:Hf.
    + exfalso. apply Hres. apply col_entropy_nan. unfold col_entropy.
      now rewrite Hf.
    + destruct (Z.eqb_spec (len (x :: l)) 0) as [H0|_];
        [unfold len in H0; cbn in H0; lia|].
      apply CleanMore.truediv_one; [unfold len; cbn; lia | done].
  - intros Hall. unfold pairwise_identity_gapmasked.
    rewrite count_pairs_self. rewrite Z.add_0_l.
    apply col_entropy_nan in Hall. unfold col_entropy in Hall.
    destruct (List.filter (fun c => negb (is_gap c)) a); [done | discriminate].
Qed.

(** ** The greedy pass *)

Lemma not_redundant thresh kept x :
  redundant thresh kept x = false ->
  forall k, k ∈ kept -> (pairwise_identity_gapmasked x k < thresh)%Q.
Proof.
  intros Hred k Hk. apply Qnot_le_lt. intros Hle.
  apply not_true_iff_false in Hred. apply Hred.
  unfold redundant. apply existsb_exists. exists k.
  split; [now apply list_elem_of_In | now apply Qle_bool_iff].
Qed.

Lemma is_redundant thresh kept x :
  redundant thresh kept x = true ->
  exists k, k ∈ kept /\ (thresh <= pairwise_identity_gapmasked x k)%Q.
Proof.
  unfold redundant. intros (k & Hk & Hle)%existsb_exists.
  exists k. split; [now apply list_elem_of_In | now apply Qle_bool_iff].
Qed.

Lemma pairwise_below_snoc thresh kept x :
  pairwise_below thresh kept -> redundant thresh kept x = false ->
  pairwise_below thresh (kept ++ [x]).
Proof.
  intros Hbelow Hred i j a b Hij Hi Hj.
  pose proof (lookup_lt_Some _ _ _ Hj) as Hjlt.
  rewrite length_app in Hjlt. cbn in Hjlt.
  destruct (decide (j < length kept)%nat) as [Hjk|Hjk].
  - rewrite lookup_app_l in Hi, Hj by lia. now apply (Hbelow i j).
  - assert (j = length kept) as -> by lia.
    rewrite lookup_app_l in Hi by lia.
    rewrite lookup_app_r, Nat.sub_diag in Hj by lia. injection Hj as <-.
    rewrite pairwise_identity_sym.
    apply (not_redundant _ _ _ Hred). now apply list_elem_of_lookup_2 in Hi.
Qed.

Lemma greedy_invariant thresh rest kept :
  pairwise_below thresh kept ->
  let final := fold_left (keep_step thresh) rest kept in
  pairwise_below thresh final
  /\ (exists added, final = kept ++ added /\ sublist added rest)
  /\ forall x, x ∈ rest ->
       x ∈ final
       \/ exists k, k ∈ final
                    /\ (thresh <= pairwise_identity_gapmasked x k)%Q.
Proof.
  revert kept. induction rest as [|x rest IH]; intros kept Hbelow final.
  - subst final. cbn. split; [done|]. split.
    + exists []. now rewrite app_nil_r.
    + intros x Hx. now apply elem_of_nil in Hx.
  - subst final. cbn [fold_left].
    destruct (redundant thresh kept x) eqn:Hred.
    + assert (keep_step thresh kept x = kept) as ->
        by (unfold keep_step; now rewrite Hred).
      destruct (IH kept Hbelow) as (Hb & (added & Hadd & Hsub) & Hcov).
      split; [done|]. split.
      * exists added. split; [done|]. now apply sublist_cons.
      * intros y [->|Hy]%elem_of_cons; [|now apply Hcov].
        destruct (is_redundant _ _ _ Hred) as (k & Hk & Hle).
        right. exists k. split; [|done]. rewrite Hadd.
        apply elem_of_app. now left.
    + assert (keep_step thresh kept x = kept ++ [x]) as ->
        by (unfold keep_step; now rewrite Hred).
      destruct (IH (kept ++ [x]) (pairwise_below_snoc _ _ _ Hbelow Hred))
        as (Hb & (added & Hadd & Hsub) & Hcov).
      split; [done|]. split.
      * exists (x :: added). split; [now rewrite Hadd, <- app_assoc|].
        now apply sublist_skip.
      * intros y [->|Hy]%elem_of_cons; [|now apply Hcov].
        left. rewrite Hadd. apply elem_of_app. left.
        apply elem_of_app. right. now left.
Qed.

(** Extra X21.  The sequences the greedy pass keeps are a subsequence of
    the input in which every pair scores below the threshold, and every
    sequence of the input is either kept or reaches the threshold against a
    kept one; so the count is at most the number of sequences, and at least
    1 when there is one. *)
Theorem greedy_keeps_a_nonredundant_cover (msa : list str) (thresh : Q) :
  let kept := fold_left (keep_step thresh) msa [] in
  greedy_nr_count msa thresh = len kept
  /\ sublist kept msa
  /\ pairwise_below thresh kept
  /\ (forall x, x ∈ msa ->
        x ∈ kept
        \/ exists k, k ∈ kept
                     /\ (thresh <= pairwise_identity_gapmasked x k)%Q)
  /\ greedy_nr_count msa thresh <= len msa
  /\ (msa <> [] -> 1 <= greedy_nr_count msa thresh).
Proof.
  intros kept.
  destruct (greedy_invariant thresh msa []) as (Hb & (added & Hadd & Hsub) & Hc).
  { intros i j a b _ Hi. rewrite lookup_nil in Hi. discriminate. }
  fold kept in Hb, Hadd, Hc. cbn [app] in Hadd.
  split; [done|]. split; [now rewrite Hadd|]. split; [done|].
  split; [done|]. unfold greedy_nr_count. fold kept. split.
  - apply sublist_length in Hsub. rewrite Hadd. unfold len. lia.
  - intros Hne. destruct msa as [|x msa]; [done|].
    destruct (Hc x) as [Hx | (k & Hk & _)]; [now left| |].
    + destruct kept; [now apply elem_of_nil in Hx | unfold len; cbn; lia].
    + destruct kept; [now apply elem_of_nil in Hk | unfold len; cbn; lia].
Qed.

(** ** Entropy is not negative *)

Lemma bump_positive x counts :
  Forall (fun kv => 1 <= snd kv) counts ->
  Forall (fun kv => 1 <= snd kv) (bump x counts).
Proof.
  induction 1 as [|[y v] counts Hv Hrest IH]; cbn [bump].
  - constructor; [cbn; lia | constructor].
  - destruct (Ascii.eqb x y); constructor; cbn in *; (lia || done).
Qed.

Lemma Counter_positive residues counts :
  Forall (fun kv => 1 <= snd kv) counts ->
  Forall (fun kv => 1 <= snd kv)
    (fold_left (fun counts x => bump x counts) residues counts).
Proof.
  revert counts. induction residues as [|x residues IH]; intros counts Hc;
    [done|].
  cbn [fold_left]. apply IH. now apply bump_positive.
Qed.

Lemma fold_add_bound (l : list Z) (a : Z) :
  Forall (fun v => 0 <= v) l -> 0 <= a ->
  a <= fold_left Z.add l a /\ forall v, v ∈ l -> v <= fold_left Z.add l a.
Proof.
  intros Hl. revert a. induction Hl as [|y l Hy _ IH]; intros a Ha.
  - split; [cbn; lia|]. intros v Hv. now apply elem_of_nil in Hv.
  - cbn [fold_left]. destruct (IH (a + y)) as [Hge Hin]; [lia|].
    split; [lia|]. intros v [->|Hv]%elem_of_cons; [lia | now apply Hin].
Qed.

Lemma entropy_term_nonpos (v n : Z) :
  1 <= v <= n -> (IZR v / IZR n * log2 (IZR v / IZR n) <= 0)%R.
Proof.
  intros Hv.
  assert (0 < IZR v)%R as Hv0 by (apply IZR_lt; lia).
  assert (0 < IZR n)%R as Hn0 by (apply IZR_lt; lia).
  assert (IZR v <= IZR n)%R as Hle by (apply IZR_le; lia).
  set (p := (IZR v / IZR n)%R).
  assert (0 < p)%R as Hp0 by (unfold p; now apply Rdiv_lt_0_compat).
  assert (p <= 1)%R as Hp1.
  { unfold p. apply (Rmult_le_reg_r (IZR n)); [done|].
    unfold Rdiv. rewrite Rmult_assoc, Rinv_l by lra. lra. }
  assert (ln p <= 0)%R as Hln.
  { rewrite <- ln_1. destruct Hp1 as [Hlt | ->]; [|lra].
    left. now apply ln_increasing. }
  assert (0 < ln 2)%R as Hln2 by (pose proof ln_lt_2; lra).
  unfold log2.
  assert (ln p / ln 2 <= 0)%R as Hlog.
  { unfold Rdiv. apply (Rmult_le_reg_r (ln 2)); [done|].
    rewrite Rmult_assoc, Rinv_l by lra. lra. }
  nra.
Qed.

Lemma entropy_fold_nonneg (n : Z) (values : list Z) (ent : R) :
  Forall (fun v => 1 <= v <= n) values -> (0 <= ent)%R ->
  (0 <= fold_left (fun ent v => let p := (IZR v / IZR n)%R in
                                (ent - p * log2 p)%R) values ent)%R.
Proof.
  intros Hv. revert ent. induction Hv as [|v values Hv _ IH]; intros ent He;
    [done|].
  cbn [fold_left]. apply IH. cbv zeta.
  pose proof (entropy_term_nonpos v n Hv). lra.
Qed.

(** Extra X22.  The entropy of a column, when it has one, is not
    negative. *)
Theorem col_entropy_nonneg (col : list ascii) (e : R)
    (Hentropy : col_entropy col = Some e) :
  (0 <= e)%R.
Proof.
  unfold col_entropy in Hentropy.
  destruct (List.filter (fun c => negb (is_gap c)) col) as [|x residues];
    [discriminate|].
  injection Hentropy as <-.
  set (counts := Counter (x :: residues)).
  assert (Forall (fun kv => 1 <= snd kv) counts) as Hpos
    by (apply Counter_positive; constructor).
  assert (Forall (fun v => 1 <= v) (map snd counts)) as Hvals.
  { apply Forall_forall. intros v Hv.
    apply list_elem_of_In, in_map_iff in Hv as ([k w] & <- & Hkw).
    rewrite Forall_forall in Hpos. apply (Hpos (k, w)).
    now apply list_elem_of_In. }
  destruct (fold_add_bound (map snd counts) 0) as [_ Hle]; [|lia|].
  { eapply Forall_impl; [exact Hvals|]. cbn. lia. }
  apply entropy_fold_nonneg; [|lra].
  apply Forall_forall. intros v Hv. rewrite Forall_forall in Hvals.
  split; [now apply Hvals | now apply Hle].
Qed.

Lemma col_entropy_nonneg_witness : (0 <= 1)%R.
Proof.
  apply (col_entropy_nonneg (s "AB") 1%R).
  unfold col_entropy. cbn -[IZR log2 Rminus Rmult Rdiv].
  change (IZR (0 + 1 + 1)) with 2%R. rewrite log2_half. f_equal. lra.
Defined.

(** ** Mean identity to the query *)

Lemma sum_range (vals : list Q) (a : Q) :
  Forall (fun v => (0 <= v)%Q /\ (v <= 1)%Q) vals -> (0 <= a)%Q ->
  (0 <= fold_left Qplus vals a)%Q
  /\ (fold_left Qplus vals a <= a + inject_Z (len vals))%Q.
Proof.
  intros Hv. revert a. induction Hv as [|v vals [Hv0 Hv1] _ IH]; intros a Ha.
  - cbn. split; [done|]. unfold len. cbn. rewrite Qplus_0_r. apply Qle_refl.
  - cbn [fold_left].
    assert (0 <= a + v)%Q as Hav.
    { rewrite <- (Qplus_0_r 0). now apply Qplus_le_compat. }
    destruct (IH (a + v)%Q Hav) as [Hlo Hhi]. split; [done|].
    eapply Qle_trans; [exact Hhi|].
    assert (len (v :: vals) = 1 + len vals) as ->
      by (unfold len; cbn [length]; lia).
    rewrite inject_Z_plus, Qplus_assoc.
    apply Qplus_le_compat; [|apply Qle_refl].
    apply Qplus_le_compat; [apply Qle_refl | done].
Qed.

(** Extra X23.  The mean identity to the query, when it is a number, lies
    between 0 and 1; it is NaN for an alignment of fewer than two
    sequences. *)
Theorem avg_identity_in_range (msa : list str) (v : Q)
    (Hvalue : avg_identity_to_query msa = Some v) :
  (0 <= v)%Q /\ (v <= 1)%Q /\ (2 <= length msa)%nat.
Proof.
  unfold avg_identity_to_query in Hvalue.
  destruct msa as [|q [|x rest]]; try discriminate.
  remember (omap (fun x => if comparable q x =? 0 then None
                           else Some (pairwise_identity_gapmasked q x))
              (x :: rest)) as vals eqn:Hdef.
  cbv zeta in Hvalue.
  assert (Forall (fun v => (0 <= v)%Q /\ (v <= 1)%Q) vals) as Hvals.
  { apply Forall_forall. intros w Hw. rewrite Hdef in Hw.
    apply list_elem_of_omap in Hw as (y & _ & Hy). cbn beta in Hy.
    destruct (comparable q y =? 0); [discriminate|]. injection Hy as <-.
    apply identity_properties_aux. }
  destruct vals as [|w vals']; [discriminate|].
  injection Hvalue as <-.
  destruct (sum_range (w :: vals') 0%Q Hvals) as [Hlo Hhi]; [apply Qle_refl|].
  assert (0 < inject_Z (len (w :: vals')))%Q as Hpos.
  { unfold len. cbn [length]. unfold Qlt. cbn. lia. }
  split; [|split; [|cbn; lia]].
  - apply Qle_shift_div_l; [done|]. now rewrite Qmult_0_l.
  - apply Qle_shift_div_r; [done|]. rewrite Qmult_1_l.
    now rewrite Qplus_0_l in Hhi.
Qed.

Lemma avg_identity_in_range_witness :
  exists v, avg_identity_to_query [s "AAAA"; s "AAAC"; s "----"] = Some v
            /\ (v <= 1)%Q.
Proof.
  eexists. split; [reflexivity|].
  exact (proj1 (proj2 (avg_identity_in_range
                         [s "AAAA"; s "AAAC"; s "----"] _ eq_refl))).
Defined.

End A3mQualityMore.
